(** * Sudoku generator and solver: a shallow embedding of [sudoko.cpp]

    The C++ program works on a fixed [int g[9][9]] array that it mutates
    in place, and draws its randomness from the global [rand()].  Here

    - a grid is a list of nine rows of nine integers ([Z]); reading a
      cell is [get], the assignment [g[r][c] = v] is [put];
    - every function that mutates its grid argument takes the grid and
      returns the grid it leaves behind;
    - [rand()] reads the next number of an arbitrary, explicitly passed
      sequence of non-negative numbers (binary naturals, written
      [BinNums.N] because the program calls its board size [N]);
    - recursion is bounded by a [fuel] argument (the allowed recursion
      depth); running out of fuel is the result [None];
    - the search functions record every grid they write in a ghost
      [history], so that statements about intermediate states can be
      made;
    - the solution counter, which works on a local array beside the
      caller's, is given a second time with its arrays at addresses in
      a [memory] (module [InMemory]), every assignment recorded with
      the address it goes to, and is shown to agree with the first. *)

From Stdlib Require Import String Ascii DecimalString.
From Stdlib Require Import List ZArith Lia Bool Permutation Arith.
Import ListNotations.

(** ** Arrays updated by index *)

Section Arrays.
Context {A : Type}.

(** [l[i] = v]; an index outside the array is never used by the
    program, the list is left as it is there. *)
Fixpoint upd (l : list A) (i : nat) (v : A) : list A :=
  match l, i with
  | [], _ => []
  | _ :: t, O => v :: t
  | x :: t, S i' => x :: upd t i' v
  end.

(** [tmp = l[i]; l[i] = l[j]; l[j] = tmp]. *)
Definition swap (d : A) (l : list A) (i j : nat) : list A :=
  let tmp := nth i l d in
  let l1 := upd l i (nth j l d) in
  upd l1 j tmp.
End Arrays.

(** ** The grid *)

Definition N : nat := 9.
Definition UNASSIGNED : Z := 0%Z.

Definition grid := list (list Z).

(** [g[r][c]] *)
Definition get (g : grid) (r c : nat) : Z := nth c (nth r g []) 0%Z.

(** [g[r][c] = v] *)
Definition put (g : grid) (r c : nat) (v : Z) : grid :=
  upd g r (upd (nth r g []) c v).

(** The shape of an [int[9][9]]. *)
Definition wf (g : grid) : Prop :=
  length g = N /\ Forall (fun row => length row = N) g.

Definition wfb (g : grid) : bool :=
  (length g =? N) && forallb (fun row => length row =? N) g.

(** ** The world: the random numbers and the ghost history *)

Record world : Type := mkWorld {
  randoms : BinNums.N -> BinNums.N;  (* call number k of rand() returns [randoms k] *)
  drawn : BinNums.N;                 (* the number of calls of rand() so far *)
  history : list grid                (* ghost: grids written by the search, newest first *)
}.

Definition M (A : Type) : Type := world -> option (A * world).

Definition ret {A} (a : A) : M A := fun w => Some (a, w).

Definition bind {A B} (m : M A) (k : A -> M B) : M B :=
  fun w => match m w with
           | None => None
           | Some (a, w') => k a w'
           end.

Definition out_of_fuel {A} : M A := fun _ => None.

Notation "x <- m ;; k" := (bind m (fun x => k))
  (at level 61, m at next level, right associativity).
Notation "' pat <- m ;; k" := (bind m (fun x => match x with pat => k end))
  (at level 61, pat pattern, m at next level, right associativity).

(** [rand()] *)
Definition rand : M BinNums.N :=
  fun w => Some (randoms w (drawn w),
                 mkWorld (randoms w) (N.succ (drawn w)) (history w)).

(** [g[r][c] = v] inside the search: the assignment, recorded. *)
Definition write (g : grid) (r c : nat) (v : Z) : M grid :=
  fun w => let g' := put g r c v in
           Some (g', mkWorld (randoms w) (drawn w) (g' :: history w)).

(** ** The constraint checker (lines 25-47) *)

Definition usedInRow (g : grid) (row : nat) (num : Z) : bool :=
  existsb (fun c => Z.eqb (get g row c) num) (seq 0 N).

Definition usedInCol (g : grid) (col : nat) (num : Z) : bool :=
  existsb (fun r => Z.eqb (get g r col) num) (seq 0 N).

Definition usedInBox (g : grid) (boxStartRow boxStartCol : nat) (num : Z) : bool :=
  existsb (fun r =>
    existsb (fun c => Z.eqb (get g (boxStartRow + r) (boxStartCol + c)) num)
            (seq 0 3))
    (seq 0 3).

Definition isSafe (g : grid) (row col : nat) (num : Z) : bool :=
  negb (usedInRow g row num) &&
  negb (usedInCol g col num) &&
  negb (usedInBox g (row - row mod 3) (col - col mod 3) num) &&
  Z.eqb (get g row col) UNASSIGNED.

(** ** Grid utilities (lines 49-63) *)

Fixpoint scan_cols (g : grid) (row : nat) (cols : list nat) : option (nat * nat) :=
  match cols with
  | [] => None
  | col :: rest =>
      if Z.eqb (get g row col) UNASSIGNED then Some (row, col)
      else scan_cols g row rest
  end.

Fixpoint scan_rows (g : grid) (rows : list nat) : option (nat * nat) :=
  match rows with
  | [] => None
  | row :: rest =>
      match scan_cols g row (seq 0 N) with
      | Some p => Some p
      | None => scan_rows g rest
      end
  end.

(** The first empty cell in row-major order, if any. *)
Definition findUnassigned (g : grid) : option (nat * nat) :=
  scan_rows g (seq 0 N).

(** [for (i = n; i > 0; --i) { j = rand() % (i + 1); swap a[i], a[j] }],
    the loop shared by [shuffledDigits] and [carveUnique]; [todo] lists the
    values of [i] still to come. *)
Fixpoint shuffle_loop {A} (d : A) (todo : list nat) (a : list A) : M (list A) :=
  match todo with
  | [] => ret a
  | i :: rest =>
      r <- rand ;;
      let j := N.to_nat (N.modulo r (N.of_nat (i + 1))) in
      shuffle_loop d rest (swap d a i j)
  end.

(** [n, n-1, ..., 1] *)
Definition downfrom (n : nat) : list nat := rev (seq 1 n).

Definition shuffledDigits : M (list Z) :=
  let out := map (fun i => Z.of_nat (i + 1)) (seq 0 9) in
  shuffle_loop 0%Z (downfrom 8) out.

(** [order[0], ..., order[8]], the digits the loops of the search visit. *)
Definition digits_of (order : list Z) : list Z :=
  map (fun i => nth i order 0%Z) (seq 0 9).

(** ** The solver (lines 66-80) *)

(** The loop over the candidate digits; [rec] is the recursive call. *)
Fixpoint try_digits (rec : grid -> M (bool * grid)) (row col : nat)
         (nums : list Z) (g : grid) : M (bool * grid) :=
  match nums with
  | [] => ret (false, g)
  | num :: rest =>
      if isSafe g row col num then
        g1 <- write g row col num ;;
        '(ok, g2) <- rec g1 ;;
        if (ok : bool) then ret (true, g2)
        else
          g3 <- write g2 row col UNASSIGNED ;;
          try_digits rec row col rest g3
      else try_digits rec row col rest g
  end.

Fixpoint solveSudoku (fuel : nat) (g : grid) : M (bool * grid) :=
  match fuel with
  | O => out_of_fuel
  | S fuel' =>
      match findUnassigned g with
      | None => ret (true, g)
      | Some (row, col) =>
          order <- shuffledDigits ;;
          try_digits (solveSudoku fuel') row col (digits_of order) g
      end
  end.

(** ** The solution counter (lines 83-108) *)

Fixpoint count_digits (rec : grid -> Z -> M (grid * Z)) (limit : Z)
         (row col : nat) (nums : list Z) (g : grid) (count : Z) : M (grid * Z) :=
  match nums with
  | [] => ret (g, count)
  | num :: rest =>
      if isSafe g row col num then
        g1 <- write g row col num ;;
        '(g2, count2) <- rec g1 count ;;
        if Z.geb count2 limit then
          g3 <- write g2 row col UNASSIGNED ;;
          ret (g3, count2)
        else
          g3 <- write g2 row col UNASSIGNED ;;
          count_digits rec limit row col rest g3 count2
      else count_digits rec limit row col rest g count
  end.

Fixpoint countSolutionsDFS (fuel : nat) (g : grid) (count limit : Z)
  : M (grid * Z) :=
  match fuel with
  | O => out_of_fuel
  | S fuel' =>
      if Z.geb count limit then ret (g, count)
      else
        match findUnassigned g with
        | None => ret (g, (count + 1)%Z)
        | Some (row, col) =>
            order <- shuffledDigits ;;
            count_digits (fun g1 c1 => countSolutionsDFS fuel' g1 c1 limit)
                         limit row col (digits_of order) g count
        end
  end.

(** [for r, for c: dst[r][c] = src[r][c]] *)
Definition copy_cells (src dst : grid) : grid :=
  fold_left (fun d r =>
    fold_left (fun d' c => put d' r c (get src r c)) (seq 0 N) d)
    (seq 0 N) dst.

(** A local [int tmp[9][9]]: its contents are not read before every cell
    has been assigned. *)
Definition local_array : grid := repeat (repeat 0%Z N) N.

(** The result pairs the caller's grid, as the call leaves it, with the
    returned count. *)
Definition countSolutions (fuel : nat) (g : grid) (limit : Z) : M (grid * Z) :=
  let tmp := copy_cells g local_array in
  '(_, cnt) <- countSolutionsDFS fuel tmp 0%Z limit ;;
  ret (g, cnt).

(** ** The solution counter with its arrays in memory (lines 83-108)

    Passing grids as values gives every call a grid of its own.  The
    C++ [countSolutions] receives the address of the caller's array and
    declares a second array, [tmp]; which of the two the search assigns
    to shows only when arrays have addresses.  Here the arrays live in a
    [memory], the functions take addresses, and every assignment is
    recorded with the address it goes to. *)

Definition addr : Type := nat.

Record memory : Type := mkMemory {
  arrays : addr -> grid;  (* the [int[9][9]] found at each address *)
  top : addr;             (* addresses below [top] are in use; the next
                             local array is placed at [top] *)
  stores : list (addr * (nat * nat) * Z)
                          (* ghost: the assignments [a[r][c] = v]
                             performed, newest first *)
}.

(** [a[r][c] = v], [a] the array at address [a]. *)
Definition store (m : memory) (a : addr) (r c : nat) (v : Z) : memory :=
  let g' := put (arrays m a) r c v in
  mkMemory (fun b => if Nat.eqb b a then g' else arrays m b)
           (top m) ((a, (r, c), v) :: stores m).

Module InMemory.

(** [g[r][c] = v] inside the search, [g] an address; the grid written
    is recorded in the history as by [write]. *)
Definition write (g : addr) (r c : nat) (v : Z) (m : memory) : M memory :=
  fun w => let m' := store m g r c v in
           Some (m', mkWorld (randoms w) (drawn w) (arrays m' g :: history w)).

Fixpoint count_digits (rec : memory -> Z -> M (memory * Z)) (limit : Z)
         (g : addr) (row col : nat) (nums : list Z) (m : memory) (count : Z)
  : M (memory * Z) :=
  match nums with
  | [] => ret (m, count)
  | num :: rest =>
      if isSafe (arrays m g) row col num then
        m1 <- write g row col num m ;;
        '(m2, count2) <- rec m1 count ;;
        if Z.geb count2 limit then
          m3 <- write g row col UNASSIGNED m2 ;;
          ret (m3, count2)
        else
          m3 <- write g row col UNASSIGNED m2 ;;
          count_digits rec limit g row col rest m3 count2
      else count_digits rec limit g row col rest m count
  end.

Fixpoint countSolutionsDFS (fuel : nat) (g : addr) (count limit : Z)
         (m : memory) : M (memory * Z) :=
  match fuel with
  | O => out_of_fuel
  | S fuel' =>
      if Z.geb count limit then ret (m, count)
      else
        match findUnassigned (arrays m g) with
        | None => ret (m, (count + 1)%Z)
        | Some (row, col) =>
            order <- shuffledDigits ;;
            count_digits (fun m1 c1 => countSolutionsDFS fuel' g c1 limit m1)
                         limit g row col (digits_of order) m count
        end
  end.

(** [for r, for c: dst[r][c] = src[r][c]], [src] and [dst] addresses. *)
Definition copy_cells (src dst : addr) (m : memory) : memory :=
  fold_left (fun m1 r =>
    fold_left (fun m2 c => store m2 dst r c (get (arrays m2 src) r c))
              (seq 0 N) m1)
    (seq 0 N) m.

(** [int tmp[N][N]] is placed at the first free address, with whatever
    the memory holds there, and is given up at the return. *)
Definition countSolutions (fuel : nat) (g : addr) (limit : Z) (m : memory)
  : M (memory * Z) :=
  let tmp := top m in
  let m0 := mkMemory (arrays m) (S (top m)) (stores m) in
  let m1 := copy_cells g tmp m0 in
  '(m2, cnt) <- countSolutionsDFS fuel tmp 0%Z limit m1 ;;
  ret (mkMemory (arrays m2) (top m) (stores m2), cnt).

End InMemory.

(** ** The generator (lines 111-181) *)

Fixpoint fillGrid (fuel : nat) (g : grid) : M (bool * grid) :=
  match fuel with
  | O => out_of_fuel
  | S fuel' =>
      match findUnassigned g with
      | None => ret (true, g)
      | Some (row, col) =>
          order <- shuffledDigits ;;
          try_digits (fillGrid fuel') row col (digits_of order) g
      end
  end.

(** The carving loop, [idxs] the values of [idx] still to come; the
    result pairs the grid with the final value of [removed]. *)
Fixpoint carve_loop (fuel : nat) (cells : list nat) (toRemove : Z)
         (idxs : list nat) (g : grid) (removed : Z) : M (grid * Z) :=
  match idxs with
  | [] => ret (g, removed)
  | idx :: rest =>
      if Z.ltb removed toRemove then
        let pos := nth idx cells 0 in
        let r := pos / 9 in
        let c := pos mod 9 in
        if Z.eqb (get g r c) UNASSIGNED then
          carve_loop fuel cells toRemove rest g removed
        else
          let backup := get g r c in
          let g1 := put g r c UNASSIGNED in
          '(g2, solCount) <- countSolutions fuel g1 2%Z ;;
          if Z.eqb solCount 1 then
            carve_loop fuel cells toRemove rest g2 (removed + 1)%Z
          else
            carve_loop fuel cells toRemove rest (put g2 r c backup) removed
      else ret (g, removed)
  end.

Definition carveUnique (fuel : nat) (g : grid) (toRemove : Z) : M grid :=
  cells <- shuffle_loop 0 (downfrom 80) (seq 0 81) ;;
  '(g', _) <- carve_loop fuel cells toRemove (seq 0 81) g 0%Z ;;
  ret g'.

(** [for r, for c: out[r][c] = UNASSIGNED] *)
Definition clear_cells (out : grid) : grid :=
  fold_left (fun o r =>
    fold_left (fun o' c => put o' r c UNASSIGNED) (seq 0 N) o)
    (seq 0 N) out.

(** Lines 173-177: the number of clues to keep. *)
Definition pick_clues (difficulty : string) : M Z :=
  if String.eqb difficulty "easy" then
    r <- rand ;; ret (45 + Z.of_N (N.modulo r 6))%Z
  else if String.eqb difficulty "medium" then
    r <- rand ;; ret (34 + Z.of_N (N.modulo r 6))%Z
  else if String.eqb difficulty "hard" then
    r <- rand ;; ret (24 + Z.of_N (N.modulo r 6))%Z
  else
    r <- rand ;; ret (34 + Z.of_N (N.modulo r 6))%Z.

Fixpoint generatePuzzle (fuel : nat) (out : grid) (difficulty : string) : M grid :=
  match fuel with
  | O => out_of_fuel
  | S fuel' =>
      let out0 := clear_cells out in
      '(ok, out1) <- fillGrid fuel' out0 ;;
      if negb ok then generatePuzzle fuel' out1 difficulty
      else
        clues <- pick_clues difficulty ;;
        let toRemove := (81 - clues)%Z in
        carveUnique fuel' out1 toRemove
  end.

(** [copyGrid] (lines 183-187), used by [main]. *)
Definition copyGrid (src dst : grid) : grid := copy_cells src dst.

(** ** Printing and the command line (lines 11-23 and 189-227) *)

(** ['\n'] *)
Definition nl : string := String "010"%char EmptyString.

Definition border : string := ("+-------+-------+-------+" ++ nl)%string.

(** [cout << n] for an [int n]: its decimal digits, after a minus sign
    when it is negative. *)
Definition show_int (z : Z) : string := NilZero.string_of_int (Z.to_int z).

(** The text [printGrid] sends to [cout]; [out] is the text sent so
    far. *)
Definition printGrid (g : grid) : string :=
  fold_left (fun out r =>
    let out1 := (out ++ "| ")%string in
    let out2 :=
      fold_left (fun o c =>
        let o1 := if Z.eqb (get g r c) 0 then (o ++ ". ")%string
                  else ((o ++ show_int (get g r c)) ++ " ")%string in
        if Nat.eqb ((c + 1) mod 3) 0 then (o1 ++ "| ")%string else o1)
        (seq 0 N) out1 in
    let out3 := (out2 ++ nl)%string in
    if Nat.eqb ((r + 1) mod 3) 0 then (out3 ++ border)%string else out3)
  (seq 0 N) border.

(** What a run of the program shows. *)
Record shown : Type := mkShown {
  exit_code : Z;     (* the value [main] returns *)
  to_cout : string;  (* the text sent to [cout] *)
  to_cerr : string   (* the text sent to [cerr] *)
}.

Definition banner : string :=
  ("=== Sudoku Generator & Solver (C++ / 2D Array / Backtracking) ===" ++ nl
   ++ "Choose difficulty [easy | medium | hard]: ")%string.

Definition menu : string :=
  (nl ++ "Options:" ++ nl ++ "  1) Solve and show solution" ++ nl
   ++ "  2) Exit" ++ nl ++ "Enter choice: ")%string.

(** [main].  The standard input is given by what the two reads leave:
    [typed] is the token [cin >> difficulty] reads ([None] when the read
    fails) and [choice] the value of [choice] after [cin >> choice] (0
    when that read fails).  [srand(time(NULL))] makes the random numbers
    of the run arbitrary: the run starts from any world. *)
Definition main (fuel : nat) (typed : option string) (choice : Z) : M shown :=
  match typed with
  | None => ret (mkShown 1 banner ("Input error." ++ nl)%string)
  | Some difficulty =>
      puzzle <- generatePuzzle fuel local_array difficulty ;;
      let out := (banner ++ nl ++ "Generated " ++ difficulty ++ " puzzle:" ++ nl
                  ++ printGrid puzzle ++ menu)%string in
      if Z.eqb choice 1 then
        let work := copyGrid puzzle local_array in
        '(ok, work') <- solveSudoku fuel work ;;
        if (ok : bool) then
          ret (mkShown 0 (out ++ nl ++ "Solution:" ++ nl ++ printGrid work')%string
                       EmptyString)
        else
          ret (mkShown 0
                 (out ++ "No solution found (unexpected for generated puzzles)."
                  ++ nl)%string EmptyString)
      else ret (mkShown 0 (out ++ "Goodbye!" ++ nl)%string EmptyString)
  end.

(** * Specification *)

(** ** The specification vocabulary *)

(** Every cell holds 0 (empty) or a digit 1-9. *)
Definition in_range (g : grid) : Prop :=
  forall r c, r < N -> c < N -> (0 <= get g r c <= 9)%Z.

(** No cell is empty. *)
Definition full (g : grid) : Prop :=
  forall r c, r < N -> c < N -> get g r c <> 0%Z.

(** Two cells share a row, a column or a 3x3 box. *)
Definition same_unit (r c r' c' : nat) : Prop :=
  r = r' \/ c = c' \/ (r / 3 = r' / 3 /\ c / 3 = c' / 3).

(** No nonzero digit occurs twice within a row, a column or a box. *)
Definition no_dup (g : grid) : Prop :=
  forall r c r' c', r < N -> c < N -> r' < N -> c' < N ->
    (r, c) <> (r', c') -> same_unit r c r' c' ->
    get g r c <> 0%Z -> get g r c <> get g r' c'.

(** The nine cells of row [r], of column [c], and of the box number
    [b] (boxes numbered 0-8 in row-major order). *)
Definition row_cells (g : grid) (r : nat) : list Z :=
  map (fun k => get g r k) (seq 0 9).
Definition col_cells (g : grid) (c : nat) : list Z :=
  map (fun k => get g k c) (seq 0 9).
Definition box_cells (g : grid) (b : nat) : list Z :=
  map (fun k => get g (3 * (b / 3) + k / 3) (3 * (b mod 3) + k mod 3)) (seq 0 9).

Definition each_digit_once (l : list Z) : Prop :=
  forall d, (1 <= d <= 9)%Z -> count_occ Z.eq_dec l d = 1.

(** Every row, column and box contains each digit 1-9 exactly once. *)
Definition solved (g : grid) : Prop :=
  forall k, k < N ->
    each_digit_once (row_cells g k) /\
    each_digit_once (col_cells g k) /\
    each_digit_once (box_cells g k).

(** [h] keeps every digit placed in [g]. *)
Definition agrees (g h : grid) : Prop :=
  forall r c, r < N -> c < N -> get g r c <> 0%Z -> get h r c = get g r c.

(** [h] is a full valid completion of [g]. *)
Definition completion (g h : grid) : Prop :=
  wf h /\ solved h /\ agrees g h.

(** [L] lists the full valid completions of [g], each once. *)
Definition enumerates (g : grid) (L : list grid) : Prop :=
  NoDup L /\ forall h, In h L <-> completion g h.

(** The number of empty cells. *)
Definition all_cells : list (nat * nat) :=
  flat_map (fun r => map (fun c => (r, c)) (seq 0 N)) (seq 0 N).

Definition count_empty (g : grid) : nat :=
  List.length (filter (fun p => Z.eqb (get g (fst p) (snd p)) 0) all_cells).

Definition count_filled (g : grid) : nat :=
  List.length (filter (fun p => negb (Z.eqb (get g (fst p) (snd p)) 0)) all_cells).

(** The grids written between two worlds all satisfy [P]. *)
Definition logged (P : grid -> Prop) (w w' : world) : Prop :=
  exists new, history w' = new ++ history w /\ Forall P new.

(** Executable versions, for concrete grids. *)
Definition in_rangeb (g : grid) : bool :=
  forallb (fun p => Z.leb 0 (get g (fst p) (snd p)) && Z.leb (get g (fst p) (snd p)) 9)
          all_cells.

Definition same_unitb (p q : nat * nat) : bool :=
  (fst p =? fst q) || (snd p =? snd q) ||
  ((fst p / 3 =? fst q / 3) && (snd p / 3 =? snd q / 3)).

Definition no_dupb (g : grid) : bool :=
  forallb (fun p => forallb (fun q =>
    (fst p =? fst q) && (snd p =? snd q) || negb (same_unitb p q) ||
    Z.eqb (get g (fst p) (snd p)) 0 ||
    negb (Z.eqb (get g (fst p) (snd p)) (get g (fst q) (snd q))))
    all_cells) all_cells.

Definition fullb (g : grid) : bool :=
  forallb (fun p => negb (Z.eqb (get g (fst p) (snd p)) 0)) all_cells.

Definition zero_grid : grid := repeat (repeat 0%Z N) N.

(** ** Vocabulary of the proofs *)

(** The unit whose [k]-th cell is [f k]. *)
Definition unit_of (f : nat -> nat * nat) (g : grid) : list Z :=
  map (fun k => get g (fst (f k)) (snd (f k))) (seq 0 9).

Definition row_at (r : nat) : nat -> nat * nat := fun k => (r, k).
Definition col_at (c : nat) : nat -> nat * nat := fun k => (k, c).
Definition box_at (b : nat) : nat -> nat * nat :=
  fun k => (3 * (b / 3) + k / 3, 3 * (b mod 3) + k mod 3).

(** [f] indexes nine distinct cells of the board that share a unit. *)
Definition is_unit (f : nat -> nat * nat) : Prop :=
  forall k, k < 9 ->
    fst (f k) < 9 /\ snd (f k) < 9 /\
    forall k', k' < 9 -> k <> k' ->
      f k <> f k' /\ same_unit (fst (f k)) (snd (f k)) (fst (f k')) (snd (f k')).

Definition digits : list Z := [1; 2; 3; 4; 5; 6; 7; 8; 9]%Z.

(** The run of [m] from [w] ends, with a result and a world that
    satisfy [Q]. *)
Definition returns {A} (m : M A) (w : world) (Q : A -> world -> Prop) : Prop :=
  exists a w', m w = Some (a, w') /\ Q a w'.

(** What a run of the solver from [g] in world [w] guarantees about its
    result [(b, g')] and final world [w']. *)
Definition solve_post (g : grid) (w : world) (res : bool * grid) (w' : world)
  : Prop :=
  wf (snd res) /\
  (fst res = false -> snd res = g) /\
  (fst res = true -> full (snd res) /\ agrees g (snd res)) /\
  (fst res = false -> forall h, ~ completion g h) /\
  (in_range g -> in_range (snd res)) /\
  (no_dup g -> no_dup (snd res) /\ logged no_dup w w') /\
  logged (agrees g) w w'.

(** The completions in [L] that hold [d] at [(row, col)]. *)
Definition holding (row col : nat) (d : Z) (L : list grid) : list grid :=
  filter (fun h => Z.eqb (get h row col) d) L.

(** How many completions in [L] hold one of [nums] at [(row, col)]. *)
Definition holding_any (row col : nat) (L : list grid) (nums : list Z) : nat :=
  list_sum (map (fun d => List.length (holding row col d L)) nums).

(** What a run of the counting search from [g] with running count [c]
    guarantees about the grid [g'] and the count [c'] it leaves. *)
Definition count_post (g : grid) (c limit : Z) (w : world)
           (res : grid * Z) (w' : world) : Prop :=
  fst res = g /\
  (c <= snd res <= Z.max c limit)%Z /\
  (forall L, (c <= limit)%Z -> in_range g -> no_dup g -> enumerates g L ->
     snd res = Z.min (c + Z.of_nat (List.length L)) limit) /\
  (no_dup g -> logged no_dup w w').

(** The carving invariant: the grid is a valid grid whose one
    completion is [sol]. *)
Definition carved (sol g : grid) : Prop :=
  wf g /\ in_range g /\ no_dup g /\ enumerates g [sol].

(** A solved grid: the empty grid has a completion. *)
Definition a_solution : grid :=
  [ [5; 3; 4; 6; 7; 8; 9; 1; 2];
    [6; 7; 2; 1; 9; 5; 3; 4; 8];
    [1; 9; 8; 3; 4; 2; 5; 6; 7];
    [8; 5; 9; 7; 6; 1; 4; 2; 3];
    [4; 2; 6; 8; 5; 3; 7; 9; 1];
    [7; 1; 3; 9; 2; 4; 8; 5; 6];
    [9; 6; 1; 5; 3; 7; 2; 8; 4];
    [2; 8; 7; 4; 1; 9; 6; 3; 5];
    [3; 4; 5; 2; 8; 6; 1; 7; 9] ]%Z.

(** The executable test of [solved]. *)
Definition solvedb (g : grid) : bool := fullb g && in_rangeb g && no_dupb g.

(** The clue ranges of the difficulties. *)
Definition clue_range (difficulty : string) : Z * Z :=
  if String.eqb difficulty "easy" then (45, 50)%Z
  else if String.eqb difficulty "medium" then (34, 39)%Z
  else if String.eqb difficulty "hard" then (24, 29)%Z
  else (34, 39)%Z.

(** Sample inputs. *)
Definition sample_world : world :=
  mkWorld (fun k => (7 * k * k + 3 * k + 1)%N) 0%N [].

Definition a_puzzle : grid :=
  [ [5; 3; 0; 0; 7; 0; 0; 0; 0];
    [6; 0; 0; 1; 9; 5; 0; 0; 0];
    [0; 9; 8; 0; 0; 0; 0; 6; 0];
    [8; 0; 0; 0; 6; 0; 0; 0; 3];
    [4; 0; 0; 8; 0; 3; 0; 0; 1];
    [7; 0; 0; 0; 2; 0; 0; 0; 6];
    [0; 6; 0; 0; 0; 0; 2; 8; 0];
    [0; 0; 0; 4; 1; 9; 0; 0; 5];
    [0; 0; 0; 0; 8; 0; 0; 7; 9] ]%Z.

(** A full grid that breaks the uniqueness rule everywhere. *)
Definition ones_grid : grid := repeat (repeat 1%Z N) N.

(** A grid with exactly two completions: in [a_solution] the digits 1
    and 3 at rows 3 and 4 of columns 5 and 8 can change places. *)
Definition two_way_grid : grid :=
  [ [5; 3; 4; 6; 7; 8; 9; 1; 2];
    [6; 7; 2; 1; 9; 5; 3; 4; 8];
    [1; 9; 8; 3; 4; 2; 5; 6; 7];
    [8; 5; 9; 7; 6; 0; 4; 2; 0];
    [4; 2; 6; 8; 5; 0; 7; 9; 0];
    [7; 1; 3; 9; 2; 4; 8; 5; 6];
    [9; 6; 1; 5; 3; 7; 2; 8; 4];
    [2; 8; 7; 4; 1; 9; 6; 3; 5];
    [3; 4; 5; 2; 8; 6; 1; 7; 9] ]%Z.

Definition b_solution : grid :=
  [ [5; 3; 4; 6; 7; 8; 9; 1; 2];
    [6; 7; 2; 1; 9; 5; 3; 4; 8];
    [1; 9; 8; 3; 4; 2; 5; 6; 7];
    [8; 5; 9; 7; 6; 3; 4; 2; 1];
    [4; 2; 6; 8; 5; 1; 7; 9; 3];
    [7; 1; 3; 9; 2; 4; 8; 5; 6];
    [9; 6; 1; 5; 3; 7; 2; 8; 4];
    [2; 8; 7; 4; 1; 9; 6; 3; 5];
    [3; 4; 5; 2; 8; 6; 1; 7; 9] ]%Z.

(** The executable tests of [agrees] and [completion]. *)
Definition agreesb (g h : grid) : bool :=
  forallb (fun p => Z.eqb (get g (fst p) (snd p)) 0 ||
                    Z.eqb (get h (fst p) (snd p)) (get g (fst p) (snd p)))
          all_cells.

Definition completionb (g h : grid) : bool :=
  wfb h && solvedb h && agreesb g h.

(** The result of a run, without the world it leaves. *)
Definition outcome {A} (r : option (A * world)) : option A := option_map fst r.

(** The memory of the examples: the caller's array, at address 0,
    holds [a_puzzle]; the rest of the memory holds ones. *)
Definition sample_memory : memory :=
  mkMemory (fun a => match a with O => a_puzzle | S _ => ones_grid end) 1 [].

(** From [m] to [m'] nothing but the array at address [a] was assigned
    to. *)
Definition only_at (a : addr) (m m' : memory) : Prop :=
  (forall b, b <> a -> arrays m' b = arrays m b) /\
  top m' = top m /\
  exists new, stores m' = new ++ stores m /\
              Forall (fun e => fst (fst e) = a) new.

(** The assignments of the copy loop of [countSolutions], newest
    first. *)
Definition copy_stores (g : grid) (tmp : addr) : list (addr * (nat * nat) * Z) :=
  rev (flat_map (fun r => map (fun c => (tmp, (r, c), get g r c)) (seq 0 N))
                (seq 0 N)).

(** The largest value of [rand()], [RAND_MAX] of [<cstdlib>]; the
    program does not set it, this is the value of the GNU C library. *)
Definition RAND_MAX : BinNums.N := 2147483647%N.

(** The clue target [generatePuzzle] computes when [rand()] returns
    [r]. *)
Definition clues_drawn (difficulty : string) (r : BinNums.N) : option Z :=
  outcome (pick_clues difficulty (mkWorld (fun _ => r) 0%N [])).

(** Exactly [n] of the values [0, ..., rand_max] of [rand()] give the
    clue target [clues]: [f 0, ..., f (n - 1)] lists them without
    repetition. *)
Definition drawn_by (difficulty : string) (rand_max : BinNums.N) (clues : Z)
           (n : BinNums.N) : Prop :=
  exists f : BinNums.N -> BinNums.N,
    (forall i j, (i < n)%N -> (j < n)%N -> f i = f j -> i = j) /\
    forall r, ((r <= rand_max)%N /\ clues_drawn difficulty r = Some clues) <->
              exists i, (i < n)%N /\ r = f i.

(** Random numbers with which "hard" asks for 24 clues and carving
    comes to its end with 26 left. *)
Definition stuck_world : world :=
  mkWorld (fun k => if N.eqb k 920 then 0 else 13 * k * k + 3 * k + 1)%N 0%N [].

(** What a run of [generatePuzzle] shows of its clues: the target
    drawn after the run [filled] of [fillGrid], and the number of filled
    cells of the puzzle of the run [generated]. *)
Definition clues_of_run (filled : option (bool * grid * world)) (pick : M Z)
           (generated : option (grid * world)) : option (Z * nat) :=
  match filled with
  | Some (_, w1) =>
      match pick w1 with
      | Some (clues, _) =>
          match generated with
          | Some (puzzle, _) => Some (clues, count_filled puzzle)
          | None => None
          end
      | None => None
      end
  | None => None
  end.

(** What a call of the counter in memory shows: the count, the
    caller's array at address [g] afterwards, the number of assignments
    recorded, and whether all of them went to the address [tmp]. *)
Definition stores_of_run (g tmp : addr) (r : option (memory * Z * world))
  : option (Z * grid * Z * bool) :=
  match r with
  | Some ((m', cnt), _) =>
      Some (cnt, arrays m' g, Z.of_nat (List.length (stores m')),
            forallb (fun e => Nat.eqb (fst (fst e)) tmp) (stores m'))
  | None => None
  end.

(** Clearing the cell [(r, c)] of [g] would let in a completion other
    than [sol]. *)
Definition second_completion (sol g : grid) (r c : nat) : Prop :=
  exists h, h <> sol /\ completion (put g r c 0%Z) h.

(** The character that shows a cell holding 0-9: a dot for an empty
    cell, the digit otherwise. *)
Definition cell_char (z : Z) : ascii :=
  if Z.eqb z 0 then "."%char else ascii_of_nat (48 + Z.to_nat z).

(** Where the character of the cell [(r, c)] stands in the text of a
    grid: after the top border and the borders and rows above, each
    ended by a newline, and after the bars and cells to its left. *)
Definition cell_offset (r c : nat) : nat :=
  26 * (1 + r / 3) + 27 * r + 2 + 2 * c + 2 * (c / 3).

(** The text of a bordered 9x9 board whose cell [(r, c)] shows the
    character [ch r c]. *)
Definition cell_text (ch : nat -> nat -> ascii) (r c : nat) : string :=
  (String (ch r c) " " ++ (if Nat.eqb ((c + 1) mod 3) 0 then "| " else ""))%string.

Definition row_text (ch : nat -> nat -> ascii) (r : nat) : string :=
  ("| " ++ String.concat "" (map (cell_text ch r) (seq 0 9)) ++ nl
   ++ (if Nat.eqb ((r + 1) mod 3) 0 then border else ""))%string.

Definition board_text (ch : nat -> nat -> ascii) : string :=
  (border ++ String.concat "" (map (row_text ch) (seq 0 9)))%string.

(** The shuffle loop with the indices [js] in place of the values
    [rand() % (i + 1)]. *)
Fixpoint shuffle_with {A} (d : A) (todo js : list nat) (a : list A) : list A :=
  match todo, js with
  | i :: rest, j :: js' => shuffle_with d rest js' (swap d a i j)
  | _, _ => a
  end.

(** * Properties of the model *)

(** ** Arrays *)

Section ArrayFacts.
Context {A : Type}.
Implicit Types (l : list A) (i j : nat) (v d : A).

Lemma length_upd l i v : List.length (upd l i v) = List.length l.
Proof.
  revert i; induction l as [|x t IH]; intros [|i]; simpl; auto.
Qed.

Lemma nth_upd_eq l i v d : i < List.length l -> nth i (upd l i v) d = v.
Proof.
  revert i; induction l as [|x t IH]; intros [|i] H; simpl in *; try lia; auto.
  apply IH; lia.
Qed.

Lemma nth_upd_neq l i j v d : i <> j -> nth j (upd l i v) d = nth j l d.
Proof.
  revert i j; induction l as [|x t IH]; intros [|i] [|j] H; simpl; auto; try congruence.
Qed.

Lemma upd_nth l i d : upd l i (nth i l d) = l.
Proof.
  revert i; induction l as [|x t IH]; intros [|i]; simpl; auto.
  now rewrite IH.
Qed.

Lemma upd_upd l i v v' : upd (upd l i v) i v' = upd l i v'.
Proof.
  revert i; induction l as [|x t IH]; intros [|i]; simpl; auto.
  now rewrite IH.
Qed.

Lemma upd_beyond l i v : List.length l <= i -> upd l i v = l.
Proof.
  revert i; induction l as [|x t IH]; intros [|i] H; simpl in *; auto; try lia.
  rewrite IH; auto; lia.
Qed.

Lemma Forall_upd (P : A -> Prop) l i v :
  Forall P l -> P v -> Forall P (upd l i v).
Proof.
  intros Hl Hv; revert i; induction Hl; intros [|i]; simpl; auto.
Qed.

Lemma nth_upd l i j v d :
  i < List.length l ->
  nth j (upd l i v) d = if Nat.eq_dec i j then v else nth j l d.
Proof.
  intros H; destruct (Nat.eq_dec i j) as [->|Hn].
  - now apply nth_upd_eq.
  - now apply nth_upd_neq.
Qed.
End ArrayFacts.

(** ** Reading and writing cells *)

Lemma wf_length g : wf g -> List.length g = 9.
Proof. now intros [H _]. Qed.

Lemma wf_row g r : wf g -> r < 9 -> List.length (nth r g []) = 9.
Proof.
  intros [Hl Hr] H. rewrite Forall_forall in Hr. apply Hr, nth_In.
  unfold N in Hl; lia.
Qed.

Lemma wfb_correct g : wfb g = true <-> wf g.
Proof.
  unfold wfb, wf. rewrite andb_true_iff, Nat.eqb_eq, forallb_forall, Forall_forall.
  split; intros [H1 H2]; split; auto; intros x Hx.
  - now apply Nat.eqb_eq, H2.
  - now apply Nat.eqb_eq, H2.
Qed.

Lemma wf_put g r c v : wf g -> wf (put g r c v).
Proof.
  intros Hwf. unfold put.
  destruct (Nat.lt_ge_cases r (List.length g)) as [H|H].
  - destruct Hwf as [Hl Hr]. split.
    + now rewrite length_upd.
    + apply Forall_upd; auto. rewrite length_upd.
      rewrite Forall_forall in Hr. apply Hr, nth_In, H.
  - now rewrite upd_beyond.
Qed.

Lemma get_put_eq g r c v : wf g -> r < 9 -> c < 9 -> get (put g r c v) r c = v.
Proof.
  intros Hwf Hr Hc. unfold get, put.
  rewrite nth_upd_eq by (rewrite (wf_length _ Hwf); lia).
  apply nth_upd_eq. rewrite (wf_row _ _ Hwf Hr); lia.
Qed.

Lemma get_put_neq g r c v r' c' :
  (r, c) <> (r', c') -> get (put g r c v) r' c' = get g r' c'.
Proof.
  intros Hne. unfold get, put.
  destruct (Nat.eq_dec r r') as [->|Hr].
  - destruct (Nat.lt_ge_cases r' (List.length g)) as [H|H].
    + rewrite nth_upd_eq by assumption.
      apply nth_upd_neq. congruence.
    + now rewrite upd_beyond.
  - now rewrite nth_upd_neq.
Qed.

Lemma get_put g r c v r' c' :
  wf g -> r < 9 -> c < 9 ->
  get (put g r c v) r' c' =
  if Nat.eq_dec r r' then if Nat.eq_dec c c' then v else get g r' c'
  else get g r' c'.
Proof.
  intros Hwf Hr Hc.
  destruct (Nat.eq_dec r r') as [<-|Hn]; [destruct (Nat.eq_dec c c') as [<-|Hn]|].
  - now apply get_put_eq.
  - apply get_put_neq; congruence.
  - apply get_put_neq; congruence.
Qed.

(** Writing a cell and then writing back what it held restores the grid. *)
Lemma put_put_back g r c v : put (put g r c v) r c (get g r c) = g.
Proof.
  unfold put, get.
  destruct (Nat.lt_ge_cases r (List.length g)) as [H|H].
  - rewrite nth_upd_eq by assumption.
    now rewrite !upd_upd, upd_nth, upd_nth.
  - now rewrite !(upd_beyond _ _ _ H).
Qed.

Lemma grid_ext g h :
  wf g -> wf h ->
  (forall r c, r < 9 -> c < 9 -> get g r c = get h r c) -> g = h.
Proof.
  intros Hg Hh E.
  apply (nth_ext g h [] []).
  - now rewrite (wf_length _ Hg), (wf_length _ Hh).
  - intros r Hr. rewrite (wf_length _ Hg) in Hr.
    apply (nth_ext _ _ 0%Z 0%Z).
    + now rewrite (wf_row _ _ Hg Hr), (wf_row _ _ Hh Hr).
    + intros c Hc. rewrite (wf_row _ _ Hg Hr) in Hc. now apply E.
Qed.

(** ** The constraint checker *)

Lemma existsb_seq_false (f : nat -> bool) n :
  existsb f (seq 0 n) = false <-> forall k, k < n -> f k = false.
Proof.
  split.
  - intros H k Hk. destruct (f k) eqn:E; auto.
    assert (X : existsb f (seq 0 n) = true).
    { apply existsb_exists. exists k. split; auto. apply in_seq. lia. }
    congruence.
  - intros H. destruct (existsb f (seq 0 n)) eqn:E; auto.
    apply existsb_exists in E. destruct E as [k [Hk Hf]].
    apply in_seq in Hk. rewrite H in Hf by lia. discriminate.
Qed.

Lemma usedInRow_false g row num :
  usedInRow g row num = false <-> forall c, c < 9 -> get g row c <> num.
Proof.
  unfold usedInRow. rewrite existsb_seq_false. unfold N.
  split; intros H c Hc; specialize (H c Hc).
  - now apply Z.eqb_neq.
  - now apply Z.eqb_neq.
Qed.

Lemma usedInCol_false g col num :
  usedInCol g col num = false <-> forall r, r < 9 -> get g r col <> num.
Proof.
  unfold usedInCol. rewrite existsb_seq_false. unfold N.
  split; intros H c Hc; specialize (H c Hc).
  - now apply Z.eqb_neq.
  - now apply Z.eqb_neq.
Qed.

Lemma usedInBox_false g br bc num :
  usedInBox g br bc num = false <->
  forall dr dc, dr < 3 -> dc < 3 -> get g (br + dr) (bc + dc) <> num.
Proof.
  unfold usedInBox. rewrite existsb_seq_false. split.
  - intros H dr dc Hr Hc. specialize (H dr Hr).
    rewrite existsb_seq_false in H. now apply Z.eqb_neq, H.
  - intros H dr Hr. apply existsb_seq_false. intros dc Hc.
    now apply Z.eqb_neq, H.
Qed.

(** The cells of the box of [(row, col)] are those at offsets 0-2 from
    its top-left corner. *)
Lemma box_offsets row r' :
  r' / 3 = row / 3 -> r' = (row - row mod 3) + r' mod 3 /\ r' mod 3 < 3.
Proof.
  intros H. pose proof (Nat.div_mod_eq r' 3). pose proof (Nat.div_mod_eq row 3).
  pose proof (Nat.mod_upper_bound r' 3). pose proof (Nat.mod_upper_bound row 3). lia.
Qed.

Lemma box_corner row dr :
  dr < 3 -> ((row - row mod 3) + dr) / 3 = row / 3.
Proof.
  intros H. pose proof (Nat.div_mod_eq row 3).
  pose proof (Nat.mod_upper_bound row 3).
  replace (row - row mod 3 + dr) with (dr + (row / 3) * 3) by lia.
  rewrite Nat.div_add by lia. rewrite (Nat.div_small dr 3) by lia. lia.
Qed.

Lemma isSafe_true g row col num :
  row < 9 -> col < 9 ->
  (isSafe g row col num = true <->
   get g row col = 0%Z /\
   forall r' c', r' < 9 -> c' < 9 -> same_unit row col r' c' -> get g r' c' <> num).
Proof.
  intros Hr Hc. unfold isSafe, UNASSIGNED.
  rewrite !andb_true_iff, !negb_true_iff, Z.eqb_eq.
  rewrite usedInRow_false, usedInCol_false, usedInBox_false.
  split.
  - intros [[[H1 H2] H3] H4]. split; auto.
    intros r' c' Hr' Hc' [->|[->|[E1 E2]]]; auto.
    symmetry in E1, E2.
    destruct (box_offsets row _ E1) as [X1 X2].
    destruct (box_offsets col _ E2) as [Y1 Y2].
    rewrite X1, Y1. now apply H3.
  - intros [H4 H]. repeat split; auto.
    + intros c' Hc'. apply H; auto. now left.
    + intros r' Hr'. apply H; auto. right; now left.
    + intros dr dc Hdr Hdc.
      pose proof (box_corner row _ Hdr). pose proof (box_corner col _ Hdc).
      pose proof (Nat.div_mod_eq row 3). pose proof (Nat.div_mod_eq col 3).
      pose proof (Nat.mod_upper_bound row 3). pose proof (Nat.mod_upper_bound col 3).
      apply H; [ | | right; right; split; congruence].
      * assert (row / 3 < 3) by (apply Nat.Div0.div_lt_upper_bound; lia). lia.
      * assert (col / 3 < 3) by (apply Nat.Div0.div_lt_upper_bound; lia). lia.
Qed.

(** ** The first empty cell *)

Lemma scan_cols_some g row cols r c :
  scan_cols g row cols = Some (r, c) ->
  r = row /\ In c cols /\ get g r c = 0%Z.
Proof.
  induction cols as [|k rest IH]; simpl; [discriminate|].
  unfold UNASSIGNED. destruct (Z.eqb_spec (get g row k) 0) as [E|E].
  - intros X; inversion X; subst. auto.
  - intros X. destruct (IH X) as [? [? ?]]. auto.
Qed.

Lemma scan_cols_none g row cols :
  scan_cols g row cols = None -> forall c, In c cols -> get g row c <> 0%Z.
Proof.
  induction cols as [|k rest IH]; simpl; [tauto|].
  unfold UNASSIGNED. destruct (Z.eqb_spec (get g row k) 0) as [E|E]; [discriminate|].
  intros X c [<-|Hc]; auto.
Qed.

Lemma scan_rows_some g rows r c :
  scan_rows g rows = Some (r, c) ->
  In r rows /\ c < 9 /\ get g r c = 0%Z.
Proof.
  induction rows as [|k rest IH]; cbn [scan_rows]; [discriminate|].
  destruct (scan_cols g k (seq 0 N)) as [p|] eqn:E.
  - intros X; inversion X; subst.
    destruct (scan_cols_some _ _ _ _ _ E) as [-> [Hc Hz]].
    apply in_seq in Hc. unfold N in Hc. split; [now left|]. split; auto; lia.
  - intros X. destruct (IH X) as [? [? ?]]. split; [now right|]. auto.
Qed.

Lemma scan_rows_none g rows :
  scan_rows g rows = None ->
  forall r c, In r rows -> c < 9 -> get g r c <> 0%Z.
Proof.
  induction rows as [|k rest IH]; cbn [scan_rows]; [intros _ r c []|].
  destruct (scan_cols g k (seq 0 N)) as [p|] eqn:E; [discriminate|].
  intros X r c [<-|Hr] Hc; auto.
  apply (scan_cols_none _ _ _ E). apply in_seq. unfold N; lia.
Qed.

Lemma findUnassigned_some g r c :
  findUnassigned g = Some (r, c) -> r < 9 /\ c < 9 /\ get g r c = 0%Z.
Proof.
  intros H. apply scan_rows_some in H. destruct H as [Hr [Hc Hz]].
  apply in_seq in Hr. unfold N in Hr. repeat split; auto; lia.
Qed.

Lemma findUnassigned_none g : findUnassigned g = None -> full g.
Proof.
  intros H r c Hr Hc. apply (scan_rows_none _ _ H); auto.
  apply in_seq. unfold N in *; lia.
Qed.

(** ** Cells, units and counting *)

Lemma below9 (P : nat -> Prop) :
  P 0 -> P 1 -> P 2 -> P 3 -> P 4 -> P 5 -> P 6 -> P 7 -> P 8 ->
  forall n, n < 9 -> P n.
Proof.
  intros ? ? ? ? ? ? ? ? ? n H.
  do 9 (destruct n as [|n]; [assumption|]). lia.
Qed.

Ltac enum9 n H := pattern n; revert n H; apply below9.

Lemma in_all_cells r c : In (r, c) all_cells <-> r < 9 /\ c < 9.
Proof.
  unfold all_cells, N. rewrite in_flat_map. split.
  - intros [x [Hx Hin]]. apply in_map_iff in Hin.
    destruct Hin as [y [E Hy]]. inversion E; subst.
    apply in_seq in Hx, Hy. lia.
  - intros [Hr Hc]. exists r. split; [apply in_seq; lia|].
    apply in_map_iff. exists c. split; auto. apply in_seq; lia.
Qed.

Lemma all_cells_NoDup : NoDup all_cells.
Proof.
  assert (E : all_cells = map (fun k => (k / 9, k mod 9)) (seq 0 81)) by reflexivity.
  rewrite E. apply Finite.Injective_map_NoDup; [|apply seq_NoDup].
  intros x y H. inversion H.
  rewrite (Nat.div_mod_eq x 9), (Nat.div_mod_eq y 9). congruence.
Qed.

Lemma forallb_cells (f : nat * nat -> bool) :
  forallb f all_cells = true <-> forall r c, r < 9 -> c < 9 -> f (r, c) = true.
Proof.
  rewrite forallb_forall. split.
  - intros H r c Hr Hc. apply H, in_all_cells. auto.
  - intros H [r c] Hin. apply in_all_cells in Hin. now apply H.
Qed.

Lemma in_rangeb_correct g : in_rangeb g = true <-> in_range g.
Proof.
  unfold in_rangeb, in_range, N. rewrite forallb_cells. simpl.
  split; intros H r c Hr Hc; specialize (H r c Hr Hc).
  - apply andb_true_iff in H. destruct H as [H1 H2].
    apply Z.leb_le in H1, H2. lia.
  - apply andb_true_iff. split; apply Z.leb_le; lia.
Qed.

Lemma fullb_correct g : fullb g = true <-> full g.
Proof.
  unfold fullb, full, N. rewrite forallb_cells. simpl.
  split; intros H r c Hr Hc; specialize (H r c Hr Hc).
  - apply negb_true_iff, Z.eqb_neq in H. auto.
  - apply negb_true_iff, Z.eqb_neq. auto.
Qed.

Lemma same_unitb_correct r c r' c' :
  same_unitb (r, c) (r', c') = true <-> same_unit r c r' c'.
Proof.
  unfold same_unitb, same_unit. simpl.
  rewrite !orb_true_iff, andb_true_iff, !Nat.eqb_eq. tauto.
Qed.

Lemma no_dupb_correct g : no_dupb g = true <-> no_dup g.
Proof.
  unfold no_dupb, no_dup, N. rewrite forallb_cells. split.
  - intros H r c r' c' Hr Hc Hr' Hc' Hne Hu Hnz.
    specialize (H r c Hr Hc). rewrite forallb_cells in H.
    specialize (H r' c' Hr' Hc'). simpl in H.
    rewrite !orb_true_iff, andb_true_iff, !Nat.eqb_eq, !negb_true_iff in H.
    destruct H as [[[[E1 E2]|H]|H]|H].
    + congruence.
    + apply same_unitb_correct in Hu.
      change (same_unitb (r, c) (r', c') = false) in H. congruence.
    + apply Z.eqb_eq in H. contradiction.
    + now apply Z.eqb_neq.
  - intros H r c Hr Hc. apply forallb_cells. intros r' c' Hr' Hc'. simpl.
    rewrite !orb_true_iff, andb_true_iff, !Nat.eqb_eq, !negb_true_iff.
    destruct (Nat.eq_dec r r') as [E1|E1];
      [destruct (Nat.eq_dec c c') as [E2|E2]; [now left; left; left|]|].
    + destruct (same_unitb (r, c) (r', c')) eqn:U; [|left; left; now right].
      apply same_unitb_correct in U.
      destruct (Z.eq_dec (get g r c) 0) as [Z0|Z0]; [left; right; now apply Z.eqb_eq|].
      right. apply Z.eqb_neq. apply H; auto. congruence.
    + destruct (same_unitb (r, c) (r', c')) eqn:U; [|left; left; now right].
      apply same_unitb_correct in U.
      destruct (Z.eq_dec (get g r c) 0) as [Z0|Z0]; [left; right; now apply Z.eqb_eq|].
      right. apply Z.eqb_neq. apply H; auto. congruence.
Qed.

Lemma same_unit_sym r c r' c' : same_unit r c r' c' -> same_unit r' c' r c.
Proof. unfold same_unit. intuition congruence. Qed.

Lemma row_cells_unit g r : row_cells g r = unit_of (row_at r) g.
Proof. reflexivity. Qed.
Lemma col_cells_unit g c : col_cells g c = unit_of (col_at c) g.
Proof. reflexivity. Qed.
Lemma box_cells_unit g b : box_cells g b = unit_of (box_at b) g.
Proof. reflexivity. Qed.

Lemma row_at_unit r : r < 9 -> is_unit (row_at r).
Proof.
  intros Hr k Hk. unfold row_at; simpl. repeat split; auto.
  - congruence.
  - now left.
Qed.

Lemma col_at_unit c : c < 9 -> is_unit (col_at c).
Proof.
  intros Hc k Hk. unfold col_at; simpl. repeat split; auto.
  - congruence.
  - right; now left.
Qed.

Lemma box_at_unit b : b < 9 -> is_unit (box_at b).
Proof.
  intros Hb k Hk. revert k Hk. enum9 b Hb; intros k Hk; enum9 k Hk;
    (split; [vm_compute; lia|split; [vm_compute; lia|]]);
    intros k' Hk' Hne; revert Hne; enum9 k' Hk'; intros Hne;
    (split; [vm_compute; congruence | right; right; vm_compute; auto]).
Qed.

(** Where a cell sits in its box. *)
Lemma box_at_cell r c :
  r < 9 -> c < 9 ->
  3 * (r / 3) + c / 3 < 9 /\ 3 * (r mod 3) + c mod 3 < 9 /\
  box_at (3 * (r / 3) + c / 3) (3 * (r mod 3) + c mod 3) = (r, c).
Proof.
  intros Hr Hc. revert c Hc. enum9 r Hr; intros c Hc; enum9 c Hc;
    vm_compute; repeat split; lia.
Qed.

Lemma cell_index_diff r c r' c' :
  r < 9 -> c < 9 -> r' < 9 -> c' < 9 ->
  (r, c) <> (r', c') -> r / 3 = r' / 3 -> c / 3 = c' / 3 ->
  3 * (r mod 3) + c mod 3 <> 3 * (r' mod 3) + c' mod 3.
Proof.
  intros Hr Hc Hr' Hc' Hne E1 E2 E.
  apply Hne.
  pose proof (Nat.div_mod_eq r 3). pose proof (Nat.div_mod_eq r' 3).
  pose proof (Nat.div_mod_eq c 3). pose proof (Nat.div_mod_eq c' 3).
  pose proof (Nat.mod_upper_bound r 3). pose proof (Nat.mod_upper_bound r' 3).
  pose proof (Nat.mod_upper_bound c 3). pose proof (Nat.mod_upper_bound c' 3).
  f_equal; lia.
Qed.

(** ** Solved grids *)

Lemma in_digits d : In d digits <-> (1 <= d <= 9)%Z.
Proof.
  unfold digits. simpl. split.
  - intuition lia.
  - intros H.
    assert (d = 1 \/ d = 2 \/ d = 3 \/ d = 4 \/ d = 5 \/ d = 6 \/ d = 7 \/
            d = 8 \/ d = 9)%Z by lia.
    intuition auto.
Qed.

Lemma digits_NoDup : NoDup digits.
Proof.
  unfold digits. repeat constructor; simpl; intuition discriminate.
Qed.

Lemma unit_length f g : List.length (unit_of f g) = 9.
Proof. unfold unit_of. now rewrite length_map, length_seq. Qed.

Lemma unit_nth f g k :
  k < 9 -> nth k (unit_of f g) 0%Z = get g (fst (f k)) (snd (f k)).
Proof.
  intros Hk. unfold unit_of.
  rewrite (nth_indep _ 0%Z (get g (fst (f 0)) (snd (f 0))))
    by (now rewrite length_map, length_seq).
  rewrite (map_nth (fun k => get g (fst (f k)) (snd (f k))) (seq 0 9) 0 k).
  now rewrite seq_nth.
Qed.

Lemma unit_in f g x :
  In x (unit_of f g) <-> exists k, k < 9 /\ x = get g (fst (f k)) (snd (f k)).
Proof.
  unfold unit_of. rewrite in_map_iff. split.
  - intros [k [E Hk]]. apply in_seq in Hk. exists k. split; [lia|auto].
  - intros [k [Hk E]]. exists k. split; auto. apply in_seq. lia.
Qed.

(** A unit of a full grid that holds digits without a duplicate holds
    each digit once. *)
Lemma unit_each_once f g :
  is_unit f -> full g -> in_range g -> no_dup g ->
  each_digit_once (unit_of f g).
Proof.
  intros Hu Hf Hr Hn.
  assert (ND : NoDup (unit_of f g)).
  { apply (NoDup_nth _ 0%Z). rewrite unit_length. intros i j Hi Hj E.
    rewrite !unit_nth in E by assumption.
    destruct (Nat.eq_dec i j) as [|Hne]; auto. exfalso.
    destruct (Hu i Hi) as [A1 [A2 A3]]. destruct (Hu j Hj) as [B1 [B2 _]].
    destruct (A3 j Hj Hne) as [C1 C2].
    assert (D : (fst (f i), snd (f i)) <> (fst (f j), snd (f j))).
    { intros X. apply C1.
      now rewrite (surjective_pairing (f i)), (surjective_pairing (f j)). }
    exact (Hn _ _ _ _ A1 A2 B1 B2 D C2 (Hf _ _ A1 A2) E). }
  assert (IN : incl (unit_of f g) digits).
  { intros x Hx. apply unit_in in Hx. destruct Hx as [k [Hk ->]].
    destruct (Hu k Hk) as [A1 [A2 _]].
    apply in_digits. specialize (Hr _ _ A1 A2). specialize (Hf _ _ A1 A2). lia. }
  assert (IN' : incl digits (unit_of f g)).
  { apply NoDup_length_incl; auto; try (rewrite unit_length; simpl; lia). }
  intros d Hd. apply NoDup_count_occ'; auto. apply IN'. now apply in_digits.
Qed.

(** Conversely such a unit has nine different digits. *)
Lemma unit_once_NoDup f g :
  each_digit_once (unit_of f g) ->
  NoDup (unit_of f g) /\ incl (unit_of f g) digits.
Proof.
  intros H.
  assert (IN : incl digits (unit_of f g)).
  { intros d Hd. apply in_digits in Hd. apply (count_occ_In Z.eq_dec).
    rewrite (H d Hd). lia. }
  assert (LE : List.length (unit_of f g) <= List.length digits).
  { rewrite unit_length. simpl; lia. }
  assert (ND : NoDup (unit_of f g)).
  { exact (NoDup_incl_NoDup digits_NoDup LE IN). }
  split; [exact ND|].
  exact (NoDup_length_incl digits_NoDup LE IN).
Qed.

Lemma unit_once_distinct f g k k' :
  each_digit_once (unit_of f g) -> k < 9 -> k' < 9 -> k <> k' ->
  get g (fst (f k)) (snd (f k)) <> get g (fst (f k')) (snd (f k')).
Proof.
  intros H Hk Hk' Hne E.
  destruct (unit_once_NoDup _ _ H) as [ND _].
  rewrite (NoDup_nth _ 0%Z) in ND. rewrite unit_length in ND.
  apply Hne, ND; auto. now rewrite !unit_nth.
Qed.

Lemma unit_once_digit f g k :
  each_digit_once (unit_of f g) -> k < 9 ->
  (1 <= get g (fst (f k)) (snd (f k)) <= 9)%Z.
Proof.
  intros H Hk. destruct (unit_once_NoDup _ _ H) as [_ IN].
  apply in_digits, IN, unit_in. eauto.
Qed.

Lemma solved_digit g r c :
  solved g -> r < 9 -> c < 9 -> (1 <= get g r c <= 9)%Z.
Proof.
  intros H Hr Hc. destruct (H r Hr) as [Hrow _].
  rewrite row_cells_unit in Hrow.
  apply (unit_once_digit _ _ c Hrow Hc).
Qed.

Lemma solved_full g : solved g -> full g.
Proof. intros H r c Hr Hc. pose proof (solved_digit _ _ _ H Hr Hc). lia. Qed.

Lemma solved_in_range g : solved g -> in_range g.
Proof. intros H r c Hr Hc. pose proof (solved_digit _ _ _ H Hr Hc). lia. Qed.

Lemma solved_no_dup g : solved g -> no_dup g.
Proof.
  intros H r c r' c' Hr Hc Hr' Hc' Hne Hu _.
  destruct Hu as [<-|[<-|[E1 E2]]].
  - destruct (H r Hr) as [Hrow _]. rewrite row_cells_unit in Hrow.
    apply (unit_once_distinct _ _ c c' Hrow); auto; congruence.
  - destruct (H c Hc) as [_ [Hcol _]]. rewrite col_cells_unit in Hcol.
    apply (unit_once_distinct _ _ r r' Hcol); auto; congruence.
  - destruct (box_at_cell r c Hr Hc) as [Hb [Hk Hcell]].
    destruct (box_at_cell r' c' Hr' Hc') as [_ [Hk' Hcell']].
    rewrite <- E1, <- E2 in Hcell'.
    destruct (H _ Hb) as [_ [_ Hbox]]. rewrite box_cells_unit in Hbox.
    pose proof (unit_once_distinct _ _ _ _ Hbox Hk Hk'
                  (cell_index_diff _ _ _ _ Hr Hc Hr' Hc' Hne E1 E2)) as X.
    now rewrite Hcell, Hcell' in X.
Qed.

(** A full grid of digits without duplicates is solved. *)
Lemma full_valid_solved g : full g -> in_range g -> no_dup g -> solved g.
Proof.
  intros Hf Hr Hn k Hk. unfold N in Hk.
  rewrite row_cells_unit, col_cells_unit, box_cells_unit.
  repeat split; apply unit_each_once; auto using row_at_unit, col_at_unit, box_at_unit.
Qed.

Lemma solved_iff g : solved g <-> full g /\ in_range g /\ no_dup g.
Proof.
  split.
  - auto using solved_full, solved_in_range, solved_no_dup.
  - intros [? [? ?]]. now apply full_valid_solved.
Qed.

(** ** Placing and clearing a digit *)

Lemma in_range_put g r c v :
  wf g -> r < 9 -> c < 9 -> in_range g -> (0 <= v <= 9)%Z ->
  in_range (put g r c v).
Proof.
  intros Hwf Hr Hc H Hv r' c' Hr' Hc'. rewrite get_put by assumption.
  destruct (Nat.eq_dec r r'); [destruct (Nat.eq_dec c c')|]; auto.
Qed.

(** A placement that [isSafe] allows creates no duplicate. *)
Lemma no_dup_put_safe g r c d :
  wf g -> r < 9 -> c < 9 -> no_dup g -> isSafe g r c d = true ->
  no_dup (put g r c d).
Proof.
  intros Hwf Hr Hc H Hs.
  apply isSafe_true in Hs; auto. destruct Hs as [Hz Hs].
  intros r1 c1 r2 c2 Hr1 Hc1 Hr2 Hc2 Hne Hu.
  rewrite !get_put by assumption.
  destruct (Nat.eq_dec r r1) as [<-|N1];
    [destruct (Nat.eq_dec c c1) as [<-|N1]|];
    (destruct (Nat.eq_dec r r2) as [<-|N2];
      [destruct (Nat.eq_dec c c2) as [<-|N2]|]);
    try congruence;
    try (intros _; apply not_eq_sym; now apply Hs);
    try (intros _; apply Hs; auto using same_unit_sym);
    now apply H.
Qed.

(** Clearing a cell creates no duplicate. *)
Lemma no_dup_put_zero g r c :
  wf g -> r < 9 -> c < 9 -> no_dup g -> no_dup (put g r c 0%Z).
Proof.
  intros Hwf Hr Hc H r1 c1 r2 c2 Hr1 Hc1 Hr2 Hc2 Hne Hu.
  rewrite !get_put by assumption.
  destruct (Nat.eq_dec r r1) as [<-|N1];
    [destruct (Nat.eq_dec c c1) as [<-|N1]|];
    (destruct (Nat.eq_dec r r2) as [<-|N2];
      [destruct (Nat.eq_dec c c2) as [<-|N2]|]);
    try congruence; try (now apply H).
Qed.

(** ** Completions *)

Lemma completion_digit g h r c :
  completion g h -> r < 9 -> c < 9 -> (1 <= get h r c <= 9)%Z.
Proof. intros [_ [Hs _]]. now apply solved_digit. Qed.

(** The digit a completion puts into an empty cell is one [isSafe] allows. *)
Lemma completion_safe g h r c :
  completion g h -> r < 9 -> c < 9 -> get g r c = 0%Z ->
  isSafe g r c (get h r c) = true.
Proof.
  intros [Hwf [Hs Ha]] Hr Hc Hz. apply isSafe_true; auto. split; auto.
  intros r' c' Hr' Hc' Hu E.
  pose proof (solved_digit _ _ _ Hs Hr Hc) as Hd.
  destruct (Nat.eq_dec r r') as [<-|N1];
    [destruct (Nat.eq_dec c c') as [<-|N1]|].
  - lia.
  - apply (solved_no_dup _ Hs r c r c'); auto; try congruence; try lia.
    rewrite (Ha r c'); auto; lia.
  - apply (solved_no_dup _ Hs r c r' c'); auto; try congruence; try lia.
    rewrite (Ha r' c'); auto; lia.
Qed.

Lemma completion_put g h r c :
  wf g -> completion g h -> r < 9 -> c < 9 -> get g r c = 0%Z ->
  completion (put g r c (get h r c)) h.
Proof.
  intros Hg [Hwf [Hs Ha]] Hr Hc Hz. split; [|split]; auto.
  intros r' c' Hr' Hc'. rewrite get_put by assumption.
  destruct (Nat.eq_dec r r') as [<-|N1];
    [destruct (Nat.eq_dec c c') as [<-|N1]|]; auto.
Qed.

Lemma completion_of_put g h r c d :
  wf g -> r < 9 -> c < 9 -> get g r c = 0%Z -> d <> 0%Z ->
  completion (put g r c d) h -> completion g h /\ get h r c = d.
Proof.
  intros Hg Hr Hc Hz Hd [Hwf [Hs Ha]]. split.
  - split; [|split]; auto. intros r' c' Hr' Hc' Hnz.
    specialize (Ha r' c' Hr' Hc'). rewrite get_put in Ha by assumption.
    destruct (Nat.eq_dec r r') as [<-|N1];
      [destruct (Nat.eq_dec c c') as [<-|N1]|]; auto.
    congruence.
  - specialize (Ha r c Hr Hc). rewrite get_put_eq in Ha by assumption. auto.
Qed.

Lemma agrees_refl g : agrees g g.
Proof. intros r c _ _ _. reflexivity. Qed.

(** What a completion of [put g r c d] keeps, it keeps of [g]. *)
Lemma agrees_of_put g h r c d :
  wf g -> r < 9 -> c < 9 -> get g r c = 0%Z ->
  agrees (put g r c d) h -> agrees g h.
Proof.
  intros Hg Hr Hc Hz Ha r' c' Hr' Hc' Hnz.
  specialize (Ha r' c' Hr' Hc'). rewrite get_put in Ha by assumption.
  destruct (Nat.eq_dec r r') as [<-|N1];
    [destruct (Nat.eq_dec c c') as [<-|N1]|]; auto.
  congruence.
Qed.

(** A solved grid is its own and only completion. *)
Lemma completion_self g : wf g -> solved g -> completion g g.
Proof. intros Hwf Hs. split; [|split]; auto using agrees_refl. Qed.

Lemma completion_full g h : wf g -> full g -> completion g h -> h = g.
Proof.
  intros Hg Hf [Hh [_ Ha]]. apply grid_ext; auto;
    intros r c Hr Hc; apply Ha; auto.
Qed.

(** ** Counting empty and filled cells *)

Lemma filter_length_lt {A} (f f' : A -> bool) (l : list A) x :
  (forall y, In y l -> f' y = true -> f y = true) ->
  In x l -> f x = true -> f' x = false ->
  List.length (filter f' l) < List.length (filter f l).
Proof.
  intros Himp Hin Hfx Hfx'.
  assert (LE : forall l', (forall y, In y l' -> f' y = true -> f y = true) ->
             List.length (filter f' l') <= List.length (filter f l')).
  { induction l' as [|a t IH]; simpl; auto. intros H.
    assert (IHt := IH (fun y Hy => H y (or_intror Hy))).
    destruct (f' a) eqn:E.
    - rewrite (H a (or_introl eq_refl) E). simpl. lia.
    - destruct (f a); simpl; lia. }
  induction l as [|a t IH]; simpl in *; [tauto|].
  destruct Hin as [->|Hin].
  - rewrite Hfx, Hfx'. simpl.
    specialize (LE t (fun y Hy => Himp y (or_intror Hy))). lia.
  - specialize (IH (fun y Hy => Himp y (or_intror Hy)) Hin).
    destruct (f' a) eqn:E.
    + rewrite (Himp a (or_introl eq_refl) E). simpl. lia.
    + destruct (f a); simpl; lia.
Qed.

Lemma filter_length_but_one {A} (dec : forall a b : A, {a = b} + {a <> b})
      (f f' : A -> bool) (l : list A) x :
  NoDup l -> (forall y, In y l -> y <> x -> f' y = f y) ->
  List.length (filter f l) <= S (List.length (filter f' l)).
Proof.
  intros ND. induction ND as [|a t Hnin ND IH]; simpl; intros H; [lia|].
  destruct (dec a x) as [->|Hne].
  - assert (E : filter f' t = filter f t).
    { apply filter_ext_in. intros y Hy. apply H; auto. congruence. }
    rewrite E. destruct (f x), (f' x); simpl; lia.
  - rewrite (H a (or_introl eq_refl) Hne).
    specialize (IH (fun y Hy => H y (or_intror Hy))).
    destruct (f a); simpl; lia.
Qed.

Lemma count_empty_put g r c v :
  wf g -> r < 9 -> c < 9 -> get g r c = 0%Z -> v <> 0%Z ->
  count_empty (put g r c v) < count_empty g.
Proof.
  intros Hwf Hr Hc Hz Hv. unfold count_empty.
  apply filter_length_lt with (x := (r, c)).
  - intros [r' c'] _. simpl. rewrite get_put by assumption.
    destruct (Nat.eq_dec r r'); [destruct (Nat.eq_dec c c')|]; auto.
    intros X. apply Z.eqb_eq in X. contradiction.
  - apply in_all_cells; auto.
  - simpl. now apply Z.eqb_eq.
  - simpl. rewrite get_put_eq by assumption. now apply Z.eqb_neq.
Qed.

Lemma count_empty_le g : count_empty g <= 81.
Proof.
  unfold count_empty.
  etransitivity; [apply filter_length_le|]. reflexivity.
Qed.

Lemma count_filled_full g : full g -> count_filled g = 81.
Proof.
  intros H. unfold count_filled.
  rewrite forallb_filter_id; [reflexivity|].
  apply forallb_cells. intros r c Hr Hc. simpl.
  apply negb_true_iff, Z.eqb_neq. now apply H.
Qed.

(** Clearing one cell lowers the number of filled cells by at most one. *)
Lemma count_filled_clear g r c :
  count_filled g <= S (count_filled (put g r c 0%Z)).
Proof.
  unfold count_filled.
  apply filter_length_but_one with (x := (r, c)).
  - intros [a b] [a' b']. destruct (Nat.eq_dec a a'), (Nat.eq_dec b b');
      [left; congruence | right; congruence ..].
  - apply all_cells_NoDup.
  - intros [r' c'] _ Hne. simpl. rewrite get_put_neq; auto.
Qed.

(** ** Shuffling *)

Section Shuffle.
Context {A : Type} (dec : forall a b : A, {a = b} + {a <> b}) (d : A).

Lemma count_occ_upd (l : list A) i v x :
  i < List.length l ->
  count_occ dec (upd l i v) x + (if dec (nth i l d) x then 1 else 0) =
  count_occ dec l x + (if dec v x then 1 else 0).
Proof.
  revert i; induction l as [|a t IH]; intros [|i] H; simpl in *; try lia.
  - destruct (dec v x), (dec a x); lia.
  - specialize (IH i ltac:(lia)). destruct (dec a x); lia.
Qed.

Lemma swap_Permutation (l : list A) i j :
  i < List.length l -> j < List.length l -> Permutation (swap d l i j) l.
Proof.
  intros Hi Hj. apply (Permutation_count_occ dec). intros x. unfold swap.
  pose proof (count_occ_upd l i (nth j l d) x Hi) as H1.
  assert (Hj' : j < List.length (upd l i (nth j l d))) by now rewrite length_upd.
  pose proof (count_occ_upd (upd l i (nth j l d)) j (nth i l d) x Hj') as H2.
  assert (E : nth j (upd l i (nth j l d)) d = nth j l d).
  { rewrite nth_upd by assumption. now destruct (Nat.eq_dec i j). }
  rewrite E in H2. lia.
Qed.
End Shuffle.

Lemma map_nth_seq {A} (l : list A) d :
  map (fun i => nth i l d) (seq 0 (List.length l)) = l.
Proof.
  apply (nth_ext _ _ d d).
  - now rewrite length_map, length_seq.
  - intros n Hn. rewrite length_map, length_seq in Hn.
    rewrite (nth_indep _ d (nth 0 l d)) by (now rewrite length_map, length_seq).
    rewrite (map_nth (fun i => nth i l d) (seq 0 (List.length l)) 0 n).
    now rewrite seq_nth.
Qed.

(** ** Reasoning about runs *)

Lemma outcome_inv {A} (r : option (A * world)) (a : A) :
  outcome r = Some a -> exists w', r = Some (a, w').
Proof.
  destruct r as [[a0 w0]|]; [|discriminate].
  intros E. inversion E. now exists w0.
Qed.

Lemma returns_ret {A} (a : A) w (Q : A -> world -> Prop) :
  Q a w -> returns (ret a) w Q.
Proof. intros H. exists a, w. auto. Qed.

Lemma returns_bind {A B} (m : M A) (k : A -> M B) w (Q : B -> world -> Prop) :
  returns m w (fun a w1 => returns (k a) w1 Q) -> returns (bind m k) w Q.
Proof.
  intros [a [w1 [E [b [w2 [E2 HQ]]]]]]. exists b, w2. split; auto.
  unfold bind. now rewrite E.
Qed.

Lemma returns_weaken {A} (m : M A) w (Q Q' : A -> world -> Prop) :
  returns m w Q -> (forall a w', Q a w' -> Q' a w') -> returns m w Q'.
Proof. intros [a [w' [E HQ]]] H. exists a, w'. auto. Qed.

Lemma returns_rand w (Q : BinNums.N -> world -> Prop) :
  Q (randoms w (drawn w)) (mkWorld (randoms w) (N.succ (drawn w)) (history w)) ->
  returns rand w Q.
Proof. intros H. eexists _, _. split; [reflexivity|exact H]. Qed.

Lemma returns_write g r c v w (Q : grid -> world -> Prop) :
  Q (put g r c v) (mkWorld (randoms w) (drawn w) (put g r c v :: history w)) ->
  returns (write g r c v) w Q.
Proof. intros H. eexists _, _. split; [reflexivity|exact H]. Qed.

Lemma logged_refl P w w' : history w' = history w -> logged P w w'.
Proof. intros E. exists []. split; auto. Qed.

Lemma logged_trans P w1 w2 w3 :
  logged P w1 w2 -> logged P w2 w3 -> logged P w1 w3.
Proof.
  intros [n1 [E1 F1]] [n2 [E2 F2]]. exists (n2 ++ n1). split.
  - now rewrite E2, E1, app_assoc.
  - apply Forall_app; auto.
Qed.

Lemma logged_write (P : grid -> Prop) w g' :
  P g' -> logged P w (mkWorld (randoms w) (drawn w) (g' :: history w)).
Proof. intros H. exists [g']. split; auto. Qed.

Lemma shuffle_loop_spec {A} (dec : forall a b : A, {a = b} + {a <> b})
      (d : A) todo : forall a w,
  (forall i, In i todo -> i < List.length a) ->
  returns (shuffle_loop d todo a) w
          (fun a' w' => Permutation a a' /\ history w' = history w).
Proof.
  induction todo as [|i rest IH]; intros a w Hin; cbn [shuffle_loop].
  - apply returns_ret. auto.
  - apply returns_bind, returns_rand.
    assert (Hi : i < List.length a) by (apply Hin; now left).
    set (j := N.to_nat (N.modulo (randoms w (drawn w)) (N.of_nat (i + 1)))).
    assert (Hj : j < List.length a).
    { pose proof (N.mod_upper_bound (randoms w (drawn w)) (N.of_nat (i + 1))).
      unfold j. lia. }
    pose proof (swap_Permutation dec d a i _ Hi Hj) as HP.
    eapply returns_weaken.
    + apply IH. intros k Hk. rewrite (Permutation_length HP). apply Hin. now right.
    + simpl. intros a' w' [HP' E]. split; auto.
      transitivity (swap d a i j); auto.
      now symmetry.
Qed.

Lemma shuffledDigits_spec w :
  returns shuffledDigits w
          (fun order w' => Permutation digits order /\ history w' = history w).
Proof.
  unfold shuffledDigits.
  change (map (fun i => Z.of_nat (i + 1)) (seq 0 9)) with digits.
  apply (shuffle_loop_spec Z.eq_dec).
  intros i Hi. unfold downfrom in Hi. apply in_rev, in_seq in Hi. simpl. lia.
Qed.

Lemma digits_of_perm order : Permutation digits order -> digits_of order = order.
Proof.
  intros H. apply Permutation_length in H. simpl in H.
  unfold digits_of. rewrite H. apply map_nth_seq.
Qed.

(** ** The backtracking search *)

Ltac conjs := repeat match goal with |- _ /\ _ => split end.

Lemma logged_weaken (P Q : grid -> Prop) w w' :
  (forall x, P x -> Q x) -> logged P w w' -> logged Q w w'.
Proof.
  intros H [new [E F]]. exists new. split; auto.
  eapply Forall_impl; eauto.
Qed.

Lemma agrees_trans g1 g2 g3 : agrees g1 g2 -> agrees g2 g3 -> agrees g1 g3.
Proof.
  intros H12 H23 r c Hr Hc Hnz.
  pose proof (H12 r c Hr Hc Hnz) as E.
  rewrite <- E. apply H23; auto. congruence.
Qed.

Lemma agrees_put_empty g r c d :
  wf g -> r < 9 -> c < 9 -> get g r c = 0%Z -> agrees g (put g r c d).
Proof.
  intros Hwf Hr Hc Hz r' c' Hr' Hc' Hnz. rewrite get_put by assumption.
  destruct (Nat.eq_dec r r') as [<-|N1];
    [destruct (Nat.eq_dec c c') as [<-|N1]|]; auto. congruence.
Qed.

Section TryDigits.
Variable rec : grid -> M (bool * grid).
Variable n : nat.
Variables row col : nat.
Hypothesis Hrow : row < 9.
Hypothesis Hcol : col < 9.
Hypothesis Hrec : forall g1 w1,
  wf g1 -> count_empty g1 < n -> returns (rec g1) w1 (solve_post g1 w1).

Lemma try_digits_spec nums : forall g w,
  wf g -> get g row col = 0%Z -> count_empty g <= n ->
  (forall d, In d nums -> (1 <= d <= 9)%Z) ->
  returns (try_digits rec row col nums g) w
    (fun res w' =>
       wf (snd res) /\
       (fst res = false -> snd res = g) /\
       (fst res = true -> full (snd res) /\ agrees g (snd res)) /\
       (fst res = false ->
        forall h, completion g h -> ~ In (get h row col) nums) /\
       (in_range g -> in_range (snd res)) /\
       (no_dup g -> no_dup (snd res) /\ logged no_dup w w') /\
       logged (agrees g) w w').
Proof.
  induction nums as [|num rest IH]; intros g w Hwf Hz Hn Hnums;
    cbn [try_digits].
  - apply returns_ret. simpl. conjs; auto; try discriminate.
    + intros ND. split; auto. now apply logged_refl.
    + now apply logged_refl.
  - assert (Hnum : (1 <= num <= 9)%Z) by (apply Hnums; now left).
    assert (Hrest : forall d, In d rest -> (1 <= d <= 9)%Z)
      by (intros d Hd; apply Hnums; now right).
    assert (Ag1 : agrees g (put g row col num))
      by now apply agrees_put_empty.
    destruct (isSafe g row col num) eqn:Hs.
    + apply returns_bind, returns_write, returns_bind.
      set (w1 := mkWorld (randoms w) (drawn w) (put g row col num :: history w)).
      eapply returns_weaken.
      { apply Hrec; [now apply wf_put|].
        pose proof (count_empty_put g row col num Hwf Hrow Hcol Hz). lia. }
      intros [b g2] w2 (Hwf2 & Hfalse & Htrue & Hcomp & Hrange & Hnd & Hag).
      simpl in *.
      assert (Hag2 : logged (agrees g) w w2).
      { eapply logged_trans; [now apply (logged_write (agrees g) w _ Ag1)|].
        apply (logged_weaken (agrees (put g row col num))); auto.
        intros x. now apply agrees_trans. }
      destruct b.
      * apply returns_ret. simpl. split; [assumption|].
        split; [discriminate|]. split.
        { intros _. destruct (Htrue eq_refl) as [F Ag]. split; auto.
          apply (agrees_of_put g g2 row col num); auto. }
        split; [discriminate|]. split.
        { intros R. apply Hrange, in_range_put; auto. lia. }
        split; [|assumption].
        intros ND.
        assert (ND1 : no_dup (put g row col num))
          by now apply no_dup_put_safe.
        destruct (Hnd ND1) as [ND2 L2]. split; auto.
        eapply logged_trans; [|exact L2]. now apply logged_write.
      * rewrite (Hfalse eq_refl).
        apply returns_bind, returns_write. unfold UNASSIGNED.
        assert (Eback : put (put g row col num) row col 0%Z = g).
        { rewrite <- Hz at 1. apply put_put_back. }
        rewrite Eback.
        eapply returns_weaken; [apply (IH g); auto|].
        intros [b g'] w' (Hwf' & Hf' & Ht' & Hc' & Hr' & Hn' & Ha').
        simpl in *.
        split; [assumption|]. split; [assumption|]. split; [assumption|].
        split.
        { intros Eb h Hh [Ein|Hin].
          - apply (Hcomp eq_refl h). rewrite Ein.
            now apply completion_put.
          - now apply (Hc' Eb h Hh). }
        split; [assumption|]. split.
        { intros ND.
          assert (ND1 : no_dup (put g row col num))
            by now apply no_dup_put_safe.
          destruct (Hnd ND1) as [_ L2]. destruct (Hn' ND) as [ND' L'].
          split; auto.
          eapply logged_trans; [now apply (logged_write no_dup w _ ND1)|].
          eapply logged_trans; [exact L2|].
          eapply logged_trans; [|exact L'].
          now apply (logged_write no_dup w2). }
        eapply logged_trans; [exact Hag2|].
        eapply logged_trans; [|exact Ha'].
        apply (logged_write (agrees g) w2). apply agrees_refl.
    + eapply returns_weaken; [apply (IH g); auto|].
      intros [b g'] w' (Hwf' & Hf' & Ht' & Hc' & Hr' & Hn' & Ha').
      simpl in *.
      split; [assumption|]. split; [assumption|]. split; [assumption|].
      split; [|split; [assumption|split; assumption]].
      intros Eb h Hh [Ein|Hin].
      * pose proof (completion_safe g h row col Hh Hrow Hcol Hz) as X.
        rewrite <- Ein in X. congruence.
      * now apply (Hc' Eb h Hh).
Qed.
End TryDigits.

Lemma solveSudoku_spec fuel : forall g w,
  wf g -> count_empty g < fuel ->
  returns (solveSudoku fuel g) w (solve_post g w).
Proof.
  induction fuel as [|fuel IH]; intros g w Hwf Hfuel; [lia|].
  cbn [solveSudoku].
  destruct (findUnassigned g) as [[row col]|] eqn:Hfind.
  - destruct (findUnassigned_some _ _ _ Hfind) as (Hrow & Hcol & Hz).
    apply returns_bind.
    eapply returns_weaken; [apply shuffledDigits_spec|].
    intros order w1 [HP Ehist]. cbv beta. rewrite (digits_of_perm _ HP).
    eapply returns_weaken.
    { apply (try_digits_spec (solveSudoku fuel) fuel row col Hrow Hcol IH);
        auto; [lia|].
      intros d Hd. apply in_digits. eapply Permutation_in; [|exact Hd].
      now symmetry. }
    intros [b g'] w' (Hwf' & Hf' & Ht' & Hc' & Hr' & Hn' & Ha'). simpl in *.
    unfold solve_post. simpl.
    split; [assumption|]. split; [assumption|]. split; [assumption|].
    split; [|split; [assumption|split]].
    + intros Eb h Hh. apply (Hc' Eb h Hh).
      apply (Permutation_in _ HP), in_digits.
      now apply (completion_digit g).
    + intros ND. destruct (Hn' ND) as [ND' L']. split; auto.
      eapply logged_trans; [|exact L']. now apply logged_refl.
    + eapply logged_trans; [|exact Ha']. now apply logged_refl.
  - apply returns_ret. unfold solve_post. simpl.
    split; [assumption|]. split; [discriminate|].
    split; [intros _; split; [now apply findUnassigned_none|apply agrees_refl]|].
    split; [discriminate|]. split; [auto|]. split.
    + intros ND. split; auto. now apply logged_refl.
    + now apply logged_refl.
Qed.

(** [fillGrid] is the same search as [solveSudoku]: the two bodies
    coincide. *)
Lemma fillGrid_solveSudoku fuel g w :
  fillGrid fuel g w = solveSudoku fuel g w.
Proof. reflexivity. Qed.

Lemma fillGrid_spec fuel g w :
  wf g -> count_empty g < fuel ->
  returns (fillGrid fuel g) w (solve_post g w).
Proof.
  intros Hwf Hfuel. unfold returns. rewrite fillGrid_solveSudoku.
  now apply solveSudoku_spec.
Qed.

(** ** Counting completions *)

Lemma enumerates_put g L row col d :
  wf g -> row < 9 -> col < 9 -> get g row col = 0%Z -> d <> 0%Z ->
  enumerates g L -> enumerates (put g row col d) (holding row col d L).
Proof.
  intros Hwf Hr Hc Hz Hd [ND HL]. split.
  - now apply NoDup_filter.
  - intros h. unfold holding. rewrite filter_In, HL, Z.eqb_eq. split.
    + intros [Hh E]. rewrite <- E. now apply completion_put.
    + intros Hh. now apply (completion_of_put g h row col d).
Qed.

Lemma enumerates_unsafe g L row col d :
  row < 9 -> col < 9 -> get g row col = 0%Z ->
  enumerates g L -> isSafe g row col d = false -> holding row col d L = [].
Proof.
  intros Hr Hc Hz [_ HL] Hs. unfold holding.
  destruct (filter _ L) as [|h t] eqn:E; auto. exfalso.
  assert (Hin : In h (filter (fun h => Z.eqb (get h row col) d) L))
    by (rewrite E; now left).
  apply filter_In in Hin. destruct Hin as [Hin Hd].
  apply Z.eqb_eq in Hd. apply HL in Hin.
  pose proof (completion_safe g h row col Hin Hr Hc Hz). congruence.
Qed.

(** A full valid grid has itself as only completion. *)
Lemma enumerates_full g L :
  wf g -> full g -> in_range g -> no_dup g -> enumerates g L ->
  List.length L = 1.
Proof.
  intros Hwf Hf Hr Hn [ND HL].
  assert (Hg : In g L).
  { apply HL, completion_self; auto. now apply full_valid_solved. }
  assert (Hall : forall h, In h L -> h = g).
  { intros h Hh. apply HL in Hh. now apply completion_full. }
  destruct L as [|a [|b t]]; simpl in *; [tauto|reflexivity|].
  exfalso. rewrite (Hall a), (Hall b) in ND by auto.
  inversion ND as [|? ? Hnin _]. apply Hnin. now left.
Qed.

Lemma holding_any_digits row col L :
  (forall h, In h L -> (1 <= get h row col <= 9)%Z) ->
  holding_any row col L digits = List.length L.
Proof.
  unfold holding_any, holding, digits.
  induction L as [|h t IH]; intros H; [reflexivity|].
  specialize (IH (fun h' Hh' => H h' (or_intror Hh'))).
  specialize (H h (or_introl eq_refl)).
  cbn [map list_sum filter] in *.
  assert (D : (get h row col = 1 \/ get h row col = 2 \/ get h row col = 3 \/
               get h row col = 4 \/ get h row col = 5 \/ get h row col = 6 \/
               get h row col = 7 \/ get h row col = 8 \/ get h row col = 9)%Z)
    by lia.
  destruct D as [D|[D|[D|[D|[D|[D|[D|[D|D]]]]]]]];
    rewrite D; cbn [Z.eqb Pos.eqb List.length];
    unfold list_sum in *; cbn [fold_right] in *; lia.
Qed.

Lemma holding_any_perm row col L nums nums' :
  Permutation nums nums' ->
  holding_any row col L nums = holding_any row col L nums'.
Proof.
  intros H. unfold holding_any.
  apply Permutation_list_sum, Permutation_map, H.
Qed.

Section CountDigits.
Variable rec : grid -> Z -> M (grid * Z).
Variable limit : Z.
Variable n : nat.
Variables row col : nat.
Hypothesis Hrow : row < 9.
Hypothesis Hcol : col < 9.
Hypothesis Hrec : forall g1 c1 w1,
  wf g1 -> count_empty g1 < n ->
  returns (rec g1 c1) w1 (count_post g1 c1 limit w1).

Lemma count_digits_spec nums : forall g c w,
  wf g -> get g row col = 0%Z -> count_empty g <= n ->
  (forall d, In d nums -> (1 <= d <= 9)%Z) ->
  returns (count_digits rec limit row col nums g c) w
    (fun res w' =>
       fst res = g /\
       (c <= snd res <= Z.max c limit)%Z /\
       (forall L, (c <= limit)%Z -> in_range g -> no_dup g ->
          enumerates g L ->
          snd res =
          Z.min (c + Z.of_nat (holding_any row col L nums)) limit) /\
       (no_dup g -> logged no_dup w w')).
Proof.
  induction nums as [|num rest IH]; intros g c w Hwf Hz Hn Hnums;
    cbn [count_digits].
  - apply returns_ret. simpl. conjs; auto; try lia.
    intros _. now apply logged_refl.
  - assert (Hnum : (1 <= num <= 9)%Z) by (apply Hnums; now left).
    assert (Hrest : forall d, In d rest -> (1 <= d <= 9)%Z)
      by (intros d Hd; apply Hnums; now right).
    assert (Hsum : forall L, holding_any row col L (num :: rest) =
              List.length (holding row col num L) + holding_any row col L rest)
      by reflexivity.
    destruct (isSafe g row col num) eqn:Hs.
    + apply returns_bind, returns_write, returns_bind.
      set (g1 := put g row col num).
      set (w1 := mkWorld (randoms w) (drawn w) (g1 :: history w)).
      assert (Hwf1 : wf g1) by now apply wf_put.
      assert (Eback : put g1 row col 0%Z = g).
      { unfold g1. rewrite <- Hz at 1. apply put_put_back. }
      eapply returns_weaken.
      { apply Hrec; [assumption|]. unfold g1.
        pose proof (count_empty_put g row col num Hwf Hrow Hcol Hz). lia. }
      intros [g2 c2] w2 (Eg & Hb & HL & Hlog). simpl in Eg, Hb, HL, Hlog.
      subst g2. cbv beta iota.
      assert (Hmin : forall L, (c <= limit)%Z -> in_range g -> no_dup g ->
                enumerates g L ->
                c2 = Z.min (c + Z.of_nat (List.length (holding row col num L)))
                           limit).
      { intros L Hc R ND HE. apply HL; auto.
        - apply in_range_put; auto. lia.
        - now apply no_dup_put_safe.
        - apply enumerates_put; auto. lia. }
      assert (Hlog2 : no_dup g ->
                logged no_dup w (mkWorld (randoms w2) (drawn w2) (g :: history w2))).
      { intros ND.
        assert (ND1 : no_dup g1) by now apply no_dup_put_safe.
        eapply logged_trans; [now apply (logged_write no_dup w g1)|].
        eapply logged_trans; [exact (Hlog ND1)|].
        now apply (logged_write no_dup w2). }
      destruct (Z.geb_spec c2 limit) as [Hge|Hlt].
      * apply returns_bind, returns_write. unfold UNASSIGNED. rewrite Eback.
        apply returns_ret. simpl. conjs; auto; try lia.
        intros L Hc R ND HE. rewrite Hsum, (Hmin L Hc R ND HE).
        pose proof (Hmin L Hc R ND HE). lia.
      * apply returns_bind, returns_write. unfold UNASSIGNED. rewrite Eback.
        eapply returns_weaken; [apply (IH g c2); auto|].
        intros [g' c'] w' (Eg' & Hb' & HL' & Hlog'). simpl in *.
        conjs; auto; try lia.
        { intros L Hc R ND HE. rewrite Hsum.
          pose proof (Hmin L Hc R ND HE).
          rewrite (HL' L) by (auto; lia). lia. }
        { intros ND. eapply logged_trans; [exact (Hlog2 ND)|auto]. }
    + eapply returns_weaken; [apply (IH g c); auto|].
      intros [g' c'] w' (Eg' & Hb' & HL' & Hlog'). simpl in *.
      conjs; auto; try lia.
      intros L Hc R ND HE. rewrite Hsum.
      rewrite (enumerates_unsafe g L row col num Hrow Hcol Hz HE Hs).
      simpl. now apply HL'.
Qed.
End CountDigits.

Lemma countSolutionsDFS_spec limit fuel : forall g c w,
  wf g -> count_empty g < fuel ->
  returns (countSolutionsDFS fuel g c limit) w (count_post g c limit w).
Proof.
  induction fuel as [|fuel IH]; intros g c w Hwf Hfuel; [lia|].
  cbn [countSolutionsDFS].
  destruct (Z.geb_spec c limit) as [Hge|Hlt].
  - apply returns_ret. unfold count_post. simpl. conjs; auto; try lia.
    intros _. now apply logged_refl.
  - destruct (findUnassigned g) as [[row col]|] eqn:Hfind.
    + destruct (findUnassigned_some _ _ _ Hfind) as (Hrow & Hcol & Hz).
      apply returns_bind.
      eapply returns_weaken; [apply shuffledDigits_spec|].
      intros order w1 [HP Ehist]. cbv beta. rewrite (digits_of_perm _ HP).
      eapply returns_weaken.
      { apply (count_digits_spec
                 (fun g1 c1 => countSolutionsDFS fuel g1 c1 limit)
                 limit fuel row col Hrow Hcol); auto; [lia|].
        intros d Hd. apply in_digits. eapply Permutation_in; [|exact Hd].
        now symmetry. }
      intros [g' c'] w' (Eg' & Hb' & HL' & Hlog'). simpl in *.
      unfold count_post. simpl. conjs; auto; try lia.
      * intros L Hc R ND HE. rewrite (HL' L Hc R ND HE).
        rewrite <- (holding_any_perm row col L _ _ HP).
        rewrite holding_any_digits; auto.
        intros h Hh. apply (completion_digit g); auto. now apply HE.
      * intros ND. eapply logged_trans; [|exact (Hlog' ND)].
        now apply logged_refl.
    + apply returns_ret. unfold count_post. simpl. conjs; auto; try lia.
      * intros L Hc R ND HE.
        rewrite (enumerates_full g L Hwf (findUnassigned_none _ Hfind) R ND HE).
        lia.
      * intros _. now apply logged_refl.
Qed.

(** ** The completions of a grid can be listed *)

Lemma enumerates_solved g : wf g -> solved g -> enumerates g [g].
Proof.
  intros Hwf Hs. split.
  - constructor; [simpl; tauto|constructor].
  - intros h. simpl. split.
    + intros [<-|[]]. now apply completion_self.
    + intros Hh. left. symmetry. apply completion_full; auto.
      now apply solved_full.
Qed.

Lemma enumerates_full_invalid g :
  wf g -> full g -> ~ solved g -> enumerates g [].
Proof.
  intros Hwf Hf Hns. split; [constructor|].
  intros h. simpl. split; [tauto|].
  intros Hh. apply Hns. rewrite <- (completion_full g h Hwf Hf Hh).
  now destruct Hh as [_ [Hs _]].
Qed.

Lemma solved_dec g : {solved g} + {~ solved g}.
Proof.
  destruct (fullb g && in_rangeb g && no_dupb g) eqn:E.
  - left. apply andb_true_iff in E. destruct E as [E E3].
    apply andb_true_iff in E. destruct E as [E1 E2].
    apply solved_iff. rewrite <- fullb_correct, <- in_rangeb_correct,
      <- no_dupb_correct. auto.
  - right. intros Hs. apply solved_iff in Hs.
    rewrite <- fullb_correct, <- in_rangeb_correct, <- no_dupb_correct in Hs.
    destruct Hs as [E1 [E2 E3]]. rewrite E1, E2, E3 in E. discriminate.
Qed.

Lemma enumeration_by_digit g r c :
  wf g -> r < 9 -> c < 9 -> get g r c = 0%Z ->
  (forall d, d <> 0%Z -> exists L, enumerates (put g r c d) L) ->
  forall ds, NoDup ds -> (forall d, In d ds -> d <> 0%Z) ->
  exists L, NoDup L /\
            forall h, In h L <-> completion g h /\ In (get h r c) ds.
Proof.
  intros Hwf Hr Hc Hz Hsub ds ND. induction ND as [|d ds Hnin ND IH]; intros Hnz.
  - exists []. split; [constructor|]. simpl. tauto.
  - destruct IH as [L' [ND' HL']]; [intros x Hx; apply Hnz; now right|].
    assert (Hd : d <> 0%Z) by (apply Hnz; now left).
    destruct (Hsub d Hd) as [Ld [NDd HLd]].
    assert (Hchar : forall h, In h Ld <-> completion g h /\ get h r c = d).
    { intros h. rewrite HLd. split.
      - now apply completion_of_put.
      - intros [Hh <-]. now apply completion_put. }
    exists (Ld ++ L'). split.
    + apply NoDup_app; auto.
      intros h H1 H2. apply Hchar in H1. apply HL' in H2.
      destruct H1 as [_ <-]. tauto.
    + intros h. rewrite in_app_iff, Hchar, HL'. simpl. intuition congruence.
Qed.

Lemma enumeration_exists n : forall g,
  wf g -> count_empty g <= n -> exists L, enumerates g L.
Proof.
  induction n as [|n IH]; intros g Hwf Hn;
    (destruct (findUnassigned g) as [[r c]|] eqn:Hfind;
     [destruct (findUnassigned_some _ _ _ Hfind) as (Hr & Hc & Hz)
     |pose proof (findUnassigned_none _ Hfind) as Hf;
      destruct (solved_dec g) as [Hs|Hs];
      [exists [g]; now apply enumerates_solved
      |exists []; now apply enumerates_full_invalid]]).
  - pose proof (count_empty_put g r c 1%Z Hwf Hr Hc Hz). lia.
  - destruct (enumeration_by_digit g r c Hwf Hr Hc Hz) with (ds := digits)
      as [L [ND HL]].
    + intros d Hd. apply IH; [now apply wf_put|].
      pose proof (count_empty_put g r c d Hwf Hr Hc Hz Hd). lia.
    + apply digits_NoDup.
    + intros d Hd. apply in_digits in Hd. lia.
    + exists L. split; auto. intros h. rewrite HL. split; [tauto|].
      intros Hh. split; auto. apply in_digits. now apply (completion_digit g).
Qed.

(** ** Copying and clearing a grid *)

Lemma fill_row_spec f r cols : forall d,
  wf d -> r < 9 -> (forall c, In c cols -> c < 9) ->
  let d' := fold_left (fun d' c => put d' r c (f r c)) cols d in
  wf d' /\
  (forall c, In c cols -> get d' r c = f r c) /\
  (forall r' c, (r' <> r \/ ~ In c cols) -> get d' r' c = get d r' c).
Proof.
  induction cols as [|k rest IH]; intros d Hwf Hr Hcols; cbn [fold_left].
  - simpl. conjs; auto. tauto.
  - assert (Hk : k < 9) by (apply Hcols; now left).
    destruct (IH (put d r k (f r k)) (wf_put _ _ _ _ Hwf) Hr
                 (fun c Hc => Hcols c (or_intror Hc))) as (W & A & B).
    cbv zeta. conjs; auto.
    + intros c [<-|Hc]; [|now apply A].
      destruct (in_dec Nat.eq_dec k rest) as [Hin|Hnin]; [now apply A|].
      rewrite B by auto. now apply get_put_eq.
    + intros r' c Hout. rewrite B by (simpl in Hout; tauto).
      apply get_put_neq. simpl in Hout. intros E; inversion E; subst. tauto.
Qed.

Lemma fill_rows_spec f rows : forall d,
  wf d -> (forall r, In r rows -> r < 9) ->
  let d' := fold_left (fun d r =>
              fold_left (fun d' c => put d' r c (f r c)) (seq 0 N) d) rows d in
  wf d' /\
  (forall r c, In r rows -> c < 9 -> get d' r c = f r c) /\
  (forall r c, ~ In r rows -> get d' r c = get d r c).
Proof.
  induction rows as [|k rest IH]; intros d Hwf Hrows; cbn [fold_left].
  - simpl. conjs; auto. tauto.
  - assert (Hk : k < 9) by (apply Hrows; now left).
    destruct (fill_row_spec f k (seq 0 N) d Hwf Hk) as (W1 & A1 & B1).
    { intros c Hc. apply in_seq in Hc. unfold N in Hc. lia. }
    cbv zeta in W1, A1, B1.
    destruct (IH _ W1 (fun r Hr => Hrows r (or_intror Hr))) as (W & A & B).
    cbv zeta. conjs; auto.
    + intros r c [<-|Hr] Hc; [|now apply A].
      destruct (in_dec Nat.eq_dec k rest) as [Hin|Hnin]; [now apply A|].
      rewrite B by auto. apply A1. apply in_seq. unfold N. lia.
    + intros r c Hout. rewrite B by (simpl in Hout; tauto).
      apply B1. left. simpl in Hout. intros E; subst. tauto.
Qed.

(** The copy loops leave an exact copy of a 9x9 source. *)
Lemma copy_cells_exact src dst : wf src -> wf dst -> copy_cells src dst = src.
Proof.
  intros Hs Hd. unfold copy_cells.
  destruct (fill_rows_spec (get src) (seq 0 N) dst Hd) as (W & A & _).
  { intros r Hr. apply in_seq in Hr. unfold N in Hr. lia. }
  cbv zeta in W, A.
  apply grid_ext; [assumption|assumption|].
  intros r c Hr Hc. apply A; auto. apply in_seq. unfold N. lia.
Qed.

Lemma local_array_wf : wf local_array.
Proof. apply wfb_correct. reflexivity. Qed.

Lemma zero_grid_wf : wf zero_grid.
Proof. apply wfb_correct. reflexivity. Qed.

Lemma zero_grid_get r c : r < 9 -> c < 9 -> get zero_grid r c = 0%Z.
Proof.
  intros Hr Hc. revert c Hc. enum9 r Hr; intros c Hc; enum9 c Hc; reflexivity.
Qed.

(** The clearing loops leave the all-zero grid. *)
Lemma clear_cells_zero out : wf out -> clear_cells out = zero_grid.
Proof.
  intros Hwf. unfold clear_cells, UNASSIGNED.
  destruct (fill_rows_spec (fun _ _ => 0%Z) (seq 0 N) out Hwf) as (W & A & _).
  { intros r Hr. apply in_seq in Hr. unfold N in Hr. lia. }
  cbv zeta in W, A.
  apply grid_ext; [assumption|apply zero_grid_wf|].
  intros r c Hr Hc. rewrite zero_grid_get by assumption.
  apply A; auto. apply in_seq. unfold N. lia.
Qed.

(** ** [countSolutions] *)

Lemma countSolutions_spec fuel g limit w :
  wf g -> count_empty g < fuel ->
  returns (countSolutions fuel g limit) w
    (fun res w' =>
       fst res = g /\
       (0 <= snd res <= Z.max 0 limit)%Z /\
       (forall L, (0 <= limit)%Z -> in_range g -> no_dup g -> enumerates g L ->
          snd res = Z.min (Z.of_nat (List.length L)) limit) /\
       (no_dup g -> logged no_dup w w')).
Proof.
  intros Hwf Hfuel. unfold countSolutions. cbv zeta.
  rewrite (copy_cells_exact g local_array Hwf local_array_wf).
  apply returns_bind.
  eapply returns_weaken; [now apply countSolutionsDFS_spec|].
  intros [g' c'] w' (Eg & Hb & HL & Hlog). simpl in *.
  apply returns_ret. simpl. conjs; auto; lia.
Qed.

(** ** Carving *)

Lemma agrees_put_zero g h r c :
  wf g -> r < 9 -> c < 9 -> agrees g h -> agrees (put g r c 0%Z) h.
Proof.
  intros Hwf Hr Hc Ha r' c' Hr' Hc'. rewrite get_put by assumption.
  destruct (Nat.eq_dec r r') as [<-|N1];
    [destruct (Nat.eq_dec c c') as [<-|N1]|]; auto. congruence.
Qed.

Lemma carved_solution sol : wf sol -> solved sol -> carved sol sol.
Proof.
  intros Hwf Hs. split; [assumption|].
  split; [now apply solved_in_range|].
  split; [now apply solved_no_dup|]. now apply enumerates_solved.
Qed.

Lemma carved_completion sol g : carved sol g -> completion g sol.
Proof. intros (_ & _ & _ & [_ HL]). apply HL. now left. Qed.

Section Carve.
Variable fuel : nat.
Variable cells : list nat.
Variable toRemove : Z.
Variable sol : grid.
Hypothesis Hfuel : 81 < fuel.
Hypothesis Hcells : forall i, nth i cells 0 < 81.

Lemma carve_loop_spec idxs : forall g removed w,
  carved sol g ->
  returns (carve_loop fuel cells toRemove idxs g removed) w
    (fun res w' =>
       carved sol (fst res) /\
       (removed <= snd res <= Z.max removed toRemove)%Z /\
       (Z.of_nat (count_filled g) <=
        Z.of_nat (count_filled (fst res)) + (snd res - removed))%Z).
Proof.
  induction idxs as [|idx rest IH]; intros g removed w Hinv;
    cbn [carve_loop].
  - apply returns_ret. simpl. conjs; auto; lia.
  - destruct (Z.ltb_spec removed toRemove) as [Hlt|Hge];
      [|apply returns_ret; simpl; conjs; auto; lia].
    cbv zeta. set (pos := nth idx cells 0).
    assert (Hpos : pos < 81) by apply Hcells.
    assert (Hr : pos / 9 < 9) by (apply Nat.Div0.div_lt_upper_bound; lia).
    assert (Hc : pos mod 9 < 9) by (apply Nat.mod_upper_bound; lia).
    set (r := pos / 9) in *. set (c := pos mod 9) in *.
    unfold UNASSIGNED.
    destruct (Z.eqb_spec (get g r c) 0) as [Hz|Hnz].
    + eapply returns_weaken; [apply (IH g removed w Hinv)|].
      intros [g' rem'] w' H. exact H.
    + destruct Hinv as (Hwf & Hrange & Hnd & Henum).
      set (g1 := put g r c 0%Z).
      assert (Hwf1 : wf g1) by now apply wf_put.
      assert (Hrange1 : in_range g1) by (apply in_range_put; auto; lia).
      assert (Hnd1 : no_dup g1) by now apply no_dup_put_zero.
      assert (Hfill : count_filled g <= S (count_filled g1))
        by apply count_filled_clear.
      apply returns_bind. eapply returns_weaken.
      { apply countSolutions_spec; [assumption|].
        pose proof (count_empty_le g1). lia. }
      intros [g2 cnt] w2 (Eg & Hb & HL & _). simpl in Eg, Hb, HL. subst g2.
      cbv beta iota.
      destruct (Z.eqb_spec cnt 1) as [Hone|Hnot].
      * assert (Hinv1 : carved sol g1).
        { split; [assumption|]. split; [assumption|]. split; [assumption|].
          destruct (enumeration_exists 81 g1 Hwf1 (count_empty_le g1))
            as [L1 HE1].
          assert (Hlen : List.length L1 = 1).
          { pose proof (HL L1 ltac:(lia) Hrange1 Hnd1 HE1). lia. }
          assert (Hsol : In sol L1).
          { apply HE1.
            destruct (carved_completion sol g (conj Hwf (conj Hrange
                        (conj Hnd Henum)))) as (Hws & Hss & Has).
            split; [assumption|]. split; [assumption|].
            now apply agrees_put_zero. }
          destruct L1 as [|a [|b t]]; simpl in Hlen; try discriminate.
          destruct Hsol as [->|[]]. exact HE1. }
        eapply returns_weaken; [apply (IH g1 (removed + 1)%Z w2 Hinv1)|].
        intros [g' rem'] w' (Hinv' & Hrem & Hcnt). simpl in *.
        conjs; auto; lia.
      * assert (Eback : put g1 r c (get g r c) = g) by apply put_put_back.
        rewrite Eback.
        eapply returns_weaken.
        { apply (IH g removed w2). repeat (split; [assumption|]). assumption. }
        intros [g' rem'] w' H. exact H.
Qed.
End Carve.

Lemma carveUnique_spec fuel sol toRemove w :
  81 < fuel -> wf sol -> solved sol ->
  returns (carveUnique fuel sol toRemove) w
    (fun g' _ =>
       carved sol g' /\
       ((0 <= toRemove)%Z ->
        (81 <= Z.of_nat (count_filled g') + toRemove)%Z)).
Proof.
  intros Hfuel Hwf Hs. unfold carveUnique.
  apply returns_bind. eapply returns_weaken.
  { apply (shuffle_loop_spec Nat.eq_dec 0 (downfrom 80) (seq 0 81)).
    intros i Hi. unfold downfrom in Hi. apply in_rev, in_seq in Hi.
    rewrite length_seq. lia. }
  intros cells w1 [HP _]. cbv beta.
  assert (Hcells : forall i, nth i cells 0 < 81).
  { intros i. destruct (nth_in_or_default i cells 0) as [Hin | ->]; [|lia].
    apply (Permutation_in _ (Permutation_sym HP)), in_seq in Hin. lia. }
  apply returns_bind. eapply returns_weaken.
  { apply (carve_loop_spec fuel cells toRemove sol Hfuel Hcells (seq 0 81)
             sol 0%Z w1). now apply carved_solution. }
  intros [g' rem'] w' (Hinv & Hrem & Hcnt). simpl in *.
  apply returns_ret. split; auto. intros H0.
  rewrite (count_filled_full sol (solved_full _ Hs)) in Hcnt. lia.
Qed.

(** ** Generating *)

Lemma solvedb_correct g : solvedb g = true <-> solved g.
Proof.
  unfold solvedb. rewrite !andb_true_iff, solved_iff,
    fullb_correct, in_rangeb_correct, no_dupb_correct. tauto.
Qed.

Lemma a_solution_wf : wf a_solution.
Proof. apply wfb_correct. reflexivity. Qed.

Lemma a_solution_solved : solved a_solution.
Proof. apply solvedb_correct. vm_compute. reflexivity. Qed.

Lemma zero_grid_completion : completion zero_grid a_solution.
Proof.
  split; [apply a_solution_wf|]. split; [apply a_solution_solved|].
  intros r c Hr Hc Hnz. now rewrite zero_grid_get in Hnz.
Qed.

Lemma zero_grid_in_range : in_range zero_grid.
Proof. apply in_rangeb_correct. vm_compute. reflexivity. Qed.

Lemma zero_grid_no_dup : no_dup zero_grid.
Proof. apply no_dupb_correct. vm_compute. reflexivity. Qed.

Lemma pick_clues_run difficulty w :
  pick_clues difficulty w =
  Some ((fst (clue_range difficulty) + Z.of_N (N.modulo (randoms w (drawn w)) 6))%Z,
        mkWorld (randoms w) (N.succ (drawn w)) (history w)).
Proof.
  unfold pick_clues, clue_range.
  destruct (String.eqb difficulty "easy"); [reflexivity|].
  destruct (String.eqb difficulty "medium"); [reflexivity|].
  destruct (String.eqb difficulty "hard"); reflexivity.
Qed.

Lemma clue_range_width difficulty :
  (snd (clue_range difficulty) = fst (clue_range difficulty) + 5)%Z /\
  (24 <= fst (clue_range difficulty) <= 45)%Z.
Proof.
  unfold clue_range.
  destruct (String.eqb difficulty "easy"); [simpl; lia|].
  destruct (String.eqb difficulty "medium"); [simpl; lia|].
  destruct (String.eqb difficulty "hard"); simpl; lia.
Qed.

(** Filling the empty grid succeeds, whatever the random numbers. *)
Lemma fill_zero_grid fuel w :
  81 < fuel ->
  exists sol w1,
    fillGrid fuel zero_grid w = Some ((true, sol), w1) /\
    wf sol /\ solved sol /\ logged no_dup w w1.
Proof.
  intros Hfuel.
  destruct (fillGrid_spec fuel zero_grid w zero_grid_wf) as [[b sol] [w1 [E P]]].
  { pose proof (count_empty_le zero_grid). lia. }
  destruct P as (Hwf & _ & Ht & Hc & Hr & Hn & _). simpl in *.
  destruct b.
  - exists sol, w1. destruct (Ht eq_refl) as [Hf _].
    destruct (Hn zero_grid_no_dup) as [ND Hlog].
    split; [assumption|]. split; [assumption|]. split; [|assumption].
    apply full_valid_solved; auto. apply Hr, zero_grid_in_range.
  - exfalso. apply (Hc eq_refl a_solution), zero_grid_completion.
Qed.

Lemma generatePuzzle_run fuel out difficulty w :
  wf out -> 81 < fuel ->
  exists sol w1 clues w2 puzzle w3,
    fillGrid fuel zero_grid w = Some ((true, sol), w1) /\
    wf sol /\ solved sol /\
    pick_clues difficulty w1 = Some (clues, w2) /\
    carveUnique fuel sol (81 - clues)%Z w2 = Some (puzzle, w3) /\
    generatePuzzle (S fuel) out difficulty w = Some (puzzle, w3) /\
    carved sol puzzle /\
    (clues <= Z.of_nat (count_filled puzzle))%Z.
Proof.
  intros Hwf Hfuel.
  destruct (fill_zero_grid fuel w Hfuel) as (sol & w1 & E1 & Hws & Hs & _).
  pose proof (pick_clues_run difficulty w1) as E2.
  set (clues := (fst (clue_range difficulty) + Z.of_N (N.modulo (randoms w1 (drawn w1)) 6))%Z)
    in *.
  set (w2 := mkWorld (randoms w1) (N.succ (drawn w1)) (history w1)) in *.
  destruct (carveUnique_spec fuel sol (81 - clues)%Z w2 Hfuel Hws Hs)
    as (puzzle & w3 & E3 & Hcarved & Hcount).
  exists sol, w1, clues, w2, puzzle, w3.
  split; [assumption|]. split; [assumption|]. split; [assumption|].
  split; [assumption|]. split; [assumption|]. split.
  - cbn [generatePuzzle]. cbv zeta. rewrite (clear_cells_zero out Hwf).
    unfold bind. rewrite E1. cbn [negb]. cbv beta iota. rewrite E2. exact E3.
  - split; [assumption|].
    assert (H6 : (N.modulo (randoms w1 (drawn w1)) 6 < 6)%N)
    by (apply N.mod_upper_bound; lia).
    destruct (clue_range_width difficulty) as [_ Hlo].
    assert (0 <= 81 - clues)%Z by (unfold clues; lia).
    specialize (Hcount H). lia.
Qed.

(** ** Which random numbers give which clue target *)

Lemma clues_drawn_run difficulty r :
  clues_drawn difficulty r
  = Some (fst (clue_range difficulty) + Z.of_N (N.modulo r 6))%Z.
Proof. unfold clues_drawn. rewrite pick_clues_run. reflexivity. Qed.

(** Of the values [0, ..., rand_max], those with remainder [k] modulo 6
    give the target [low + k]; there are [(rand_max + 6 - k) / 6] of
    them. *)
Lemma residue_count difficulty (rand_max k : BinNums.N) :
  (k < 6)%N -> (k <= rand_max)%N ->
  drawn_by difficulty rand_max (fst (clue_range difficulty) + Z.of_N k)%Z
           ((rand_max + 6 - k) / 6)%N.
Proof.
  intros Hk Hle. exists (fun i => 6 * i + k)%N. split.
  - intros i j _ _ E. lia.
  - intros r. rewrite clues_drawn_run.
    pose proof (N.div_mod' (rand_max + 6 - k) 6) as D.
    pose proof (N.mod_lt (rand_max + 6 - k) 6 ltac:(lia)) as L.
    revert D L.
    generalize ((rand_max + 6 - k) / 6)%N, ((rand_max + 6 - k) mod 6)%N.
    intros q m D L.
    pose proof (N.div_mod' r 6) as Dr.
    pose proof (N.mod_lt r 6 ltac:(lia)) as Lr.
    split.
    + intros [Hr E]. exists (r / 6)%N.
      assert (Em : (r mod 6 = k)%N) by (injection E; lia).
      rewrite Em in Dr. split; lia.
    + intros (i & Hi & ->). split; [lia|].
      assert (Em : ((6 * i + k) mod 6 = k)%N).
      { symmetry. apply (N.mod_unique _ _ i); [assumption|reflexivity]. }
      rewrite Em. reflexivity.
Qed.

(** The summary of a run names its parts. *)
Lemma clues_of_run_inv filled pick generated clues n :
  clues_of_run filled pick generated = Some (clues, n) ->
  exists b w1 w2 puzzle w',
    filled = Some (b, w1) /\ pick w1 = Some (clues, w2) /\
    generated = Some (puzzle, w') /\ count_filled puzzle = n.
Proof.
  unfold clues_of_run.
  destruct filled as [[b w1]|]; [|discriminate].
  destruct (pick w1) as [[c w2]|] eqn:E2; [|discriminate].
  destruct generated as [[puzzle w']|]; [|discriminate].
  intros E. inversion E; subst.
  now exists b, w1, w2, puzzle, w'.
Qed.

(** ** The counter in memory *)

Lemma store_at m a r c v : arrays (store m a r c v) a = put (arrays m a) r c v.
Proof. unfold store. cbn [arrays]. now rewrite Nat.eqb_refl. Qed.

Lemma store_other m a r c v b :
  b <> a -> arrays (store m a r c v) b = arrays m b.
Proof.
  intros Hne. unfold store. cbn [arrays].
  destruct (Nat.eqb_spec b a); [contradiction|reflexivity].
Qed.

Lemma only_at_refl a m : only_at a m m.
Proof.
  split; [reflexivity|]. split; [reflexivity|].
  exists []. split; [reflexivity|constructor].
Qed.

Lemma only_at_trans a m1 m2 m3 :
  only_at a m1 m2 -> only_at a m2 m3 -> only_at a m1 m3.
Proof.
  intros (A1 & T1 & n1 & S1 & F1) (A2 & T2 & n2 & S2 & F2).
  split; [intros b Hb; now rewrite A2, A1|].
  split; [congruence|].
  exists (n2 ++ n1). split.
  - rewrite S2, S1. apply app_assoc.
  - apply Forall_app. now split.
Qed.

Lemma only_at_store a m r c v : only_at a m (store m a r c v).
Proof.
  split; [intros b Hb; now apply store_other|].
  split; [reflexivity|].
  exists [(a, (r, c), v)]. split; [reflexivity|].
  constructor; [reflexivity|constructor].
Qed.

Section DigitsInMemory.
Variable rec_v : grid -> Z -> M (grid * Z).
Variable rec_m : memory -> Z -> M (memory * Z).
Variables (limit : Z) (g : addr) (row col : nat).

Hypothesis rec_sim : forall m count w g' c' w',
  rec_v (arrays m g) count w = Some ((g', c'), w') ->
  exists m', rec_m m count w = Some ((m', c'), w') /\
             arrays m' g = g' /\ only_at g m m'.

(** The loop over the digits does in memory, at the address [g], what
    it does to the grid found there. *)
Lemma count_digits_in_memory nums : forall m count w g' c' w',
  count_digits rec_v limit row col nums (arrays m g) count w
  = Some ((g', c'), w') ->
  exists m',
    InMemory.count_digits rec_m limit g row col nums m count w
    = Some ((m', c'), w') /\
    arrays m' g = g' /\ only_at g m m'.
Proof.
  induction nums as [|num rest IH]; intros m count w g' c' w' E.
  - cbn [count_digits InMemory.count_digits] in *. unfold ret in *.
    inversion E; subst. exists m.
    split; [reflexivity|]. split; [reflexivity|apply only_at_refl].
  - cbn [count_digits InMemory.count_digits] in *.
    destruct (isSafe (arrays m g) row col num); [|now apply IH].
    unfold bind, write, InMemory.write in *. cbv zeta in *.
    rewrite store_at.
    rewrite <- (store_at m g row col num) in E at 1.
    destruct (rec_v (arrays (store m g row col num) g) count _)
      as [[[g2 c2] w2]|] eqn:E1; [|discriminate].
    destruct (rec_sim _ _ _ _ _ _ E1) as (m2 & R & A2 & O2).
    rewrite R. subst g2.
    pose proof (only_at_trans _ _ _ _ (only_at_store g m row col num) O2) as O.
    destruct (Z.geb c2 limit).
    + unfold ret in *. rewrite store_at. inversion E; subst.
      exists (store m2 g row col UNASSIGNED).
      split; [reflexivity|]. split; [apply store_at|].
      apply (only_at_trans _ _ _ _ O). apply only_at_store.
    + rewrite store_at.
      rewrite <- (store_at m2 g row col UNASSIGNED) in E at 1.
      destruct (IH _ _ _ _ _ _ E) as (m' & R' & A' & O').
      exists m'. split; [assumption|]. split; [assumption|].
      apply (only_at_trans _ _ _ _ O).
      apply (only_at_trans _ _ _ _ (only_at_store g m2 row col UNASSIGNED) O').
Qed.
End DigitsInMemory.

(** The counting search at an address does to the array found there
    what [countSolutionsDFS] does to the grid, with the same count and
    the same random numbers, and assigns to no other array. *)
Lemma countSolutionsDFS_in_memory fuel : forall g limit m count w g' c' w',
  countSolutionsDFS fuel (arrays m g) count limit w = Some ((g', c'), w') ->
  exists m',
    InMemory.countSolutionsDFS fuel g count limit m w = Some ((m', c'), w') /\
    arrays m' g = g' /\ only_at g m m'.
Proof.
  induction fuel as [|fuel IH]; intros g limit m count w g' c' w' E;
    [discriminate|].
  cbn [countSolutionsDFS InMemory.countSolutionsDFS] in *.
  destruct (Z.geb count limit).
  { unfold ret in *. inversion E; subst. exists m.
    split; [reflexivity|]. split; [reflexivity|apply only_at_refl]. }
  destruct (findUnassigned (arrays m g)) as [[row col]|].
  - unfold bind in *.
    destruct (shuffledDigits w) as [[order w1]|]; [|discriminate].
    apply (count_digits_in_memory
             (fun g1 c1 => countSolutionsDFS fuel g1 c1 limit)); [|exact E].
    intros m1 c1 w2 g2 c2 w3 E2. now apply IH.
  - unfold ret in *. inversion E; subst. exists m.
    split; [reflexivity|]. split; [reflexivity|apply only_at_refl].
Qed.

Lemma copy_row_in_memory src dst r cols : src <> dst -> forall m,
  let m' := fold_left (fun m2 c => store m2 dst r c (get (arrays m2 src) r c))
                      cols m in
  arrays m' dst
  = fold_left (fun d c => put d r c (get (arrays m src) r c)) cols (arrays m dst) /\
  (forall b, b <> dst -> arrays m' b = arrays m b) /\
  top m' = top m /\
  stores m'
  = rev (map (fun c => (dst, (r, c), get (arrays m src) r c)) cols) ++ stores m.
Proof.
  intros Hne. induction cols as [|c cols IH]; intros m; cbn [fold_left map rev].
  - repeat split.
  - specialize (IH (store m dst r c (get (arrays m src) r c))).
    cbv zeta in IH. destruct IH as (A & B & T & S).
    rewrite store_at, (store_other _ _ _ _ _ _ Hne) in A.
    rewrite (store_other _ _ _ _ _ _ Hne) in S.
    split; [exact A|].
    split; [intros b Hb; rewrite (B b Hb); now apply store_other|].
    split; [exact T|].
    rewrite S, <- app_assoc. reflexivity.
Qed.

Lemma copy_rows_in_memory src dst cols rows : src <> dst -> forall m,
  let m' := fold_left (fun m1 r =>
              fold_left (fun m2 c => store m2 dst r c (get (arrays m2 src) r c))
                        cols m1) rows m in
  arrays m' dst
  = fold_left (fun d r =>
      fold_left (fun d' c => put d' r c (get (arrays m src) r c)) cols d)
      rows (arrays m dst) /\
  (forall b, b <> dst -> arrays m' b = arrays m b) /\
  top m' = top m /\
  stores m'
  = rev (flat_map (fun r => map (fun c => (dst, (r, c), get (arrays m src) r c)) cols)
                  rows) ++ stores m.
Proof.
  intros Hne. induction rows as [|r rows IH]; intros m;
    cbn [fold_left flat_map rev].
  - repeat split.
  - destruct (copy_row_in_memory src dst r cols Hne m) as (A1 & B1 & T1 & S1).
    cbv zeta in A1, B1, T1, S1.
    specialize (IH (fold_left (fun m2 c => store m2 dst r c (get (arrays m2 src) r c))
                              cols m)).
    cbv zeta in IH. destruct IH as (A & B & T & S).
    rewrite (B1 src Hne), A1 in A. rewrite (B1 src Hne), S1 in S.
    split; [exact A|].
    split; [intros b Hb; rewrite (B b Hb); now apply B1|].
    split; [congruence|].
    rewrite S, rev_app_distr, <- app_assoc. reflexivity.
Qed.

(** The copy loops assign to the destination only, each of its cells
    once, and leave there what [copy_cells] computes. *)
Lemma copy_cells_in_memory src dst m : src <> dst ->
  arrays (InMemory.copy_cells src dst m) dst
  = copy_cells (arrays m src) (arrays m dst) /\
  (forall b, b <> dst -> arrays (InMemory.copy_cells src dst m) b = arrays m b) /\
  top (InMemory.copy_cells src dst m) = top m /\
  stores (InMemory.copy_cells src dst m)
  = copy_stores (arrays m src) dst ++ stores m.
Proof.
  intros Hne. exact (copy_rows_in_memory src dst (seq 0 N) (seq 0 N) Hne m).
Qed.

(** ** The model on concrete inputs *)

Example findUnassigned_a_puzzle : findUnassigned a_puzzle = Some (0, 2).
Proof. reflexivity. Qed.

Example isSafe_a_puzzle :
  isSafe a_puzzle 0 2 4 = true /\ isSafe a_puzzle 0 2 5 = false /\
  isSafe a_puzzle 0 0 4 = false.
Proof. repeat split; reflexivity. Qed.

Example shuffledDigits_sample :
  outcome (shuffledDigits sample_world) = Some [5; 3; 6; 8; 7; 9; 1; 4; 2]%Z.
Proof. vm_compute. reflexivity. Qed.

Example solveSudoku_a_puzzle :
  outcome (solveSudoku 82 a_puzzle sample_world) = Some (true, a_solution).
Proof. vm_compute. reflexivity. Qed.

(** With a 1 in place of the 4 of the solution the puzzle has no
    completion: the search fails and hands the grid back. *)
Example solveSudoku_dead_end :
  outcome (solveSudoku 82 (put a_puzzle 0 2 1%Z) sample_world)
  = Some (false, put a_puzzle 0 2 1%Z).
Proof. vm_compute. reflexivity. Qed.

Example countSolutions_a_puzzle :
  outcome (countSolutions 82 a_puzzle 2 sample_world) = Some (a_puzzle, 1%Z).
Proof. vm_compute. reflexivity. Qed.

Example countSolutions_one_cell_cleared :
  outcome (countSolutions 82 (put a_solution 4 4 0%Z) 2 sample_world)
  = Some (put a_solution 4 4 0%Z, 1%Z).
Proof. vm_compute. reflexivity. Qed.

Example countSolutions_two_way :
  outcome (countSolutions 82 two_way_grid 2 sample_world)
  = Some (two_way_grid, 2%Z) /\
  outcome (countSolutions 82 two_way_grid 5 sample_world)
  = Some (two_way_grid, 2%Z) /\
  outcome (countSolutions 82 two_way_grid 1 sample_world)
  = Some (two_way_grid, 1%Z).
Proof. repeat split; vm_compute; reflexivity. Qed.

Example fillGrid_sample :
  match outcome (fillGrid 82 zero_grid sample_world) with
  | Some (true, g) => solvedb g
  | _ => false
  end = true.
Proof. vm_compute. reflexivity. Qed.

Example generatePuzzle_sample :
  match outcome (generatePuzzle 83 a_puzzle "easy" sample_world) with
  | Some puzzle =>
      Nat.leb 45 (count_filled puzzle) &&
      match outcome (countSolutions 82 puzzle 2 sample_world) with
      | Some (_, cnt) => Z.eqb cnt 1
      | None => false
      end
  | None => false
  end = true.
Proof. vm_compute. reflexivity. Qed.

(** With "hard" and the random numbers of [stuck_world] the target is
    24 clues, and the carving loop comes to its end with 26 left. *)
Example generatePuzzle_stuck :
  clues_of_run (fillGrid 82 (clear_cells a_puzzle) stuck_world)
               (pick_clues "hard")
               (generatePuzzle 83 a_puzzle "hard" stuck_world)
  = Some (24%Z, 26).
Proof. vm_compute. reflexivity. Qed.

(** The counter called on the array at address 0: the 81 assignments
    of the copy and the 9262 of the search all go to address 1. *)
Example countSolutions_in_memory :
  stores_of_run 0 1 (InMemory.countSolutions 82 0 2 sample_memory sample_world)
  = Some (1%Z, a_puzzle, 9343%Z, true).
Proof. vm_compute. reflexivity. Qed.

(** The search alone, started on the array at address 0, assigns to
    that array, and hands it back restored. *)
Example countSolutionsDFS_in_place :
  stores_of_run 0 1
    (InMemory.countSolutionsDFS 82 0 0 2 sample_memory sample_world)
  = Some (1%Z, a_puzzle, 9262%Z, false).
Proof. vm_compute. reflexivity. Qed.

Lemma agreesb_correct g h : agreesb g h = true <-> agrees g h.
Proof.
  unfold agreesb, agrees, N. rewrite forallb_cells. simpl.
  split; intros H r c Hr Hc.
  - intros Hnz. specialize (H r c Hr Hc).
    apply orb_true_iff in H. destruct H as [H|H].
    + apply Z.eqb_eq in H. contradiction.
    + now apply Z.eqb_eq.
  - apply orb_true_iff.
    destruct (Z.eq_dec (get g r c) 0) as [E|E].
    + left. now apply Z.eqb_eq.
    + right. apply Z.eqb_eq. now apply H.
Qed.

Lemma completionb_correct g h : completionb g h = true <-> completion g h.
Proof.
  unfold completionb, completion.
  rewrite !andb_true_iff, wfb_correct, solvedb_correct, agreesb_correct.
  tauto.
Qed.

(** The two completions of [two_way_grid], found by counting. *)
Lemma two_way_grid_completions :
  enumerates two_way_grid [a_solution; b_solution].
Proof.
  assert (Hwf : wf two_way_grid) by (apply wfb_correct; reflexivity).
  assert (Hr : in_range two_way_grid)
    by (apply in_rangeb_correct; vm_compute; reflexivity).
  assert (Hn : no_dup two_way_grid)
    by (apply no_dupb_correct; vm_compute; reflexivity).
  assert (Ha : completion two_way_grid a_solution)
    by (apply completionb_correct; vm_compute; reflexivity).
  assert (Hb : completion two_way_grid b_solution)
    by (apply completionb_correct; vm_compute; reflexivity).
  assert (Hab : a_solution <> b_solution).
  { intros E. apply (f_equal (fun g => get g 3 5)) in E. discriminate. }
  destruct (enumeration_exists 81 two_way_grid Hwf (count_empty_le _))
    as [L HE].
  assert (Hlen : List.length L = 2).
  { destruct (countSolutions_spec 82 two_way_grid 5 sample_world Hwf)
      as [[g' c'] [w' [E P]]].
    { pose proof (count_empty_le two_way_grid). lia. }
    destruct P as (_ & _ & HL & _). simpl in HL.
    specialize (HL L ltac:(lia) Hr Hn HE).
    destruct countSolutions_two_way as (_ & X & _).
    unfold outcome in X. rewrite E in X. simpl in X. inversion X. lia. }
  destruct HE as [ND HL].
  apply HL in Ha, Hb.
  destruct L as [|x [|y [|z t]]]; simpl in Hlen; try discriminate.
  split.
  - constructor; [simpl; intuition congruence|].
    constructor; [simpl; tauto|constructor].
  - intros h. rewrite <- HL. simpl in *.
    inversion ND as [|? ? Hxy _]. simpl in Hxy.
    intuition congruence.
Qed.

(** * The claims *)

Lemma ones_grid_no_completion : forall h, ~ completion ones_grid h.
Proof.
  intros h Hh.
  assert (Hwf : wf ones_grid) by (apply wfb_correct; reflexivity).
  assert (Hf : full ones_grid) by (apply fullb_correct; reflexivity).
  pose proof (completion_full ones_grid h Hwf Hf Hh) as E. subst h.
  destruct Hh as [_ [Hs _]]. apply solvedb_correct in Hs.
  vm_compute in Hs. discriminate.
Qed.

(** C1. For every difficulty string and every sequence of random
    numbers, [generatePuzzle] returns a puzzle that has exactly one full
    valid completion, namely the solution [fillGrid] built before the
    carving: [countSolutions puzzle 2] is 1 (whatever the random
    numbers of that call), and every nonzero cell of the puzzle equals
    the cell of that solution. *)
Theorem generatePuzzle_unique (fuel : nat) (out : grid) (difficulty : string)
        (w : world) :
  wf out -> 81 < fuel ->
  exists sol w1 puzzle w',
    fillGrid fuel (clear_cells out) w = Some ((true, sol), w1) /\
    solved sol /\
    generatePuzzle (S fuel) out difficulty w = Some (puzzle, w') /\
    enumerates puzzle [sol] /\
    (forall w2, exists w3,
        countSolutions fuel puzzle 2 w2 = Some ((puzzle, 1%Z), w3)) /\
    (forall r c, r < 9 -> c < 9 ->
                 get puzzle r c <> 0%Z -> get puzzle r c = get sol r c).
Proof.
  intros Hwf Hfuel.
  destruct (generatePuzzle_run fuel out difficulty w Hwf Hfuel)
    as (sol & w1 & clues & w2 & puzzle & w3 & E1 & Hws & Hs & _ & _ & E3 & Hc & _).
  exists sol, w1, puzzle, w3.
  rewrite (clear_cells_zero out Hwf).
  split; [assumption|]. split; [assumption|]. split; [assumption|].
  pose proof (carved_completion sol puzzle Hc) as (_ & _ & Hag).
  destruct Hc as (Hwp & Hrp & Hnp & Hen).
  split; [assumption|]. split.
  - intros w4.
    destruct (countSolutions_spec fuel puzzle 2 w4 Hwp) as [[g' c'] [w5 [E P]]].
    { pose proof (count_empty_le puzzle). lia. }
    destruct P as (Eg & _ & HL & _). simpl in *. subst g'.
    rewrite (HL [sol] ltac:(lia) Hrp Hnp Hen) in E. exists w5. exact E.
  - intros r c Hr Hc Hnz. symmetry. now apply Hag.
Qed.

Lemma generatePuzzle_unique_witness :
  wf a_puzzle /\ 81 < 82 /\
  exists sol w1 puzzle w',
    fillGrid 82 (clear_cells a_puzzle) sample_world = Some ((true, sol), w1) /\
    solved sol /\
    generatePuzzle 83 a_puzzle "hard" sample_world = Some (puzzle, w') /\
    enumerates puzzle [sol] /\
    (forall w2, exists w3,
        countSolutions 82 puzzle 2 w2 = Some ((puzzle, 1%Z), w3)) /\
    (forall r c, r < 9 -> c < 9 ->
                 get puzzle r c <> 0%Z -> get puzzle r c = get sol r c).
Proof.
  assert (Hwf : wf a_puzzle) by (apply wfb_correct; reflexivity).
  assert (Hfuel : 81 < 82) by lia.
  split; [exact Hwf|]. split; [exact Hfuel|].
  exact (generatePuzzle_unique 82 a_puzzle "hard" sample_world Hwf Hfuel).
Defined.

(** C2, as stated, fails: on a full grid that breaks the uniqueness rule
    the counter reports one solution although the grid has no valid
    completion, and with a negative limit the result 0 exceeds the
    limit. *)
Lemma countSolutions_min_counterexample :
  (enumerates ones_grid [] /\
   countSolutions 1 ones_grid 2 sample_world
     = Some ((ones_grid, 1%Z), sample_world) /\
   1%Z <> Z.min (Z.of_nat (List.length (@nil grid))) 2) /\
  (enumerates a_solution [a_solution] /\
   countSolutions 1 a_solution (-1) sample_world
     = Some ((a_solution, 0%Z), sample_world) /\
   0%Z <> Z.min (Z.of_nat (List.length [a_solution])) (-1) /\
   (0 > -1)%Z).
Proof.
  split; split.
  - split; [constructor|]. intros h. simpl. split; [tauto|].
    apply ones_grid_no_completion.
  - split; [reflexivity|]. simpl. lia.
  - apply enumerates_solved; [apply a_solution_wf|apply a_solution_solved].
  - split; [reflexivity|]. simpl. lia.
Qed.

(** C2, amended. For every grid with cells 0-9 and no duplicate digit
    in a row, column or box, and every limit at least 0,
    [countSolutions g limit] returns [min n limit], [n] the number of
    distinct full valid completions of [g] (the length of any
    duplicate-free list of them); the result never exceeds the limit;
    a call of the search entered with the count at the limit returns at
    once, and the loop over the digits stops at the digit whose
    recursive call brings the count to the limit. *)
Theorem countSolutions_min (fuel : nat) (g : grid) (limit : Z) (w : world)
        (L : list grid) :
  wf g -> in_range g -> no_dup g -> (0 <= limit)%Z ->
  count_empty g < fuel -> enumerates g L ->
  (exists w',
      countSolutions fuel g limit w
      = Some ((g, Z.min (Z.of_nat (List.length L)) limit), w')) /\
  (Z.min (Z.of_nat (List.length L)) limit <= limit)%Z /\
  (forall f g0 c w0, (limit <= c)%Z ->
      countSolutionsDFS (S f) g0 c limit w0 = Some ((g0, c), w0)) /\
  (forall rec row col num rest g0 c w0 g2 c2 w2,
      isSafe g0 row col num = true ->
      rec (put g0 row col num) c
          (mkWorld (randoms w0) (drawn w0) (put g0 row col num :: history w0))
      = Some ((g2, c2), w2) ->
      (limit <= c2)%Z ->
      count_digits rec limit row col (num :: rest) g0 c w0
      = count_digits rec limit row col [num] g0 c w0).
Proof.
  intros Hwf Hr Hn Hl Hfuel HE. split; [|split; [lia|split]].
  - destruct (countSolutions_spec fuel g limit w Hwf Hfuel)
      as [[g' c'] [w' [E P]]].
    destruct P as (Eg & _ & HL & _). simpl in *. subst g'.
    rewrite (HL L Hl Hr Hn HE) in E. exists w'. exact E.
  - intros f g0 c w0 Hc. cbn [countSolutionsDFS].
    destruct (Z.geb_spec c limit); [reflexivity|lia].
  - intros rec row col num rest g0 c w0 g2 c2 w2 Hs Hrec Hc.
    cbn [count_digits]. rewrite Hs. unfold bind, write. rewrite Hrec.
    destruct (Z.geb_spec c2 limit); [reflexivity|lia].
Qed.

Lemma countSolutions_min_witness :
  exists w',
    countSolutions 82 two_way_grid 2 sample_world
    = Some ((two_way_grid,
             Z.min (Z.of_nat (List.length [a_solution; b_solution])) 2), w').
Proof.
  apply (countSolutions_min 82 two_way_grid 2 sample_world
                            [a_solution; b_solution]).
  - apply wfb_correct. reflexivity.
  - apply in_rangeb_correct. vm_compute. reflexivity.
  - apply no_dupb_correct. vm_compute. reflexivity.
  - lia.
  - pose proof (count_empty_le two_way_grid). lia.
  - apply two_way_grid_completions.
Defined.

(** C3. For every grid (cells 0-9) whose placed digits satisfy the
    row/column/box uniqueness, [solveSudoku] returns, and if it returns
    true the grid it leaves has no empty cell and every row, column and
    box contains each digit 1-9 exactly once. *)
Theorem solveSudoku_true_solved (fuel : nat) (g : grid) (w : world) :
  wf g -> in_range g -> no_dup g -> count_empty g < fuel ->
  exists b g' w',
    solveSudoku fuel g w = Some ((b, g'), w') /\
    (b = true -> full g' /\ solved g').
Proof.
  intros Hwf Hr Hn Hfuel.
  destruct (solveSudoku_spec fuel g w Hwf Hfuel) as [[b g'] [w' [E P]]].
  destruct P as (_ & _ & Ht & _ & Hr' & Hn' & _). simpl in *.
  exists b, g', w'. split; [assumption|].
  intros Eb. destruct (Ht Eb) as [Hf _]. split; [assumption|].
  apply full_valid_solved; auto. now apply Hn'.
Qed.

Lemma solveSudoku_true_solved_witness :
  exists b g' w',
    solveSudoku 82 a_puzzle sample_world = Some ((b, g'), w') /\
    (b = true -> full g' /\ solved g').
Proof.
  apply (solveSudoku_true_solved 82 a_puzzle sample_world).
  - apply wfb_correct. reflexivity.
  - apply in_rangeb_correct. vm_compute. reflexivity.
  - apply no_dupb_correct. vm_compute. reflexivity.
  - pose proof (count_empty_le a_puzzle). lia.
Defined.

(** C4, as stated, fails: the full grid of ones has no valid
    completion, yet [solveSudoku] returns true on it. *)
Lemma solveSudoku_false_counterexample :
  solveSudoku 1 ones_grid sample_world = Some ((true, ones_grid), sample_world)
  /\ forall h, ~ completion ones_grid h.
Proof. split; [reflexivity|apply ones_grid_no_completion]. Qed.

(** C4, amended. For every grid, if [solveSudoku] returns false the
    grid is cell for cell what it was at the call, and no full valid
    completion of it exists; for a grid with cells 0-9 whose placed
    digits satisfy the uniqueness rule, false is returned precisely
    when no full valid completion exists. *)
Theorem solveSudoku_false (fuel : nat) (g : grid) (w : world) :
  wf g -> count_empty g < fuel ->
  exists b g' w',
    solveSudoku fuel g w = Some ((b, g'), w') /\
    (b = false -> g' = g) /\
    (b = false -> forall h, ~ completion g h) /\
    (in_range g -> no_dup g ->
     (b = false <-> forall h, ~ completion g h)).
Proof.
  intros Hwf Hfuel.
  destruct (solveSudoku_spec fuel g w Hwf Hfuel) as [[b g'] [w' [E P]]].
  destruct P as (Hwf' & Hf & Ht & Hc & Hr' & Hn' & _). simpl in *.
  exists b, g', w'. split; [assumption|]. split; [assumption|].
  split; [assumption|].
  intros Hr Hn. split; [assumption|].
  intros Hnone. destruct b; [|reflexivity]. exfalso.
  destruct (Ht eq_refl) as [Hfull Hag].
  apply (Hnone g'). split; [assumption|]. split; [|assumption].
  apply full_valid_solved; auto. now apply Hn'.
Qed.

Lemma solveSudoku_false_witness :
  exists g' w',
    solveSudoku 82 (put a_puzzle 0 2 1%Z) sample_world = Some ((false, g'), w') /\
    g' = put a_puzzle 0 2 1%Z /\
    (forall h, ~ completion (put a_puzzle 0 2 1%Z) h) /\
    (false = false <-> forall h, ~ completion (put a_puzzle 0 2 1%Z) h).
Proof.
  destruct (solveSudoku_false 82 (put a_puzzle 0 2 1%Z) sample_world)
    as (b & g' & w' & E & Hsame & Hnone & Hiff).
  - apply wfb_correct. reflexivity.
  - pose proof (count_empty_le (put a_puzzle 0 2 1%Z)). lia.
  - destruct (outcome_inv _ _ solveSudoku_dead_end) as [w0 D].
    rewrite E in D. injection D as Eb Eg _. subst b.
    exists g', w'. split; [exact E|]. split; [exact Eg|].
    split; [exact (Hnone eq_refl)|].
    apply Hiff.
    + apply in_rangeb_correct. vm_compute. reflexivity.
    + apply no_dupb_correct. vm_compute. reflexivity.
Defined.

(** C5. For every grid, row and column in 0-8 and digit in 1-9,
    [isSafe] is true iff the digit appears nowhere else in the row,
    nowhere else in the column, nowhere else in the 3x3 box of the
    cell, and the cell is empty. *)
Theorem isSafe_iff (g : grid) (row col : nat) (digit : Z) :
  row < 9 -> col < 9 -> (1 <= digit <= 9)%Z ->
  (isSafe g row col digit = true <->
   (forall c, c < 9 -> c <> col -> get g row c <> digit) /\
   (forall r, r < 9 -> r <> row -> get g r col <> digit) /\
   (forall r c, r < 9 -> c < 9 -> r / 3 = row / 3 -> c / 3 = col / 3 ->
                (r, c) <> (row, col) -> get g r c <> digit) /\
   get g row col = 0%Z).
Proof.
  intros Hr Hc Hd. rewrite (isSafe_true g row col digit Hr Hc). split.
  - intros [Hz H]. conjs; auto.
    + intros c Hc' _. apply H; auto. now left.
    + intros r Hr' _. apply H; auto. right; now left.
    + intros r c Hr' Hc' E1 E2 _. apply H; auto. right; right. split; congruence.
  - intros (H1 & H2 & H3 & Hz). split; [assumption|].
    intros r c Hr' Hc' Hu.
    destruct (Nat.eq_dec r row) as [Er|Er]; destruct (Nat.eq_dec c col) as [Ec|Ec].
    + subst. lia.
    + subst. now apply H1.
    + subst. now apply H2.
    + destruct Hu as [E|[E|[E1 E2]]]; [congruence|congruence|].
      apply H3; auto; congruence.
Qed.

Lemma isSafe_iff_witness :
  isSafe a_puzzle 0 2 4 = true <->
  (forall c, c < 9 -> c <> 2 -> get a_puzzle 0 c <> 4%Z) /\
  (forall r, r < 9 -> r <> 0 -> get a_puzzle r 2 <> 4%Z) /\
  (forall r c, r < 9 -> c < 9 -> r / 3 = 0 / 3 -> c / 3 = 2 / 3 ->
               (r, c) <> (0, 2) -> get a_puzzle r c <> 4%Z) /\
  get a_puzzle 0 2 = 0%Z.
Proof. apply (isSafe_iff a_puzzle 0 2 4); lia. Defined.

(** C6. Starting from any grid without a duplicate nonzero digit in a
    row, column or box, every grid written during the search of
    [solveSudoku], of [fillGrid] and of [countSolutionsDFS] is without
    such a duplicate as well. *)
Theorem search_keeps_no_dup (fuel : nat) (g : grid) (w : world) :
  wf g -> no_dup g -> count_empty g < fuel ->
  (exists res w',
      solveSudoku fuel g w = Some (res, w') /\ logged no_dup w w') /\
  (exists res w',
      fillGrid fuel g w = Some (res, w') /\ logged no_dup w w') /\
  (forall count limit, exists res w',
      countSolutionsDFS fuel g count limit w = Some (res, w') /\
      logged no_dup w w').
Proof.
  intros Hwf Hn Hfuel. split; [|split].
  - destruct (solveSudoku_spec fuel g w Hwf Hfuel) as [res [w' [E P]]].
    destruct P as (_ & _ & _ & _ & _ & Hn' & _).
    exists res, w'. split; [assumption|]. now apply Hn'.
  - destruct (fillGrid_spec fuel g w Hwf Hfuel) as [res [w' [E P]]].
    destruct P as (_ & _ & _ & _ & _ & Hn' & _).
    exists res, w'. split; [assumption|]. now apply Hn'.
  - intros count limit.
    destruct (countSolutionsDFS_spec limit fuel g count w Hwf Hfuel)
      as [res [w' [E P]]].
    destruct P as (_ & _ & _ & Hlog).
    exists res, w'. split; [assumption|]. now apply Hlog.
Qed.

Lemma search_keeps_no_dup_witness :
  (exists res w',
      solveSudoku 82 a_puzzle sample_world = Some (res, w') /\
      logged no_dup sample_world w') /\
  (exists res w',
      fillGrid 82 a_puzzle sample_world = Some (res, w') /\
      logged no_dup sample_world w') /\
  (forall count limit, exists res w',
      countSolutionsDFS 82 a_puzzle count limit sample_world = Some (res, w') /\
      logged no_dup sample_world w').
Proof.
  apply (search_keeps_no_dup 82 a_puzzle sample_world).
  - apply wfb_correct. reflexivity.
  - apply no_dupb_correct. vm_compute. reflexivity.
  - pose proof (count_empty_le a_puzzle). lia.
Defined.

(** C7, as stated, fails: the target is not drawn uniformly.  Of the
    2^31 values [rand()] can return, 357913942 give the target 45 and
    357913941 give the target 50: however [rand()] is distributed over
    its values, and also when it is uniform, 45 and 50 are not equally
    likely. *)
Lemma generatePuzzle_clues_counterexample :
  drawn_by "easy" RAND_MAX 45 357913942 /\
  drawn_by "easy" RAND_MAX 50 357913941.
Proof.
  split.
  - apply (residue_count "easy" RAND_MAX 0); [reflexivity|].
    apply N.leb_le. reflexivity.
  - apply (residue_count "easy" RAND_MAX 5); [reflexivity|].
    apply N.leb_le. reflexivity.
Qed.

(** C7, amended. [generatePuzzle] takes as clue target the low end of
    the range of the difficulty plus the next random number modulo 6, a
    number in 45-50 for "easy", 34-39 for "medium", 24-29 for "hard"
    and 34-39 for any other token; carving removes at most 81 minus
    that target cells of the solution, so the puzzle returned has at
    least that many filled cells. *)
Theorem generatePuzzle_clues (fuel : nat) (out : grid) (difficulty : string)
        (w : world) :
  wf out -> 81 < fuel ->
  exists sol w1 clues w2 puzzle w',
    fillGrid fuel (clear_cells out) w = Some ((true, sol), w1) /\
    pick_clues difficulty w1 = Some (clues, w2) /\
    clues = (fst (clue_range difficulty) + Z.of_N (N.modulo (randoms w1 (drawn w1)) 6))%Z /\
    (fst (clue_range difficulty) <= clues <= snd (clue_range difficulty))%Z /\
    (difficulty = "easy"%string -> (45 <= clues <= 50)%Z) /\
    (difficulty = "medium"%string -> (34 <= clues <= 39)%Z) /\
    (difficulty = "hard"%string -> (24 <= clues <= 29)%Z) /\
    (difficulty <> "easy"%string -> difficulty <> "medium"%string ->
     difficulty <> "hard"%string -> (34 <= clues <= 39)%Z) /\
    generatePuzzle (S fuel) out difficulty w = Some (puzzle, w') /\
    (Z.of_nat (count_filled sol) - Z.of_nat (count_filled puzzle)
     <= 81 - clues)%Z /\
    (clues <= Z.of_nat (count_filled puzzle))%Z.
Proof.
  intros Hwf Hfuel.
  destruct (generatePuzzle_run fuel out difficulty w Hwf Hfuel)
    as (sol & w1 & clues & w2 & puzzle & w3 &
        E1 & Hws & Hs & E2 & _ & E3 & Hc & Hcount).
  exists sol, w1, clues, w2, puzzle, w3.
  rewrite (clear_cells_zero out Hwf).
  pose proof E2 as E2'. rewrite pick_clues_run in E2'.
  assert (Ecl : clues =
    (fst (clue_range difficulty) + Z.of_N (N.modulo (randoms w1 (drawn w1)) 6))%Z)
    by congruence.
  assert (H6 : (N.modulo (randoms w1 (drawn w1)) 6 < 6)%N)
    by (apply N.mod_upper_bound; lia).
  split; [assumption|]. split; [assumption|]. split; [assumption|].
  clear E2'. revert Ecl H6.
  generalize (N.modulo (randoms w1 (drawn w1)) 6). intros k Ecl H6.
  destruct (clue_range_width difficulty) as [Hw _].
  split; [lia|].
  split.
  { intros ->. change (clue_range "easy") with (45, 50)%Z in Ecl.
    cbn [fst] in Ecl. lia. }
  split.
  { intros ->. change (clue_range "medium") with (34, 39)%Z in Ecl.
    cbn [fst] in Ecl. lia. }
  split.
  { intros ->. change (clue_range "hard") with (24, 29)%Z in Ecl.
    cbn [fst] in Ecl. lia. }
  split.
  { intros N1 N2 N3. apply String.eqb_neq in N1, N2, N3.
    unfold clue_range in Ecl. rewrite N1, N2, N3 in Ecl.
    cbn [fst] in Ecl. lia. }
  split; [assumption|].
  rewrite (count_filled_full sol (solved_full _ Hs)). lia.
Qed.

Lemma generatePuzzle_clues_witness :
  exists sol w1 clues w2 puzzle w',
    fillGrid 82 (clear_cells a_puzzle) sample_world = Some ((true, sol), w1) /\
    pick_clues "expert" w1 = Some (clues, w2) /\
    clues = (fst (clue_range "expert") + Z.of_N (N.modulo (randoms w1 (drawn w1)) 6))%Z /\
    (fst (clue_range "expert") <= clues <= snd (clue_range "expert"))%Z /\
    ("expert" = "easy" -> (45 <= clues <= 50)%Z)%string /\
    ("expert" = "medium" -> (34 <= clues <= 39)%Z)%string /\
    ("expert" = "hard" -> (24 <= clues <= 29)%Z)%string /\
    ("expert" <> "easy" -> "expert" <> "medium" ->
     "expert" <> "hard" -> (34 <= clues <= 39)%Z)%string /\
    generatePuzzle 83 a_puzzle "expert" sample_world = Some (puzzle, w') /\
    (Z.of_nat (count_filled sol) - Z.of_nat (count_filled puzzle)
     <= 81 - clues)%Z /\
    (clues <= Z.of_nat (count_filled puzzle))%Z.
Proof.
  apply (generatePuzzle_clues 82 a_puzzle "expert" sample_world).
  - apply wfb_correct. reflexivity.
  - lia.
Defined.

(** C8. [countSolutions] leaves the caller's grid unchanged: it copies
    the grid into a private array and runs the counting search on that
    copy only.  With the arrays in memory: for a caller's array at any
    address in use, the call returns with that array, and every other
    array in use, as it was; every assignment of the call goes to the
    local array [tmp], which lies at another address: first the 81
    assignments of the copy loop, then those of the search; and the
    count returned is the count for the caller's grid. *)
Theorem countSolutions_keeps_grid (fuel : nat) (g : addr) (limit : Z)
        (m : memory) (w : world) :
  g < top m -> wf (arrays m g) -> wf (arrays m (top m)) ->
  count_empty (arrays m g) < fuel ->
  exists cnt m' w',
    InMemory.countSolutions fuel g limit m w = Some ((m', cnt), w') /\
    arrays m' g = arrays m g /\
    (forall a, a < top m -> arrays m' a = arrays m a) /\
    top m' = top m /\
    top m <> g /\
    (exists search,
        stores m' = search ++ copy_stores (arrays m g) (top m) ++ stores m /\
        Forall (fun e => fst (fst e) = top m) search) /\
    countSolutions fuel (arrays m g) limit w = Some ((arrays m g, cnt), w').
Proof.
  intros Hg Hwf Htmp Hfuel.
  assert (Hne : g <> top m) by lia.
  destruct (countSolutionsDFS_spec limit fuel (arrays m g) 0%Z w Hwf Hfuel)
    as [[g' c'] [w' [E P]]].
  destruct P as (Eg & _). cbn [fst] in Eg. subst g'.
  set (m0 := mkMemory (arrays m) (S (top m)) (stores m)).
  destruct (copy_cells_in_memory g (top m) m0 Hne) as (A1 & B1 & T1 & S1).
  cbn [arrays stores top m0] in A1, B1, T1, S1.
  rewrite (copy_cells_exact _ _ Hwf Htmp) in A1.
  pose proof E as E'. rewrite <- A1 in E'.
  destruct (countSolutionsDFS_in_memory _ _ _ _ _ _ _ _ _ E')
    as (m2 & R & A2 & O2 & T2 & search & S2 & F2).
  exists c', (mkMemory (arrays m2) (top m) (stores m2)), w'.
  cbn [arrays stores top].
  assert (Hused : forall a, a < top m -> arrays m2 a = arrays m a).
  { intros a Ha. rewrite O2 by lia. apply B1. lia. }
  split.
  { unfold InMemory.countSolutions. cbv zeta. fold m0. unfold bind.
    rewrite R. reflexivity. }
  split; [now apply Hused|]. split; [exact Hused|].
  split; [reflexivity|]. split; [lia|]. split.
  { exists search. split; [|exact F2]. rewrite S2, S1. reflexivity. }
  unfold countSolutions. cbv zeta.
  rewrite (copy_cells_exact _ _ Hwf local_array_wf). unfold bind.
  rewrite E. reflexivity.
Qed.

Lemma countSolutions_keeps_grid_witness :
  exists cnt m' w',
    InMemory.countSolutions 82 0 2 sample_memory sample_world
    = Some ((m', cnt), w') /\
    arrays m' 0 = a_puzzle /\
    (forall a, a < 1 -> arrays m' a = arrays sample_memory a) /\
    top m' = 1 /\
    1 <> 0 /\
    (exists search,
        stores m' = search ++ copy_stores a_puzzle 1 ++ [] /\
        Forall (fun e => fst (fst e) = 1) search) /\
    countSolutions 82 a_puzzle 2 sample_world = Some ((a_puzzle, cnt), w').
Proof.
  apply (countSolutions_keeps_grid 82 0 2 sample_memory sample_world).
  - cbn [top sample_memory]. lia.
  - apply wfb_correct. reflexivity.
  - apply wfb_correct. reflexivity.
  - pose proof (count_empty_le a_puzzle). cbn [arrays sample_memory]. lia.
Defined.

(** C9. On the all-zero grid [fillGrid] returns true, whatever the
    random numbers, and leaves a grid without empty cell in which every
    row, column and box contains each digit 1-9 exactly once. *)
Theorem fillGrid_zero_grid (fuel : nat) (w : world) :
  81 < fuel ->
  exists g' w',
    fillGrid fuel zero_grid w = Some ((true, g'), w') /\
    full g' /\ solved g'.
Proof.
  intros Hfuel.
  destruct (fill_zero_grid fuel w Hfuel) as (sol & w1 & E & _ & Hs & _).
  exists sol, w1. split; [assumption|].
  split; [now apply solved_full|assumption].
Qed.

Lemma fillGrid_zero_grid_witness :
  exists g' w',
    fillGrid 82 zero_grid sample_world = Some ((true, g'), w') /\
    full g' /\ solved g'.
Proof. apply (fillGrid_zero_grid 82 sample_world). lia. Defined.

(** C10. [solveSudoku] and [fillGrid] never alter a cell that is filled
    at the call: whatever the result, every cell nonzero at the call
    holds the same digit in the grid they leave, and in every grid
    written in between. *)
Theorem search_keeps_placed (fuel : nat) (g : grid) (w : world) :
  wf g -> count_empty g < fuel ->
  (exists b g' w',
      solveSudoku fuel g w = Some ((b, g'), w') /\
      agrees g g' /\ logged (agrees g) w w') /\
  (exists b g' w',
      fillGrid fuel g w = Some ((b, g'), w') /\
      agrees g g' /\ logged (agrees g) w w').
Proof.
  intros Hwf Hfuel.
  assert (H : forall b g' w', solve_post g w (b, g') w' ->
                agrees g g' /\ logged (agrees g) w w').
  { intros b g' w' (_ & Hf & Ht & _ & _ & _ & Hlog). simpl in *.
    split; [|assumption]. destruct b.
    - now destruct (Ht eq_refl).
    - rewrite (Hf eq_refl). apply agrees_refl. }
  split.
  - destruct (solveSudoku_spec fuel g w Hwf Hfuel) as [[b g'] [w' [E P]]].
    exists b, g', w'. split; [assumption|]. now apply (H b).
  - destruct (fillGrid_spec fuel g w Hwf Hfuel) as [[b g'] [w' [E P]]].
    exists b, g', w'. split; [assumption|]. now apply (H b).
Qed.

Lemma search_keeps_placed_witness :
  (exists b g' w',
      solveSudoku 82 a_puzzle sample_world = Some ((b, g'), w') /\
      agrees a_puzzle g' /\ logged (agrees a_puzzle) sample_world w') /\
  (exists b g' w',
      fillGrid 82 a_puzzle sample_world = Some ((b, g'), w') /\
      agrees a_puzzle g' /\ logged (agrees a_puzzle) sample_world w').
Proof.
  apply (search_keeps_placed 82 a_puzzle sample_world).
  - apply wfb_correct. reflexivity.
  - pose proof (count_empty_le a_puzzle). lia.
Defined.

(** * Further properties of the program *)

(** ** The grid utilities and the constraint checker *)

Lemma scan_cols_first g row n : forall a r c,
  scan_cols g row (seq a n) = Some (r, c) ->
  forall c', a <= c' < c -> get g row c' <> 0%Z.
Proof.
  induction n as [|n IH]; intros a r c; cbn [seq scan_cols]; [discriminate|].
  unfold UNASSIGNED. destruct (Z.eqb_spec (get g row a) 0) as [E|E].
  - intros X c' Hc'. inversion X; subst. lia.
  - intros X c' Hc'. destruct (Nat.eq_dec c' a) as [->|Hne]; [assumption|].
    apply (IH (S a) r c X). lia.
Qed.

Lemma scan_rows_first g n : forall a r c,
  scan_rows g (seq a n) = Some (r, c) ->
  (forall r' c', a <= r' < r -> c' < 9 -> get g r' c' <> 0%Z) /\
  (forall c', c' < c -> get g r c' <> 0%Z).
Proof.
  induction n as [|n IH]; intros a r c; cbn [seq scan_rows]; [discriminate|].
  destruct (scan_cols g a (seq 0 N)) as [p|] eqn:E.
  - intros X. inversion X; subst.
    destruct (scan_cols_some _ _ _ _ _ E) as [-> _]. split.
    + intros r' c' Hr'. lia.
    + intros c' Hc'. apply (scan_cols_first g a N 0 a c E). lia.
  - intros X. destruct (IH (S a) r c X) as [H1 H2]. split; [|assumption].
    intros r' c' Hr' Hc'. destruct (Nat.eq_dec r' a) as [->|Hne].
    + apply (scan_cols_none _ _ _ E). apply in_seq. unfold N. lia.
    + apply H1; [lia|assumption].
Qed.

Lemma full_findUnassigned g : full g -> findUnassigned g = None.
Proof.
  intros Hf. destruct (findUnassigned g) as [[r c]|] eqn:E; [|reflexivity].
  destruct (findUnassigned_some _ _ _ E) as (Hr & Hc & Hz).
  exfalso. now apply (Hf r c).
Qed.

(** X1. [findUnassigned] returns the first empty cell in row-major
    order: the cell it returns is on the board and empty, every cell of
    an earlier row and every earlier cell of its row is filled; it
    returns none exactly when the grid has no empty cell. *)
Theorem findUnassigned_first (g : grid) :
  match findUnassigned g with
  | Some (r, c) =>
      r < 9 /\ c < 9 /\ get g r c = 0%Z /\
      forall r' c', r' < 9 -> c' < 9 ->
                    r' < r \/ (r' = r /\ c' < c) -> get g r' c' <> 0%Z
  | None => True
  end /\
  (findUnassigned g = None <-> full g).
Proof.
  split.
  - destruct (findUnassigned g) as [[r c]|] eqn:E; [|exact I].
    destruct (findUnassigned_some _ _ _ E) as (Hr & Hc & Hz).
    destruct (scan_rows_first g N 0 r c E) as [H1 H2].
    repeat (split; [assumption|]).
    intros r' c' Hr' Hc' [Hlt|[-> Hlt]].
    + apply H1; [lia|assumption].
    + now apply H2.
  - split; [apply findUnassigned_none|apply full_findUnassigned].
Qed.

(** X2. [usedInRow], [usedInCol] and [usedInBox] (called as [isSafe]
    calls it, with the top-left corner of the box of a cell) are true
    exactly when some cell of the row, of the column, of the 3x3 box
    holds the number. *)
Theorem used_in_unit (g : grid) (row col : nat) (num : Z) :
  row < 9 -> col < 9 ->
  (usedInRow g row num = true <-> exists c, c < 9 /\ get g row c = num) /\
  (usedInCol g col num = true <-> exists r, r < 9 /\ get g r col = num) /\
  (usedInBox g (row - row mod 3) (col - col mod 3) num = true <->
   exists r c, r < 9 /\ c < 9 /\ r / 3 = row / 3 /\ c / 3 = col / 3 /\
               get g r c = num).
Proof.
  intros Hr Hc. split; [|split].
  - unfold usedInRow, N. rewrite existsb_exists. split.
    + intros [c [Hin E]]. apply in_seq in Hin. apply Z.eqb_eq in E.
      exists c. split; [lia|assumption].
    + intros [c [Hlt E]]. exists c. split; [apply in_seq; lia|now apply Z.eqb_eq].
  - unfold usedInCol, N. rewrite existsb_exists. split.
    + intros [r [Hin E]]. apply in_seq in Hin. apply Z.eqb_eq in E.
      exists r. split; [lia|assumption].
    + intros [r [Hlt E]]. exists r. split; [apply in_seq; lia|now apply Z.eqb_eq].
  - split.
    + intros H. unfold usedInBox in H. apply existsb_exists in H.
      destruct H as [dr [Hdr H]]. apply existsb_exists in H.
      destruct H as [dc [Hdc E]]. apply in_seq in Hdr, Hdc. apply Z.eqb_eq in E.
      assert (Hdr' : dr < 3) by lia. assert (Hdc' : dc < 3) by lia.
      pose proof (box_corner row dr Hdr'). pose proof (box_corner col dc Hdc').
      pose proof (Nat.div_mod_eq row 3). pose proof (Nat.div_mod_eq col 3).
      pose proof (Nat.mod_upper_bound row 3). pose proof (Nat.mod_upper_bound col 3).
      assert (row / 3 < 3) by (apply Nat.Div0.div_lt_upper_bound; lia).
      assert (col / 3 < 3) by (apply Nat.Div0.div_lt_upper_bound; lia).
      exists (row - row mod 3 + dr), (col - col mod 3 + dc).
      repeat split; auto; lia.
    + intros (r & c & Hr' & Hc' & E1 & E2 & E).
      destruct (usedInBox g (row - row mod 3) (col - col mod 3) num) eqn:U;
        [reflexivity|].
      rewrite usedInBox_false in U.
      destruct (box_offsets row r E1) as [X1 X2].
      destruct (box_offsets col c E2) as [Y1 Y2].
      exfalso. apply (U (r mod 3) (c mod 3) X2 Y2). now rewrite <- X1, <- Y1.
Qed.

Lemma used_in_unit_witness :
  (usedInRow a_puzzle 0 7 = true <-> exists c, c < 9 /\ get a_puzzle 0 c = 7%Z) /\
  (usedInCol a_puzzle 2 7 = true <-> exists r, r < 9 /\ get a_puzzle r 2 = 7%Z) /\
  (usedInBox a_puzzle (0 - 0 mod 3) (2 - 2 mod 3) 7 = true <->
   exists r c, r < 9 /\ c < 9 /\ r / 3 = 0 / 3 /\ c / 3 = 2 / 3 /\
               get a_puzzle r c = 7%Z).
Proof. apply (used_in_unit a_puzzle 0 2 7); lia. Defined.

(** X3. [isSafe] never allows a filled cell to be overwritten and never
    allows the number 0 (the mark of an empty cell) to be placed. *)
Theorem isSafe_only_empty_nonzero (g : grid) (row col : nat) (num : Z) :
  col < 9 -> isSafe g row col num = true ->
  get g row col = 0%Z /\ num <> 0%Z.
Proof.
  intros Hc H. unfold isSafe, UNASSIGNED in H.
  rewrite !andb_true_iff, !negb_true_iff, Z.eqb_eq in H.
  destruct H as [[[H1 _] _] Hz]. split; [assumption|].
  intros ->. rewrite usedInRow_false in H1. now apply (H1 col Hc).
Qed.

Lemma isSafe_only_empty_nonzero_witness :
  get a_puzzle 0 2 = 0%Z /\ 4%Z <> 0%Z.
Proof.
  apply (isSafe_only_empty_nonzero a_puzzle 0 2 4); [lia|reflexivity].
Defined.

(** X4. Placing a number in a cell makes [isSafe] refuse that number
    for every cell of the same row, column or box; placing it in an
    empty cell leaves the answer of [isSafe] for any other number and
    any other cell as it was. *)
Theorem isSafe_after_put (g : grid) (r c : nat) (d : Z) :
  wf g -> r < 9 -> c < 9 ->
  (forall r' c', r' < 9 -> c' < 9 -> same_unit r c r' c' ->
     isSafe (put g r c d) r' c' d = false) /\
  (get g r c = 0%Z ->
   forall r' c' d', r' < 9 -> c' < 9 -> (r', c') <> (r, c) ->
     d' <> d -> d' <> 0%Z ->
     isSafe (put g r c d) r' c' d' = isSafe g r' c' d').
Proof.
  intros Hwf Hr Hc. split.
  - intros r' c' Hr' Hc' Hu.
    destruct (isSafe (put g r c d) r' c' d) eqn:E; [|reflexivity].
    apply isSafe_true in E; auto. destruct E as [_ E]. exfalso.
    apply (E r c Hr Hc (same_unit_sym _ _ _ _ Hu)).
    now apply get_put_eq.
  - intros Hz r' c' d' Hr' Hc' Hne Hd Hd0.
    assert (Hcell : forall r2 c2, r2 < 9 -> c2 < 9 ->
              (get (put g r c d) r2 c2 <> d' <-> get g r2 c2 <> d')).
    { intros r2 c2 Hr2 Hc2. rewrite get_put by assumption.
      destruct (Nat.eq_dec r r2) as [<-|N1];
        [destruct (Nat.eq_dec c c2) as [<-|N1]|]; try tauto.
      rewrite Hz. split; congruence. }
    assert (Hhere : get (put g r c d) r' c' = get g r' c')
      by (apply get_put_neq; congruence).
    destruct (isSafe g r' c' d') eqn:E1.
    + apply isSafe_true in E1; auto. destruct E1 as [Z1 U1].
      apply isSafe_true; auto. split; [congruence|].
      intros r2 c2 Hr2 Hc2 Hu. apply Hcell; auto.
    + destruct (isSafe (put g r c d) r' c' d') eqn:E2; [|reflexivity].
      apply isSafe_true in E2; auto. destruct E2 as [Z2 U2].
      assert (X : isSafe g r' c' d' = true).
      { apply isSafe_true; auto. split; [congruence|].
        intros r2 c2 Hr2 Hc2 Hu. apply Hcell; auto. }
      congruence.
Qed.

Lemma isSafe_after_put_witness :
  (forall r' c', r' < 9 -> c' < 9 -> same_unit 0 2 r' c' ->
     isSafe (put a_puzzle 0 2 4) r' c' 4 = false) /\
  (get a_puzzle 0 2 = 0%Z ->
   forall r' c' d', r' < 9 -> c' < 9 -> (r', c') <> (0, 2) ->
     d' <> 4%Z -> d' <> 0%Z ->
     isSafe (put a_puzzle 0 2 4) r' c' d' = isSafe a_puzzle r' c' d').
Proof.
  apply (isSafe_after_put a_puzzle 0 2 4); [apply wfb_correct; reflexivity|lia|lia].
Defined.

(** ** The shuffle *)

Lemma shuffle_loop_world {A} (d : A) todo : forall a w,
  exists a' w',
    shuffle_loop d todo a w = Some (a', w') /\
    randoms w' = randoms w /\
    drawn w' = (drawn w + N.of_nat (List.length todo))%N /\
    history w' = history w.
Proof.
  induction todo as [|i rest IH]; intros a w; cbn [shuffle_loop].
  - exists a, w. repeat split; auto. simpl. lia.
  - unfold bind, rand.
    set (w1 := mkWorld (randoms w) (N.succ (drawn w)) (history w)).
    set (a1 := swap d a i _).
    destruct (IH a1 w1) as (a' & w' & E & Hr & Hd & Hh).
    exists a', w'. split; [exact E|]. split; [exact Hr|]. split; [|exact Hh].
    rewrite Hd. unfold w1. cbn [drawn List.length]. lia.
Qed.

(** X5. [shuffledDigits] returns the digits 1-9 in some order, each
    once; the call draws exactly eight random numbers and writes no
    grid. *)
Theorem shuffledDigits_permutation (w : world) :
  exists order w',
    shuffledDigits w = Some (order, w') /\
    Permutation digits order /\
    randoms w' = randoms w /\
    drawn w' = (drawn w + 8)%N /\
    history w' = history w.
Proof.
  destruct (shuffledDigits_spec w) as (order & w' & E & HP & _).
  unfold shuffledDigits in *.
  destruct (shuffle_loop_world 0%Z (downfrom 8)
              (map (fun i => Z.of_nat (i + 1)) (seq 0 9)) w)
    as (order2 & w2 & E2 & Hr & Hd & Hh).
  rewrite E in E2. inversion E2; subst order2 w2.
  exists order, w'. split; [exact E|]. split; [exact HP|].
  split; [exact Hr|]. split; [|exact Hh].
  rewrite Hd. reflexivity.
Qed.

(** ** The solver *)

Lemma completion_valid g h : completion g h -> in_range g /\ no_dup g.
Proof.
  intros (Hwf & Hs & Ha). split.
  - intros r c Hr Hc. destruct (Z.eq_dec (get g r c) 0) as [E|E]; [lia|].
    rewrite <- (Ha r c Hr Hc E).
    pose proof (solved_digit h r c Hs Hr Hc). lia.
  - intros r c r' c' Hr Hc Hr' Hc' Hne Hu Hnz E.
    apply (solved_no_dup h Hs r c r' c'); auto.
    + rewrite (Ha r c Hr Hc Hnz). assumption.
    + rewrite (Ha r c Hr Hc Hnz), (Ha r' c' Hr' Hc') by congruence.
      assumption.
Qed.

Lemma solve_returns_completion fuel g h w :
  wf g -> count_empty g < fuel -> completion g h ->
  returns (solveSudoku fuel g) w
    (fun res _ => fst res = true /\ completion g (snd res)).
Proof.
  intros Hwf Hfuel Hh.
  destruct (completion_valid g h Hh) as [Hr Hn].
  eapply returns_weaken; [apply (solveSudoku_spec fuel g w Hwf Hfuel)|].
  intros [b g'] w' (Hwf' & _ & Ht & Hc & Hr' & Hn' & _). simpl in *.
  destruct b; [|exfalso; exact (Hc eq_refl h Hh)].
  split; [reflexivity|].
  destruct (Ht eq_refl) as [Hf Ha].
  split; [assumption|]. split; [|assumption].
  apply full_valid_solved; auto. now apply Hn'.
Qed.

Lemma solve_returns_unique fuel g h w :
  wf g -> count_empty g < fuel -> enumerates g [h] ->
  returns (solveSudoku fuel g) w (fun res _ => res = (true, h)).
Proof.
  intros Hwf Hfuel [_ HL].
  eapply returns_weaken.
  { apply (solve_returns_completion fuel g h w Hwf Hfuel). apply HL. now left. }
  intros [b g'] w' [Eb Hg']. simpl in *. subst b.
  apply HL in Hg'. destruct Hg' as [<-|[]]. reflexivity.
Qed.

(** X6. The search is complete: on a grid that has a full valid
    completion [solveSudoku] returns true, whatever the random order of
    the digits, and the grid it leaves is a full valid completion of the
    grid it was given. *)
Theorem solveSudoku_complete (fuel : nat) (g : grid) (w : world) :
  wf g -> count_empty g < fuel -> (exists h, completion g h) ->
  exists g' w',
    solveSudoku fuel g w = Some ((true, g'), w') /\ completion g g'.
Proof.
  intros Hwf Hfuel [h Hh].
  destruct (solve_returns_completion fuel g h w Hwf Hfuel Hh)
    as ([b g'] & w' & E & Eb & Hg').
  simpl in Eb, Hg'. subst b.
  exists g', w'. split; assumption.
Qed.

Lemma a_puzzle_completion : completion a_puzzle a_solution.
Proof. apply completionb_correct. vm_compute. reflexivity. Qed.

(** [a_puzzle] has no other completion: the counter, asked for up to
    two, finds one. *)
Lemma a_puzzle_unique : enumerates a_puzzle [a_solution].
Proof.
  assert (Hwf : wf a_puzzle) by (apply wfb_correct; reflexivity).
  assert (Hr : in_range a_puzzle)
    by (apply in_rangeb_correct; vm_compute; reflexivity).
  assert (Hn : no_dup a_puzzle)
    by (apply no_dupb_correct; vm_compute; reflexivity).
  destruct (enumeration_exists 81 a_puzzle Hwf (count_empty_le _)) as [L HE].
  assert (Hlen : List.length L = 1).
  { destruct (countSolutions_spec 82 a_puzzle 2 sample_world Hwf)
      as [[g' c'] [w' [E P]]].
    { pose proof (count_empty_le a_puzzle). lia. }
    destruct P as (_ & _ & HL & _). simpl in HL.
    specialize (HL L ltac:(lia) Hr Hn HE).
    destruct (outcome_inv _ _ countSolutions_a_puzzle) as [w0 X].
    rewrite E in X. inversion X. lia. }
  pose proof a_puzzle_completion as Ha.
  destruct HE as [ND HL]. apply HL in Ha.
  destruct L as [|x [|y t]]; simpl in Hlen; try discriminate.
  destruct Ha as [Ex|[]]. subst x. split; assumption.
Qed.

Lemma solveSudoku_complete_witness :
  exists g' w',
    solveSudoku 82 a_puzzle sample_world = Some ((true, g'), w') /\
    completion a_puzzle g'.
Proof.
  apply (solveSudoku_complete 82 a_puzzle sample_world).
  - apply wfb_correct. reflexivity.
  - pose proof (count_empty_le a_puzzle). lia.
  - exists a_solution. apply a_puzzle_completion.
Defined.

(** X7. On a grid with exactly one full valid completion [solveSudoku]
    returns true and leaves that completion, for every sequence of
    random numbers: the random order of the digits changes the path of
    the search, not its result. *)
Theorem solveSudoku_unique (fuel : nat) (g h : grid) (w : world) :
  wf g -> count_empty g < fuel -> enumerates g [h] ->
  exists w', solveSudoku fuel g w = Some ((true, h), w').
Proof.
  intros Hwf Hfuel Hen.
  destruct (solve_returns_unique fuel g h w Hwf Hfuel Hen)
    as (res & w' & E & Eres).
  subst res. exists w'. exact E.
Qed.

Lemma solveSudoku_unique_witness :
  exists w',
    solveSudoku 82 a_puzzle sample_world = Some ((true, a_solution), w').
Proof.
  apply (solveSudoku_unique 82 a_puzzle a_solution sample_world).
  - apply wfb_correct. reflexivity.
  - pose proof (count_empty_le a_puzzle). lia.
  - apply a_puzzle_unique.
Defined.



(** ** The solution counter *)

(** X10. The counting search leaves the grid as it found it, for every
    grid (valid or not), every starting count and every limit; the count
    never goes down and never passes the larger of the starting count
    and the limit. *)
Theorem countSolutionsDFS_restores (fuel : nat) (g : grid) (count limit : Z)
        (w : world) :
  wf g -> count_empty g < fuel ->
  exists count' w',
    countSolutionsDFS fuel g count limit w = Some ((g, count'), w') /\
    (count <= count' <= Z.max count limit)%Z.
Proof.
  intros Hwf Hfuel.
  destruct (countSolutionsDFS_spec limit fuel g count w Hwf Hfuel)
    as [[g' c'] [w' [E P]]].
  destruct P as (Eg & Hb & _). simpl in *. subst g'.
  exists c', w'. split; assumption.
Qed.

Lemma countSolutionsDFS_restores_witness :
  exists count' w',
    countSolutionsDFS 82 a_puzzle 0 2 sample_world
    = Some ((a_puzzle, count'), w') /\
    (0 <= count' <= Z.max 0 2)%Z.
Proof.
  apply (countSolutionsDFS_restores 82 a_puzzle 0 2 sample_world).
  - apply wfb_correct. reflexivity.
  - pose proof (count_empty_le a_puzzle). lia.
Defined.

(** X11. Called with limit 2 on a grid with cells 0-9 and no duplicate
    digit in a row, column or box, [countSolutions] tells the three
    cases apart: it returns 0 exactly when the grid has no full valid
    completion, 1 exactly when it has one and only one, and 2 exactly
    when it has two different ones. *)
Theorem countSolutions_classifies (fuel : nat) (g : grid) (w : world) :
  wf g -> in_range g -> no_dup g -> count_empty g < fuel ->
  exists cnt w',
    countSolutions fuel g 2 w = Some ((g, cnt), w') /\
    (cnt = 0%Z <-> forall h, ~ completion g h) /\
    (cnt = 1%Z <->
     exists h, completion g h /\ forall h', completion g h' -> h' = h) /\
    (cnt = 2%Z <->
     exists h h', h <> h' /\ completion g h /\ completion g h').
Proof.
  intros Hwf Hr Hn Hfuel.
  destruct (enumeration_exists 81 g Hwf (count_empty_le g)) as [L HE].
  destruct (countSolutions_spec fuel g 2 w Hwf Hfuel) as [[g' c'] [w' [E P]]].
  destruct P as (Eg & _ & HL & _). simpl in *. subst g'.
  specialize (HL L ltac:(lia) Hr Hn HE).
  exists c', w'. split; [assumption|].
  destruct HE as [ND HC].
  destruct L as [|a [|b t]]; simpl in HL.
  - assert (Ec : c' = 0%Z) by lia. clear HL. subst c'.
    split; [|split].
    + split; [|reflexivity]. intros _ h Hh. now apply HC in Hh.
    + split; [discriminate|]. intros (h & Hh & _). now apply HC in Hh.
    + split; [discriminate|]. intros (h & _ & _ & Hh & _). now apply HC in Hh.
  - assert (Ec : c' = 1%Z) by lia. clear HL. subst c'.
    assert (Ha : completion g a) by (apply HC; now left).
    split; [|split].
    + split; [discriminate|]. intros Hno. exfalso. exact (Hno a Ha).
    + split; [|reflexivity]. intros _. exists a. split; [assumption|].
      intros h' Hh'. apply HC in Hh'. destruct Hh' as [<-|[]]. reflexivity.
    + split; [discriminate|]. intros (h & h' & Hne & Hh & Hh').
      apply HC in Hh, Hh'. destruct Hh as [<-|[]]. destruct Hh' as [<-|[]].
      congruence.
  - assert (Ec : c' = 2%Z) by lia. clear HL. subst c'.
    assert (Ha : completion g a) by (apply HC; now left).
    assert (Hb : completion g b) by (apply HC; right; now left).
    assert (Hab : a <> b).
    { inversion ND as [|? ? Hnin _]. intros ->. apply Hnin. now left. }
    split; [|split].
    + split; [discriminate|]. intros Hno. exfalso. exact (Hno a Ha).
    + split; [discriminate|]. intros (h & _ & Hu).
      exfalso. apply Hab. rewrite (Hu a Ha), (Hu b Hb). reflexivity.
    + split; [|reflexivity]. intros _. exists a, b. auto.
Qed.

Lemma countSolutions_classifies_witness :
  exists cnt w',
    countSolutions 82 two_way_grid 2 sample_world
    = Some ((two_way_grid, cnt), w') /\
    (cnt = 0%Z <-> forall h, ~ completion two_way_grid h) /\
    (cnt = 1%Z <->
     exists h, completion two_way_grid h /\
               forall h', completion two_way_grid h' -> h' = h) /\
    (cnt = 2%Z <->
     exists h h', h <> h' /\ completion two_way_grid h /\
                  completion two_way_grid h').
Proof.
  apply (countSolutions_classifies 82 two_way_grid sample_world).
  - apply wfb_correct. reflexivity.
  - apply in_rangeb_correct. vm_compute. reflexivity.
  - apply no_dupb_correct. vm_compute. reflexivity.
  - pose proof (count_empty_le two_way_grid). lia.
Defined.

(** X12. The solver and the counter agree: on a grid with cells 0-9
    and no duplicate digit, [solveSudoku] returns true exactly when
    [countSolutions] (with a limit of at least 1) returns a count of at
    least 1, whatever random numbers the two calls draw. *)
Theorem solveSudoku_iff_counted (fuel : nat) (g : grid) (limit : Z)
        (w1 w2 : world) :
  wf g -> in_range g -> no_dup g -> (1 <= limit)%Z -> count_empty g < fuel ->
  exists b g' w1' cnt w2',
    solveSudoku fuel g w1 = Some ((b, g'), w1') /\
    countSolutions fuel g limit w2 = Some ((g, cnt), w2') /\
    (b = true <-> (1 <= cnt)%Z).
Proof.
  intros Hwf Hr Hn Hl Hfuel.
  destruct (enumeration_exists 81 g Hwf (count_empty_le g)) as [L HE].
  destruct (countSolutions_spec fuel g limit w2 Hwf Hfuel)
    as [[g2 c'] [w2' [E2 P2]]].
  destruct P2 as (Eg & _ & HL & _). simpl in *. subst g2.
  specialize (HL L ltac:(lia) Hr Hn HE).
  destruct (solveSudoku_spec fuel g w1 Hwf Hfuel) as [[b g'] [w1' [E1 P1]]].
  destruct P1 as (Hwf' & _ & Ht & Hc & Hr' & Hn' & _). simpl in *.
  exists b, g', w1', c', w2'. split; [assumption|]. split; [assumption|].
  destruct HE as [_ HC]. split.
  - intros ->. destruct (Ht eq_refl) as [Hf Ha].
    assert (Hin : In g' L).
    { apply HC. split; [assumption|]. split; [|assumption].
      apply full_valid_solved; auto. now apply Hn'. }
    destruct L; [contradiction|]. simpl in HL. lia.
  - intros Hc'. destruct b; [reflexivity|]. exfalso.
    destruct L as [|a t]; [simpl in HL; lia|].
    apply (Hc eq_refl a), HC. now left.
Qed.

Lemma solveSudoku_iff_counted_witness :
  exists b g' w1' cnt w2',
    solveSudoku 82 a_puzzle sample_world = Some ((b, g'), w1') /\
    countSolutions 82 a_puzzle 2 sample_world = Some ((a_puzzle, cnt), w2') /\
    (b = true <-> (1 <= cnt)%Z).
Proof.
  apply (solveSudoku_iff_counted 82 a_puzzle 2 sample_world sample_world).
  - apply wfb_correct. reflexivity.
  - apply in_rangeb_correct. vm_compute. reflexivity.
  - apply no_dupb_correct. vm_compute. reflexivity.
  - lia.
  - pose proof (count_empty_le a_puzzle). lia.
Defined.

(** ** Carving *)

Lemma returns_inv {A} (m : M A) w (Q : A -> world -> Prop) a w' :
  returns m w Q -> m w = Some (a, w') -> Q a w'.
Proof. intros [a0 [w0 [E HQ]]] E'. congruence. Qed.

Lemma agrees_clear g r c :
  wf g -> r < 9 -> c < 9 -> agrees (put g r c 0%Z) g.
Proof.
  intros Hwf Hr Hc r' c' Hr' Hc'. rewrite get_put by assumption.
  destruct (Nat.eq_dec r r') as [<-|N1];
    [destruct (Nat.eq_dec c c') as [<-|N1]|]; congruence.
Qed.

Lemma count_filled_clear_exact g r c :
  wf g -> r < 9 -> c < 9 -> get g r c <> 0%Z ->
  S (count_filled (put g r c 0%Z)) = count_filled g.
Proof.
  intros Hwf Hr Hc Hnz.
  pose proof (count_filled_clear g r c) as Hle.
  assert (Hlt : count_filled (put g r c 0%Z) < count_filled g).
  { unfold count_filled. apply filter_length_lt with (x := (r, c)).
    - intros [r' c'] _. simpl. rewrite get_put by assumption.
      destruct (Nat.eq_dec r r'); [destruct (Nat.eq_dec c c')|]; auto.
      discriminate.
    - apply in_all_cells; auto.
    - simpl. apply negb_true_iff. now apply Z.eqb_neq.
    - simpl. rewrite get_put_eq by assumption. reflexivity. }
  lia.
Qed.

Lemma cell_of_position r c : r < 9 -> c < 9 ->
  9 * r + c < 81 /\ (9 * r + c) / 9 = r /\ (9 * r + c) mod 9 = c.
Proof.
  intros Hr Hc. split; [lia|].
  rewrite (Nat.mul_comm 9 r). rewrite Nat.div_add_l by lia.
  rewrite Nat.Div0.add_mod, Nat.Div0.mod_mul, Nat.add_0_l, Nat.Div0.mod_mod.
  rewrite Nat.div_small, Nat.mod_small by lia. lia.
Qed.

Section CarveAnyGrid.
Variable fuel : nat.
Variable cells : list nat.
Variable toRemove : Z.
Hypothesis Hfuel : 81 < fuel.
Hypothesis Hcells : forall i, nth i cells 0 < 81.

Lemma carve_loop_clears idxs : forall g removed w,
  wf g ->
  returns (carve_loop fuel cells toRemove idxs g removed) w
    (fun res _ =>
       wf (fst res) /\ agrees (fst res) g /\
       (removed <= snd res <= Z.max removed toRemove)%Z /\
       (Z.of_nat (count_filled g) =
        Z.of_nat (count_filled (fst res)) + (snd res - removed))%Z).
Proof.
  induction idxs as [|idx rest IH]; intros g removed w Hwf; cbn [carve_loop].
  - apply returns_ret. simpl. conjs; auto using agrees_refl; lia.
  - destruct (Z.ltb_spec removed toRemove) as [Hlt|Hge];
      [|apply returns_ret; simpl; conjs; auto using agrees_refl; lia].
    cbv zeta. set (pos := nth idx cells 0).
    assert (Hpos : pos < 81) by apply Hcells.
    assert (Hr : pos / 9 < 9) by (apply Nat.Div0.div_lt_upper_bound; lia).
    assert (Hc : pos mod 9 < 9) by (apply Nat.mod_upper_bound; lia).
    set (r := pos / 9) in *. set (c := pos mod 9) in *.
    unfold UNASSIGNED.
    destruct (Z.eqb_spec (get g r c) 0) as [Hz|Hnz].
    + eapply returns_weaken; [apply (IH g removed w Hwf)|].
      intros [g' rem'] w' H. exact H.
    + set (g1 := put g r c 0%Z).
      assert (Hwf1 : wf g1) by now apply wf_put.
      pose proof (count_filled_clear_exact g r c Hwf Hr Hc Hnz) as Hcnt1.
      fold g1 in Hcnt1.
      apply returns_bind. eapply returns_weaken.
      { apply countSolutions_spec; [assumption|].
        pose proof (count_empty_le g1). lia. }
      intros [g2 cnt] w2 (Eg & _). simpl in Eg. subst g2. cbv beta iota.
      destruct (Z.eqb_spec cnt 1) as [Hone|Hnot].
      * eapply returns_weaken; [apply (IH g1 (removed + 1)%Z w2 Hwf1)|].
        intros [g' rem'] w' (Hwf' & Hag & Hrem & Hcnt). simpl in *.
        conjs; auto; try lia.
        apply (agrees_trans g' g1 g); auto. now apply agrees_clear.
      * assert (Eback : put g1 r c (get g r c) = g) by apply put_put_back.
        rewrite Eback.
        eapply returns_weaken; [apply (IH g removed w2 Hwf)|].
        intros [g' rem'] w' H. exact H.
Qed.
End CarveAnyGrid.

Lemma shuffled_cells_spec w :
  returns (shuffle_loop 0 (downfrom 80) (seq 0 81)) w
    (fun cells w' =>
       Permutation (seq 0 81) cells /\ (forall i, nth i cells 0 < 81) /\
       randoms w' = randoms w /\ drawn w' = (drawn w + 80)%N /\
       history w' = history w).
Proof.
  destruct (shuffle_loop_world 0 (downfrom 80) (seq 0 81) w)
    as (cells & w' & E & Hr & Hd & Hh).
  assert (HP : Permutation (seq 0 81) cells).
  { refine (proj1 (returns_inv _ w _ cells w'
                     (shuffle_loop_spec Nat.eq_dec 0 (downfrom 80) (seq 0 81) w _)
                     E)).
    intros i Hi. unfold downfrom in Hi. apply in_rev, in_seq in Hi.
    rewrite length_seq. lia. }
  exists cells, w'. split; [exact E|]. split; [exact HP|]. split.
  - intros i. destruct (nth_in_or_default i cells 0) as [Hin | ->]; [|lia].
    apply (Permutation_in _ (Permutation_sym HP)), in_seq in Hin. lia.
  - split; [exact Hr|]. split; [|exact Hh]. rewrite Hd. reflexivity.
Qed.

(** X13. [carveUnique] only clears cells, whatever grid it is given:
    every cell that is filled in the grid it leaves holds what it held
    before, and the number of cells cleared is at most [toRemove] (none
    when [toRemove] is not positive). *)
Theorem carveUnique_only_clears (fuel : nat) (g : grid) (toRemove : Z)
        (w : world) :
  wf g -> 81 < fuel ->
  exists g' w',
    carveUnique fuel g toRemove w = Some (g', w') /\
    wf g' /\ agrees g' g /\
    (0 <= Z.of_nat (count_filled g) - Z.of_nat (count_filled g')
       <= Z.max 0 toRemove)%Z.
Proof.
  intros Hwf Hfuel. unfold carveUnique.
  destruct (shuffled_cells_spec w) as (cells & w1 & E1 & _ & Hcells & _).
  destruct (carve_loop_clears fuel cells toRemove Hfuel Hcells (seq 0 81)
              g 0%Z w1 Hwf) as ([g' rem] & w' & E2 & P).
  destruct P as (Hwf' & Hag & Hrem & Hcnt). cbn [fst snd] in *.
  exists g', w'. split.
  - unfold bind. rewrite E1, E2. reflexivity.
  - conjs; auto; lia.
Qed.

Lemma carveUnique_only_clears_witness :
  exists g' w',
    carveUnique 82 a_puzzle 5 sample_world = Some (g', w') /\
    wf g' /\ agrees g' a_puzzle /\
    (0 <= Z.of_nat (count_filled a_puzzle) - Z.of_nat (count_filled g')
       <= Z.max 0 5)%Z.
Proof.
  apply (carveUnique_only_clears 82 a_puzzle 5 sample_world);
    [apply wfb_correct; reflexivity|lia].
Defined.

Lemma carve_loop_done fuel cells toRemove idxs g removed w :
  (toRemove <= removed)%Z ->
  carve_loop fuel cells toRemove idxs g removed w = Some ((g, removed), w).
Proof.
  intros Hle. destruct idxs as [|idx rest]; cbn [carve_loop]; [reflexivity|].
  destruct (Z.ltb_spec removed toRemove) as [Hlt|_]; [lia|reflexivity].
Qed.

(** X14. With [toRemove] at most 0 [carveUnique] returns the grid as it
    is, after drawing the 80 random numbers of its shuffle and without
    calling the solution counter. *)
Theorem carveUnique_nothing_to_remove (fuel : nat) (g : grid) (toRemove : Z)
        (w : world) :
  (toRemove <= 0)%Z ->
  exists w',
    carveUnique fuel g toRemove w = Some (g, w') /\
    randoms w' = randoms w /\ drawn w' = (drawn w + 80)%N /\
    history w' = history w.
Proof.
  intros Hle. unfold carveUnique.
  destruct (shuffled_cells_spec w) as (cells & w1 & E1 & _ & _ & Hr & Hd & Hh).
  exists w1. split; [|auto].
  unfold bind. rewrite E1.
  rewrite (carve_loop_done fuel cells toRemove (seq 0 81) g 0%Z w1 Hle).
  reflexivity.
Qed.

Lemma carveUnique_nothing_to_remove_witness :
  exists w',
    carveUnique 0 a_puzzle 0 sample_world = Some (a_puzzle, w') /\
    randoms w' = randoms sample_world /\
    drawn w' = (drawn sample_world + 80)%N /\
    history w' = history sample_world.
Proof. apply (carveUnique_nothing_to_remove 0 a_puzzle 0 sample_world). lia. Defined.

Lemma grid_eq_dec (g h : grid) : {g = h} + {g <> h}.
Proof. apply list_eq_dec, list_eq_dec, Z.eq_dec. Qed.

(** What is true of a cell cleared from a grid stays true when more
    cells are cleared. *)
Lemma second_completion_mono sol g g' r c :
  wf g -> wf g' -> r < 9 -> c < 9 -> agrees g' g ->
  second_completion sol g r c -> second_completion sol g' r c.
Proof.
  intros Hwf Hwf' Hr Hc Hag (h & Hne & Hwh & Hs & Ha).
  exists h. split; [assumption|]. split; [assumption|]. split; [assumption|].
  intros r' c' Hr' Hc' Hnz. rewrite get_put in * by assumption.
  specialize (Ha r' c' Hr' Hc'). rewrite get_put in Ha by assumption.
  destruct (Nat.eq_dec r r') as [<-|N1];
    [destruct (Nat.eq_dec c c') as [<-|N1]|]; try congruence.
  - rewrite <- (Hag r c' Hr' Hc' Hnz). apply Ha.
    rewrite (Hag r c' Hr' Hc' Hnz). assumption.
  - rewrite <- (Hag r' c' Hr' Hc' Hnz). apply Ha.
    rewrite (Hag r' c' Hr' Hc' Hnz). assumption.
Qed.

(** A removal that the counter rejects would let in another completion. *)
Lemma rejected_removal sol g r c cnt :
  carved sol g -> r < 9 -> c < 9 ->
  (forall L, in_range (put g r c 0%Z) -> no_dup (put g r c 0%Z) ->
             enumerates (put g r c 0%Z) L ->
             cnt = Z.min (Z.of_nat (List.length L)) 2) ->
  cnt <> 1%Z -> second_completion sol g r c.
Proof.
  intros Hcv Hr Hc HL Hnot.
  pose proof (carved_completion sol g Hcv) as (Hws & Hss & Has).
  destruct Hcv as (Hwf & Hrange & Hnd & _).
  set (g1 := put g r c 0%Z) in *.
  assert (Hwf1 : wf g1) by now apply wf_put.
  assert (Hrange1 : in_range g1) by (apply in_range_put; auto; lia).
  assert (Hnd1 : no_dup g1) by now apply no_dup_put_zero.
  destruct (enumeration_exists 81 g1 Hwf1 (count_empty_le g1)) as [L1 HE1].
  specialize (HL L1 Hrange1 Hnd1 HE1).
  destruct HE1 as [ND HC].
  assert (Hsol : In sol L1).
  { apply HC. split; [assumption|]. split; [assumption|].
    now apply agrees_put_zero. }
  destruct L1 as [|a [|b t]]; simpl in HL; [contradiction|lia|].
  assert (Hab : a <> b).
  { inversion ND as [|? ? Hnin _]. intros ->. apply Hnin. now left. }
  destruct (grid_eq_dec a sol) as [Ea|Ea].
  - exists b. split; [congruence|]. apply HC. right; now left.
  - exists a. split; [assumption|]. apply HC. now left.
Qed.

Section CarveMinimal.
Variable fuel : nat.
Variable cells : list nat.
Variable toRemove : Z.
Variable sol : grid.
Hypothesis Hfuel : 81 < fuel.
Hypothesis Hcells : forall i, nth i cells 0 < 81.

Lemma carve_loop_minimal idxs : forall g removed w,
  carved sol g ->
  returns (carve_loop fuel cells toRemove idxs g removed) w
    (fun res _ =>
       wf (fst res) /\ agrees (fst res) g /\
       ((snd res < toRemove)%Z ->
        forall idx, In idx idxs ->
          get (fst res) (nth idx cells 0 / 9) (nth idx cells 0 mod 9) <> 0%Z ->
          second_completion sol (fst res)
            (nth idx cells 0 / 9) (nth idx cells 0 mod 9))).
Proof.
  induction idxs as [|idx rest IH]; intros g removed w Hinv;
    cbn [carve_loop].
  - apply returns_ret. simpl. destruct Hinv as (Hwf & _).
    conjs; auto using agrees_refl. intros _ idx [].
  - pose proof Hinv as (Hwf & Hrange & Hnd & Henum).
    destruct (Z.ltb_spec removed toRemove) as [Hlt|Hge].
    2:{ apply returns_ret. simpl. conjs; auto using agrees_refl. lia. }
    cbv zeta. set (pos := nth idx cells 0).
    assert (Hpos : pos < 81) by apply Hcells.
    assert (Hr : pos / 9 < 9) by (apply Nat.Div0.div_lt_upper_bound; lia).
    assert (Hc : pos mod 9 < 9) by (apply Nat.mod_upper_bound; lia).
    unfold UNASSIGNED.
    destruct (Z.eqb_spec (get g (pos / 9) (pos mod 9)) 0) as [Hz|Hnz].
    + eapply returns_weaken; [apply (IH g removed w Hinv)|].
      intros [g' rem'] w' (Hwf' & Hag & Hmin). simpl in *.
      conjs; auto. intros Hrem i [<-|Hi] Hcell; [|now apply Hmin].
      exfalso. fold pos in Hcell. rewrite (Hag _ _ Hr Hc Hcell) in Hz.
      contradiction.
    + set (g1 := put g (pos / 9) (pos mod 9) 0%Z).
      assert (Hwf1 : wf g1) by now apply wf_put.
      apply returns_bind. eapply returns_weaken.
      { apply countSolutions_spec; [assumption|].
        pose proof (count_empty_le g1). lia. }
      intros [g2 cnt] w2 (Eg & _ & HL & _). simpl in Eg, HL. subst g2.
      cbv beta iota.
      destruct (Z.eqb_spec cnt 1) as [Hone|Hnot].
      * assert (Hinv1 : carved sol g1).
        { assert (Hrange1 : in_range g1) by (apply in_range_put; auto; lia).
          assert (Hnd1 : no_dup g1) by now apply no_dup_put_zero.
          split; [assumption|]. split; [assumption|]. split; [assumption|].
          destruct (enumeration_exists 81 g1 Hwf1 (count_empty_le g1))
            as [L1 HE1].
          assert (Hlen : List.length L1 = 1).
          { pose proof (HL L1 ltac:(lia) Hrange1 Hnd1 HE1). lia. }
          assert (Hsol : In sol L1).
          { apply HE1.
            destruct (carved_completion sol g Hinv) as (Hws & Hss & Has).
            split; [assumption|]. split; [assumption|].
            now apply agrees_put_zero. }
          destruct L1 as [|a [|b t]]; simpl in Hlen; try discriminate.
          destruct Hsol as [->|[]]. exact HE1. }
        eapply returns_weaken; [apply (IH g1 (removed + 1)%Z w2 Hinv1)|].
        intros [g' rem'] w' (Hwf' & Hag & Hmin). simpl in *.
        assert (Hag1 : agrees g1 g) by now apply agrees_clear.
        conjs; auto.
        { apply (agrees_trans g' g1 g); auto. }
        intros Hrem i [<-|Hi] Hcell; [|now apply Hmin].
        exfalso. fold pos in Hcell.
        pose proof (Hag _ _ Hr Hc Hcell) as X. unfold g1 in X.
        rewrite get_put_eq in X by assumption. congruence.
      * assert (Eback : put g1 (pos / 9) (pos mod 9)
                            (get g (pos / 9) (pos mod 9)) = g)
          by apply put_put_back.
        rewrite Eback.
        assert (Hsecond : second_completion sol g (pos / 9) (pos mod 9)).
        { apply (rejected_removal sol g _ _ cnt Hinv Hr Hc); [|assumption].
          intros L R ND HE. apply HL; auto. lia. }
        eapply returns_weaken; [apply (IH g removed w2 Hinv)|].
        intros [g' rem'] w' (Hwf' & Hag & Hmin). simpl in *.
        conjs; auto. intros Hrem i [<-|Hi] Hcell; [|now apply Hmin].
        fold pos. now apply (second_completion_mono sol g g').
Qed.
End CarveMinimal.

Lemma carveUnique_minimal fuel sol toRemove w :
  81 < fuel -> wf sol -> solved sol ->
  returns (carveUnique fuel sol toRemove) w
    (fun g' _ =>
       wf g' /\
       ((81 - Z.of_nat (count_filled g') < toRemove)%Z ->
        forall r c, r < 9 -> c < 9 -> get g' r c <> 0%Z ->
                    second_completion sol g' r c)).
Proof.
  intros Hfuel Hwf Hs. unfold carveUnique.
  destruct (shuffled_cells_spec w) as (cells & w1 & E1 & HP & Hcells & _).
  pose proof (carved_solution sol Hwf Hs) as Hcv.
  destruct (carve_loop_minimal fuel cells toRemove sol Hfuel Hcells
              (seq 0 81) sol 0%Z w1 Hcv) as ([g' rem] & w' & E2 & P).
  pose proof (returns_inv _ _ _ _ _
                (carve_loop_clears fuel cells toRemove Hfuel Hcells
                   (seq 0 81) sol 0%Z w1 Hwf) E2) as Q.
  destruct P as (Hwf' & Hag & Hmin). destruct Q as (_ & _ & Hrem & Hcnt).
  cbn [fst snd] in *.
  exists g', w'. split; [unfold bind; rewrite E1, E2; reflexivity|].
  split; [assumption|].
  intros Hfew r c Hr Hc Hnz.
  rewrite (count_filled_full sol (solved_full _ Hs)) in Hcnt.
  destruct (cell_of_position r c Hr Hc) as (Hpos & Ediv & Emod).
  assert (Hin : In (9 * r + c) cells).
  { apply (Permutation_in _ HP), in_seq. lia. }
  destruct (In_nth cells (9 * r + c) 0 Hin) as (idx & Hidx & Enth).
  assert (Hidx' : In idx (seq 0 81)).
  { apply in_seq. rewrite <- (Permutation_length HP), length_seq in Hidx. lia. }
  specialize (Hmin ltac:(lia) idx Hidx').
  rewrite Enth, Ediv, Emod in Hmin. now apply Hmin.
Qed.

(** X15. When the puzzle [generatePuzzle] returns keeps more clues
    than the target drawn for the difficulty, no further clue can go:
    clearing any one filled cell of the puzzle gives a grid with a
    completion other than the solution, on which [countSolutions]
    returns 2. *)
Theorem generatePuzzle_minimal (fuel : nat) (out : grid) (difficulty : string)
        (w : world) :
  wf out -> 81 < fuel ->
  exists sol w1 clues w2 puzzle w',
    fillGrid fuel (clear_cells out) w = Some ((true, sol), w1) /\
    pick_clues difficulty w1 = Some (clues, w2) /\
    generatePuzzle (S fuel) out difficulty w = Some (puzzle, w') /\
    ((clues < Z.of_nat (count_filled puzzle))%Z ->
     forall r c, r < 9 -> c < 9 -> get puzzle r c <> 0%Z ->
       second_completion sol puzzle r c /\
       forall w3, exists w4,
         countSolutions fuel (put puzzle r c 0%Z) 2 w3
         = Some ((put puzzle r c 0%Z, 2%Z), w4)).
Proof.
  intros Hwf Hfuel.
  destruct (generatePuzzle_run fuel out difficulty w Hwf Hfuel)
    as (sol & w1 & clues & w2 & puzzle & w3 &
        E1 & Hws & Hs & E2 & E3 & E4 & Hc & _).
  exists sol, w1, clues, w2, puzzle, w3.
  rewrite (clear_cells_zero out Hwf).
  split; [assumption|]. split; [assumption|]. split; [assumption|].
  pose proof (returns_inv _ _ _ _ _
                (carveUnique_minimal fuel sol (81 - clues)%Z w2 Hfuel Hws Hs)
                E3) as (Hwp & Hmin).
  intros Hmore r c Hr Hcc Hnz.
  assert (Hsec : second_completion sol puzzle r c)
    by (apply Hmin; auto; lia).
  split; [assumption|].
  intros w4.
  pose proof (carved_completion sol puzzle Hc) as (_ & _ & Hag).
  destruct Hc as (_ & Hrp & Hnp & _).
  set (g1 := put puzzle r c 0%Z) in *.
  assert (Hwf1 : wf g1) by now apply wf_put.
  assert (Hrange1 : in_range g1) by (apply in_range_put; auto; lia).
  assert (Hnd1 : no_dup g1) by now apply no_dup_put_zero.
  destruct (enumeration_exists 81 g1 Hwf1 (count_empty_le g1)) as [L1 HE1].
  destruct (countSolutions_spec fuel g1 2 w4 Hwf1) as [[g' c'] [w5 [E P]]].
  { pose proof (count_empty_le g1). lia. }
  destruct P as (Eg & _ & HL & _). cbn [fst snd] in *. subst g'.
  specialize (HL L1 ltac:(lia) Hrange1 Hnd1 HE1).
  destruct HE1 as [ND HC]. destruct Hsec as (h & Hne & Hh).
  assert (Hin1 : In sol L1).
  { apply HC. split; [assumption|]. split; [assumption|].
    now apply agrees_put_zero. }
  apply HC in Hh.
  assert (Hlen : 2 <= List.length L1).
  { destruct L1 as [|a [|b t]]; simpl in *; [contradiction| |lia].
    destruct Hin1 as [<-|[]]. destruct Hh as [<-|[]]. congruence. }
  exists w5. rewrite E. repeat f_equal. lia.
Qed.

Lemma generatePuzzle_minimal_witness :
  exists sol puzzle w',
    generatePuzzle 83 a_puzzle "hard" stuck_world = Some (puzzle, w') /\
    (24 < Z.of_nat (count_filled puzzle))%Z /\
    forall r c, r < 9 -> c < 9 -> get puzzle r c <> 0%Z ->
      second_completion sol puzzle r c /\
      forall w3, exists w4,
        countSolutions 82 (put puzzle r c 0%Z) 2 w3
        = Some ((put puzzle r c 0%Z, 2%Z), w4).
Proof.
  destruct (generatePuzzle_minimal 82 a_puzzle "hard" stuck_world)
    as (sol & w1 & clues & w2 & puzzle & w' & E1 & E2 & E3 & Hmin).
  - apply wfb_correct. reflexivity.
  - lia.
  - destruct (clues_of_run_inv _ _ _ _ _ generatePuzzle_stuck)
      as (b0 & v1 & v2 & p0 & v' & F1 & F2 & F3 & Hn).
    rewrite E1 in F1. injection F1 as _ Ew. subst v1.
    rewrite E2 in F2. injection F2 as Ec _. subst clues.
    rewrite E3 in F3. injection F3 as Ep _. subst p0.
    exists sol, puzzle, w'. split; [exact E3|].
    split; [rewrite Hn; reflexivity|].
    apply Hmin. rewrite Hn. reflexivity.
Defined.

(** ** The generator and its use *)

(** X16. [generatePuzzle] never reads what its output array held: for
    any two arrays, with the same difficulty and the same random
    numbers, the result is the same. *)
Theorem generatePuzzle_ignores_out (fuel : nat) (out1 out2 : grid)
        (difficulty : string) (w : world) :
  wf out1 -> wf out2 ->
  generatePuzzle fuel out1 difficulty w = generatePuzzle fuel out2 difficulty w.
Proof.
  intros H1 H2. destruct fuel as [|fuel]; [reflexivity|].
  cbn [generatePuzzle]. cbv zeta.
  now rewrite (clear_cells_zero out1 H1), (clear_cells_zero out2 H2).
Qed.

Lemma generatePuzzle_ignores_out_witness :
  generatePuzzle 83 a_puzzle "hard" sample_world
  = generatePuzzle 83 ones_grid "hard" sample_world.
Proof.
  apply (generatePuzzle_ignores_out 83 a_puzzle ones_grid "hard" sample_world);
    apply wfb_correct; reflexivity.
Defined.

(** X17. [copyGrid] overwrites all 81 cells of the destination: after
    it the destination equals the source, whatever it held before. *)
Theorem copyGrid_exact (src dst : grid) :
  wf src -> wf dst ->
  copyGrid src dst = src /\
  forall r c, r < 9 -> c < 9 -> get (copyGrid src dst) r c = get src r c.
Proof.
  intros Hs Hd. unfold copyGrid.
  rewrite (copy_cells_exact src dst Hs Hd). split; reflexivity.
Qed.

Lemma copyGrid_exact_witness :
  copyGrid a_puzzle ones_grid = a_puzzle /\
  forall r c, r < 9 -> c < 9 ->
              get (copyGrid a_puzzle ones_grid) r c = get a_puzzle r c.
Proof.
  apply (copyGrid_exact a_puzzle ones_grid); apply wfb_correct; reflexivity.
Defined.

(** X18. Solving a generated puzzle gives back the solution it was
    carved from: on a copy of the puzzle [generatePuzzle] returns,
    [solveSudoku] returns true and leaves the grid [fillGrid] built,
    whatever random numbers it draws. *)
Theorem generated_puzzle_solved (fuel : nat) (out : grid) (difficulty : string)
        (w : world) :
  wf out -> 81 < fuel ->
  exists sol w1 puzzle w',
    fillGrid fuel (clear_cells out) w = Some ((true, sol), w1) /\
    generatePuzzle (S fuel) out difficulty w = Some (puzzle, w') /\
    forall work w2, wf work ->
      exists w3,
        solveSudoku fuel (copyGrid puzzle work) w2 = Some ((true, sol), w3).
Proof.
  intros Hwf Hfuel.
  destruct (generatePuzzle_run fuel out difficulty w Hwf Hfuel)
    as (sol & w1 & clues & w2 & puzzle & w3 &
        E1 & Hws & Hs & _ & _ & E3 & Hc & _).
  exists sol, w1, puzzle, w3.
  rewrite (clear_cells_zero out Hwf).
  split; [assumption|]. split; [assumption|].
  intros work w4 Hwork. destruct Hc as (Hwp & _ & _ & Hen).
  unfold copyGrid. rewrite (copy_cells_exact puzzle work Hwp Hwork).
  destruct (solve_returns_unique fuel puzzle sol w4 Hwp) as (res & w5 & E & ->);
    auto.
  - pose proof (count_empty_le puzzle). lia.
  - exists w5. exact E.
Qed.

Lemma generated_puzzle_solved_witness :
  exists sol w1 puzzle w',
    fillGrid 82 (clear_cells a_puzzle) sample_world = Some ((true, sol), w1) /\
    generatePuzzle 83 a_puzzle "medium" sample_world = Some (puzzle, w') /\
    forall work w2, wf work ->
      exists w3,
        solveSudoku 82 (copyGrid puzzle work) w2 = Some ((true, sol), w3).
Proof.
  apply (generated_puzzle_solved 82 a_puzzle "medium" sample_world);
    [apply wfb_correct; reflexivity|lia].
Defined.

(** ** Printing *)

Lemma append_assoc (a b c : string) :
  ((a ++ b) ++ c = a ++ (b ++ c))%string.
Proof. induction a as [|x a IH]; simpl; [reflexivity|now rewrite IH]. Qed.

Lemma append_empty (a : string) : (a ++ "" = a)%string.
Proof. induction a as [|x a IH]; simpl; [reflexivity|now rewrite IH]. Qed.

Lemma show_cell (o : string) (z : Z) :
  (0 <= z <= 9)%Z ->
  (if Z.eqb z 0 then (o ++ ". ")%string
   else ((o ++ show_int z) ++ " ")%string)
  = (o ++ String (cell_char z) " ")%string.
Proof.
  intros H.
  assert (D : (z = 0 \/ z = 1 \/ z = 2 \/ z = 3 \/ z = 4 \/ z = 5 \/ z = 6 \/
               z = 7 \/ z = 8 \/ z = 9)%Z) by lia.
  destruct D as [D|[D|[D|[D|[D|[D|[D|[D|[D|D]]]]]]]]]; subst z;
    cbn [Z.eqb]; rewrite ?append_assoc; reflexivity.
Qed.

Lemma print_cells g r cols : forall o,
  (forall c, In c cols -> (0 <= get g r c <= 9)%Z) ->
  fold_left (fun o c =>
      let o1 := if Z.eqb (get g r c) 0 then (o ++ ". ")%string
                else ((o ++ show_int (get g r c)) ++ " ")%string in
      if Nat.eqb ((c + 1) mod 3) 0 then (o1 ++ "| ")%string else o1)
    cols o
  = (o ++ String.concat ""
            (map (cell_text (fun r c => cell_char (get g r c)) r) cols))%string.
Proof.
  induction cols as [|c rest IH]; intros o H; cbn [fold_left map].
  - simpl. now rewrite append_empty.
  - cbv zeta. rewrite show_cell by (apply H; now left).
    rewrite IH by (intros c' Hc'; apply H; now right).
    assert (E : forall l x, String.concat "" (x :: l) = (x ++ String.concat "" l)%string).
    { intros l x. destruct l as [|y l]; simpl; [now rewrite append_empty|reflexivity]. }
    rewrite E. unfold cell_text at 2.
    destruct (Nat.eqb ((c + 1) mod 3) 0); rewrite ?append_assoc, ?append_empty;
      reflexivity.
Qed.

Lemma print_rows g rows : forall o,
  (forall r c, In r rows -> c < 9 -> (0 <= get g r c <= 9)%Z) ->
  fold_left (fun out r =>
    let out1 := (out ++ "| ")%string in
    let out2 :=
      fold_left (fun o c =>
        let o1 := if Z.eqb (get g r c) 0 then (o ++ ". ")%string
                  else ((o ++ show_int (get g r c)) ++ " ")%string in
        if Nat.eqb ((c + 1) mod 3) 0 then (o1 ++ "| ")%string else o1)
        (seq 0 N) out1 in
    let out3 := (out2 ++ nl)%string in
    if Nat.eqb ((r + 1) mod 3) 0 then (out3 ++ border)%string else out3)
    rows o
  = (o ++ String.concat ""
            (map (row_text (fun r c => cell_char (get g r c))) rows))%string.
Proof.
  induction rows as [|r rest IH]; intros o H; cbn [fold_left map].
  - simpl. now rewrite append_empty.
  - cbv zeta. rewrite print_cells.
    2:{ intros c Hc. apply H; [now left|]. apply in_seq in Hc. unfold N in Hc. lia. }
    rewrite IH by (intros r' c' Hr' Hc'; apply H; [now right|assumption]).
    assert (E : forall l x, String.concat "" (x :: l) = (x ++ String.concat "" l)%string).
    { intros l x. destruct l as [|y l]; simpl; [now rewrite append_empty|reflexivity]. }
    rewrite E. unfold row_text at 2. unfold N.
    destruct (Nat.eqb ((r + 1) mod 3) 0); rewrite ?append_assoc, ?append_empty;
      reflexivity.
Qed.

Lemma printGrid_board g :
  in_range g -> printGrid g = board_text (fun r c => cell_char (get g r c)).
Proof.
  intros H. unfold printGrid, board_text. apply print_rows.
  intros r c Hr Hc. apply in_seq in Hr. apply H; unfold N in *; lia.
Qed.

Lemma board_text_length ch : String.length (board_text ch) = 347.
Proof. reflexivity. Qed.

Lemma board_text_get ch r c :
  r < 9 -> c < 9 -> String.get (cell_offset r c) (board_text ch) = Some (ch r c).
Proof.
  intros Hr Hc. revert c Hc. enum9 r Hr; intros c Hc; enum9 c Hc; reflexivity.
Qed.

Lemma cell_char_inj z z' :
  (0 <= z <= 9)%Z -> (0 <= z' <= 9)%Z -> cell_char z = cell_char z' -> z = z'.
Proof.
  intros H H'.
  assert (D : (z = 0 \/ z = 1 \/ z = 2 \/ z = 3 \/ z = 4 \/ z = 5 \/ z = 6 \/
               z = 7 \/ z = 8 \/ z = 9)%Z) by lia.
  assert (D' : (z' = 0 \/ z' = 1 \/ z' = 2 \/ z' = 3 \/ z' = 4 \/ z' = 5 \/
                z' = 6 \/ z' = 7 \/ z' = 8 \/ z' = 9)%Z) by lia.
  destruct D as [D|[D|[D|[D|[D|[D|[D|[D|[D|D]]]]]]]]]; subst z;
    destruct D' as [D|[D|[D|[D|[D|[D|[D|[D|[D|D]]]]]]]]]; subst z';
    intros E; try reflexivity; vm_compute in E; discriminate.
Qed.

(** X19. For a grid with cells 0-9 [printGrid] writes a fixed-width
    picture: 347 characters (13 lines), in which the cell [(r, c)]
    stands at the offset [cell_offset r c], as a dot when it is empty
    and as its digit otherwise. *)
Theorem printGrid_layout (g : grid) :
  in_range g ->
  String.length (printGrid g) = 347 /\
  forall r c, r < 9 -> c < 9 ->
    String.get (cell_offset r c) (printGrid g) = Some (cell_char (get g r c)).
Proof.
  intros H. rewrite (printGrid_board g H). split.
  - apply board_text_length.
  - intros r c Hr Hc.
    apply (board_text_get (fun r c => cell_char (get g r c)) r c Hr Hc).
Qed.

Lemma printGrid_layout_witness :
  String.length (printGrid a_puzzle) = 347 /\
  forall r c, r < 9 -> c < 9 ->
    String.get (cell_offset r c) (printGrid a_puzzle)
    = Some (cell_char (get a_puzzle r c)).
Proof.
  apply (printGrid_layout a_puzzle).
  apply in_rangeb_correct. vm_compute. reflexivity.
Defined.

(** X20. The picture determines the grid: two 9x9 grids with cells 0-9
    that [printGrid] prints alike are equal. *)
Theorem printGrid_injective (g h : grid) :
  wf g -> wf h -> in_range g -> in_range h ->
  printGrid g = printGrid h -> g = h.
Proof.
  intros Hwg Hwh Hg Hh E. apply grid_ext; auto.
  intros r c Hr Hc.
  pose proof (board_text_get (fun r c => cell_char (get g r c)) r c Hr Hc) as Lg.
  pose proof (board_text_get (fun r c => cell_char (get h r c)) r c Hr Hc) as Lh.
  rewrite <- (printGrid_board g Hg) in Lg.
  rewrite <- (printGrid_board h Hh) in Lh.
  rewrite E, Lh in Lg. inversion Lg as [X].
  symmetry. apply cell_char_inj;
    [apply Hh; assumption|apply Hg; assumption|exact X].
Qed.

Lemma printGrid_injective_witness : copyGrid a_puzzle ones_grid = a_puzzle.
Proof.
  apply (printGrid_injective (copyGrid a_puzzle ones_grid) a_puzzle).
  - apply wfb_correct. vm_compute. reflexivity.
  - apply wfb_correct. reflexivity.
  - apply in_rangeb_correct. vm_compute. reflexivity.
  - apply in_rangeb_correct. vm_compute. reflexivity.
  - vm_compute. reflexivity.
Defined.

(** ** The command line *)

Lemma main_generates fuel difficulty w :
  81 < fuel ->
  exists sol puzzle w1,
    generatePuzzle (S fuel) local_array difficulty w = Some (puzzle, w1) /\
    wf puzzle /\ enumerates puzzle [sol] /\
    forall w2, exists w3,
      solveSudoku (S fuel) (copyGrid puzzle local_array) w2
      = Some ((true, sol), w3).
Proof.
  intros Hfuel.
  destruct (generatePuzzle_run fuel local_array difficulty w local_array_wf Hfuel)
    as (sol & w1 & clues & w2 & puzzle & w3 &
        E1 & Hws & Hs & _ & _ & E3 & Hc & _).
  exists sol, puzzle, w3. destruct Hc as (Hwp & _ & _ & Hen).
  split; [assumption|]. split; [assumption|]. split; [assumption|].
  intros w4.
  unfold copyGrid. rewrite (copy_cells_exact puzzle local_array Hwp local_array_wf).
  destruct (solve_returns_unique (S fuel) puzzle sol w4 Hwp)
    as (res & w5 & E & ->); auto.
  - pose proof (count_empty_le puzzle). lia.
  - exists w5. exact E.
Qed.

(** X21. Asked to solve (choice 1), the program shows the generated
    puzzle and then, under the heading Solution, the one and only
    completion of that puzzle; the message for an unsolvable puzzle is
    never shown, and the program returns 0. *)
Theorem main_shows_solution (fuel : nat) (difficulty : string) (w : world) :
  81 < fuel ->
  exists puzzle sol w',
    main (S fuel) (Some difficulty) 1 w
    = Some (mkShown 0
              ((banner ++ nl ++ "Generated " ++ difficulty ++ " puzzle:" ++ nl
                ++ printGrid puzzle ++ menu)
               ++ nl ++ "Solution:" ++ nl ++ printGrid sol)%string
              EmptyString, w') /\
    enumerates puzzle [sol].
Proof.
  intros Hfuel.
  destruct (main_generates fuel difficulty w Hfuel)
    as (sol & puzzle & w1 & E1 & _ & Hen & Hsolve).
  destruct (Hsolve w1) as [w2 E2].
  exists puzzle, sol, w2. split; [|assumption].
  unfold main, bind. rewrite E1. cbv beta zeta.
  change (Z.eqb 1 1) with true. cbv beta iota. rewrite E2. reflexivity.
Qed.

Lemma main_shows_solution_witness :
  exists puzzle sol w',
    main 83 (Some "easy"%string) 1 sample_world
    = Some (mkShown 0
              ((banner ++ nl ++ "Generated " ++ "easy" ++ " puzzle:" ++ nl
                ++ printGrid puzzle ++ menu)
               ++ nl ++ "Solution:" ++ nl ++ printGrid sol)%string
              EmptyString, w') /\
    enumerates puzzle [sol].
Proof. apply (main_shows_solution 82 "easy" sample_world). lia. Defined.

(** X22. The program always ends.  When the difficulty cannot be read
    it returns 1 with the message Input error on [cerr], having drawn
    no random number; otherwise it returns 0 and writes nothing to
    [cerr]; and with a choice other than 1 it shows the puzzle and the
    menu and ends with Goodbye, without calling the solver. *)
Theorem main_runs (fuel : nat) (typed : option string) (choice : Z)
        (w : world) :
  81 < fuel ->
  exists res w',
    main (S fuel) typed choice w = Some (res, w') /\
    (typed = None ->
     res = mkShown 1 banner ("Input error." ++ nl)%string /\ w' = w) /\
    (typed <> None -> exit_code res = 0%Z /\ to_cerr res = EmptyString) /\
    (forall difficulty, typed = Some difficulty -> choice <> 1%Z ->
       exists puzzle,
         generatePuzzle (S fuel) local_array difficulty w = Some (puzzle, w') /\
         to_cout res
         = ((banner ++ nl ++ "Generated " ++ difficulty ++ " puzzle:" ++ nl
             ++ printGrid puzzle ++ menu) ++ "Goodbye!" ++ nl)%string).
Proof.
  intros Hfuel. destruct typed as [difficulty|].
  - destruct (main_generates fuel difficulty w Hfuel)
      as (sol & puzzle & w1 & E1 & _ & _ & Hsolve).
    unfold main, bind. rewrite E1. cbv beta zeta.
    destruct (Z.eqb_spec choice 1) as [->|Hne].
    + destruct (Hsolve w1) as [w2 E2]. rewrite E2. cbv beta iota.
      eexists _, _. split; [reflexivity|].
      split; [discriminate|]. split; [intros _; split; reflexivity|].
      intros d _ X. contradiction.
    + eexists _, _. split; [reflexivity|].
      split; [discriminate|]. split; [intros _; split; reflexivity|].
      intros d Ed _. inversion Ed; subst d. exists puzzle.
      split; [exact E1|reflexivity].
  - eexists _, _. split; [reflexivity|].
    split; [intros _; split; reflexivity|].
    split; [intros X; contradiction|]. intros d Ed. discriminate.
Qed.

Lemma main_runs_witness :
  exists res w',
    main 83 (Some "hard"%string) 2 sample_world = Some (res, w') /\
    (Some "hard"%string = None ->
     res = mkShown 1 banner ("Input error." ++ nl)%string /\ w' = sample_world) /\
    (Some "hard"%string <> None ->
     exit_code res = 0%Z /\ to_cerr res = EmptyString) /\
    (forall difficulty, Some "hard"%string = Some difficulty -> 2%Z <> 1%Z ->
       exists puzzle,
         generatePuzzle 83 local_array difficulty sample_world
         = Some (puzzle, w') /\
         to_cout res
         = ((banner ++ nl ++ "Generated " ++ difficulty ++ " puzzle:" ++ nl
             ++ printGrid puzzle ++ menu) ++ "Goodbye!" ++ nl)%string).
Proof. apply (main_runs 82 (Some "hard"%string) 2 sample_world). lia. Defined.

(** ** Every order can come out of the shuffle *)

Section ShuffleReach.
Context {A : Type} (dec : forall a b : A, {a = b} + {a <> b}) (d : A).

Lemma upd_app (l l2 : list A) i v :
  i < List.length l -> upd (l ++ l2) i v = upd l i v ++ l2.
Proof.
  revert i; induction l as [|x t IH]; intros [|i] H; simpl in *; try lia; auto.
  rewrite IH by lia. reflexivity.
Qed.

Lemma swap_app (l l2 : list A) i j :
  i < List.length l -> j < List.length l ->
  swap d (l ++ l2) i j = swap d l i j ++ l2.
Proof.
  intros Hi Hj. unfold swap.
  rewrite !app_nth1 by assumption.
  rewrite upd_app by assumption.
  rewrite upd_app by (now rewrite length_upd).
  reflexivity.
Qed.

Lemma swap_length (l : list A) i j : List.length (swap d l i j) = List.length l.
Proof. unfold swap. now rewrite !length_upd. Qed.

Lemma swap_nth_left (l : list A) i j :
  i < List.length l -> j < List.length l -> nth i (swap d l i j) d = nth j l d.
Proof.
  intros Hi Hj. unfold swap.
  rewrite nth_upd by (now rewrite length_upd).
  destruct (Nat.eq_dec j i) as [->|Hne]; [reflexivity|].
  now apply nth_upd_eq.
Qed.

Lemma shuffle_with_app todo : forall js (l l2 : list A),
  Forall2 (fun i j => j <= i) todo js ->
  (forall i, In i todo -> i < List.length l) ->
  shuffle_with d todo js (l ++ l2) = shuffle_with d todo js l ++ l2.
Proof.
  induction todo as [|i rest IH]; intros js l l2 HF Hin; [reflexivity|].
  inversion HF as [|? j ? js' Hji HF']; subst. cbn [shuffle_with].
  assert (Hi : i < List.length l) by (apply Hin; now left).
  rewrite swap_app by lia.
  apply IH; [assumption|].
  intros k Hk. rewrite swap_length. apply Hin. now right.
Qed.

Lemma last_split (l : list A) k :
  List.length l = S k -> l = firstn k l ++ [nth k l d].
Proof.
  revert k; induction l as [|x t IH]; intros k H; [discriminate|].
  destruct k as [|k]; simpl in *.
  - destruct t; [reflexivity|discriminate].
  - f_equal. apply IH. lia.
Qed.

Lemma downfrom_S n : downfrom (S n) = S n :: downfrom n.
Proof. unfold downfrom. rewrite seq_S, rev_app_distr. reflexivity. Qed.

Lemma in_downfrom i n : In i (downfrom n) -> 1 <= i <= n.
Proof. unfold downfrom. intros H. apply in_rev, in_seq in H. lia. Qed.

(** Any arrangement of the array is the result for some indices. *)
Lemma shuffle_with_reaches n : forall (a t : list A),
  List.length a = S n -> Permutation a t ->
  exists js, Forall2 (fun i j => j <= i) (downfrom n) js /\
             shuffle_with d (downfrom n) js a = t.
Proof.
  induction n as [|n IH]; intros a t Hlen HP.
  - exists []. split; [constructor|]. simpl.
    destruct a as [|x [|y a]]; try discriminate.
    symmetry. now apply Permutation_length_1_inv.
  - assert (Hlt : List.length t = S (S n))
      by (now rewrite <- (Permutation_length HP)).
    pose proof (last_split t (S n) Hlt) as Et.
    set (x := nth (S n) t d) in *. set (t' := firstn (S n) t) in *.
    assert (Hx : In x a).
    { apply (Permutation_in _ (Permutation_sym HP)). rewrite Et.
      apply in_or_app. right. now left. }
    destruct (In_nth a x d Hx) as (j & Hj & Ej).
    set (a1 := swap d a (S n) j).
    assert (Hlen1 : List.length a1 = S (S n))
      by (unfold a1; now rewrite swap_length).
    pose proof (last_split a1 (S n) Hlen1) as Ea1.
    assert (Elast : nth (S n) a1 d = x).
    { unfold a1. rewrite swap_nth_left by lia. exact Ej. }
    rewrite Elast in Ea1.
    assert (HP1 : Permutation (firstn (S n) a1) t').
    { apply (Permutation_app_inv_r [x]). rewrite <- Ea1, <- Et.
      transitivity a; [|assumption].
      apply (swap_Permutation dec d a (S n) j); lia. }
    destruct (IH (firstn (S n) a1) t') as (js' & HF & Ejs); auto.
    { rewrite length_firstn. lia. }
    exists (j :: js'). split.
    + rewrite downfrom_S. constructor; [lia|assumption].
    + rewrite downfrom_S. cbn [shuffle_with]. fold a1.
      rewrite Ea1. rewrite shuffle_with_app; auto.
      * rewrite Ejs. symmetry. exact Et.
      * intros i Hi. apply in_downfrom in Hi. rewrite length_firstn. lia.
Qed.
End ShuffleReach.

Lemma shuffle_loop_with {A} (d : A) todo : forall js a w,
  Forall2 (fun i j => j <= i) todo js ->
  (forall k, k < List.length js ->
     randoms w (drawn w + N.of_nat k)%N = N.of_nat (nth k js 0)) ->
  exists w', shuffle_loop d todo a w = Some (shuffle_with d todo js a, w').
Proof.
  induction todo as [|i rest IH]; intros js a w HF Hrs.
  - inversion HF; subst. exists w. reflexivity.
  - inversion HF as [|? j ? js' Hji HF']; subst.
    cbn [shuffle_loop shuffle_with]. unfold bind, rand.
    assert (E0 : randoms w (drawn w) = N.of_nat j).
    { pose proof (Hrs 0 ltac:(simpl; lia)) as X.
      rewrite N.add_0_r in X. exact X. }
    rewrite E0.
    assert (Ej : N.to_nat (N.of_nat j mod N.of_nat (i + 1)) = j).
    { rewrite N.mod_small by lia. lia. }
    rewrite Ej.
    apply IH; [assumption|].
    intros k Hk. cbn [randoms drawn].
    replace (N.succ (drawn w) + N.of_nat k)%N
      with (drawn w + N.of_nat (S k))%N by lia.
    apply (Hrs (S k)). simpl. lia.
Qed.

(** X23. Every order of the digits can come out of [shuffledDigits]:
    for each arrangement of 1-9 there are random numbers with which the
    call returns it. *)
Theorem shuffledDigits_any_order (order : list Z) (start : BinNums.N)
        (hist : list grid) :
  Permutation digits order ->
  exists rs w', shuffledDigits (mkWorld rs start hist) = Some (order, w').
Proof.
  intros HP.
  destruct (shuffle_with_reaches Z.eq_dec 0%Z 8 digits order eq_refl HP)
    as (js & HF & Ejs).
  exists (fun k => N.of_nat (nth (N.to_nat (k - start)) js 0)).
  unfold shuffledDigits.
  change (map (fun i => Z.of_nat (i + 1)) (seq 0 9)) with digits.
  rewrite <- Ejs. apply shuffle_loop_with; [assumption|].
  intros k Hk. cbn [randoms drawn].
  replace (N.to_nat (start + N.of_nat k - start)) with k by lia.
  reflexivity.
Qed.

Lemma shuffledDigits_any_order_witness :
  exists rs w',
    shuffledDigits (mkWorld rs 0%N []) = Some (rev digits, w').
Proof.
  apply (shuffledDigits_any_order (rev digits) 0%N []).
  apply Permutation_rev.
Defined.

(** ** One cell cleared *)

Lemma solved_row_has g r d :
  solved g -> r < 9 -> (1 <= d <= 9)%Z -> exists k, k < 9 /\ get g r k = d.
Proof.
  intros Hs Hr Hd. destruct (Hs r Hr) as [Hrow _].
  rewrite row_cells_unit in Hrow.
  assert (Hin : In d (unit_of (row_at r) g)).
  { apply (count_occ_In Z.eq_dec). rewrite (Hrow d Hd). lia. }
  apply unit_in in Hin. destruct Hin as (k & Hk & E).
  exists k. split; [assumption|]. symmetry. exact E.
Qed.

(** A solved grid with one cell cleared has that grid as only
    completion. *)
Lemma one_cell_cleared sol r c :
  wf sol -> solved sol -> r < 9 -> c < 9 ->
  enumerates (put sol r c 0%Z) [sol].
Proof.
  intros Hwf Hs Hr Hc. split; [constructor; [simpl; tauto|constructor]|].
  intros h. simpl. split.
  - intros [<-|[]]. split; [assumption|]. split; [assumption|].
    now apply agrees_clear.
  - intros (Hwh & Hsh & Hag). left. apply grid_ext; auto.
    assert (Hother : forall r' c', r' < 9 -> c' < 9 -> (r', c') <> (r, c) ->
              get h r' c' = get sol r' c').
    { intros r' c' Hr' Hc' Hne.
      pose proof (Hag r' c' Hr' Hc') as X.
      rewrite get_put_neq in X by congruence.
      apply X. now apply (solved_full sol Hs). }
    intros r' c' Hr' Hc'.
    destruct (Nat.eq_dec r' r) as [->|Nr];
      [destruct (Nat.eq_dec c' c) as [->|Nc]|];
      try (symmetry; apply Hother; auto; congruence).
    pose proof (solved_digit sol r c Hs Hr Hc) as Hd.
    destruct (solved_row_has h r (get sol r c) Hsh Hr Hd) as (k & Hk & Ek).
    destruct (Nat.eq_dec k c) as [->|Nk]; [symmetry; exact Ek|].
    exfalso. rewrite Hother in Ek by (auto; congruence).
    apply (solved_no_dup sol Hs r c r k); auto; try congruence; try lia.
    now left.
Qed.

Lemma count_one_cleared fuel sol r c limit w :
  wf sol -> solved sol -> r < 9 -> c < 9 -> (1 <= limit)%Z -> 81 < fuel ->
  returns (countSolutions fuel (put sol r c 0%Z) limit) w
    (fun res _ => res = (put sol r c 0%Z, 1%Z)).
Proof.
  intros Hwf Hs Hr Hc Hl Hfuel.
  set (g1 := put sol r c 0%Z).
  assert (Hwf1 : wf g1) by now apply wf_put.
  assert (Hrange1 : in_range g1).
  { apply in_range_put; auto; [now apply solved_in_range|lia]. }
  assert (Hnd1 : no_dup g1).
  { apply no_dup_put_zero; auto. now apply solved_no_dup. }
  eapply returns_weaken.
  { apply (countSolutions_spec fuel g1 limit w Hwf1).
    pose proof (count_empty_le g1). lia. }
  intros [g' c'] w' (Eg & _ & HL & _). cbn [fst snd] in *. subst g'.
  rewrite (HL [sol] ltac:(lia) Hrange1 Hnd1
              (one_cell_cleared sol r c Hwf Hs Hr Hc)).
  f_equal. simpl. lia.
Qed.

(** X24. Clearing any one cell of a solved grid leaves a grid on which
    [countSolutions] returns 1, for every limit of at least 1: the first
    removal the carving tries is always kept. *)
Theorem countSolutions_one_cleared (fuel : nat) (sol : grid) (r c : nat)
        (limit : Z) (w : world) :
  wf sol -> solved sol -> r < 9 -> c < 9 -> (1 <= limit)%Z -> 81 < fuel ->
  exists w',
    countSolutions fuel (put sol r c 0%Z) limit w
    = Some ((put sol r c 0%Z, 1%Z), w').
Proof.
  intros Hwf Hs Hr Hc Hl Hfuel.
  destruct (count_one_cleared fuel sol r c limit w Hwf Hs Hr Hc Hl Hfuel)
    as (res & w' & E & Eres).
  subst res. exists w'. exact E.
Qed.

Lemma countSolutions_one_cleared_witness :
  exists w',
    countSolutions 82 (put a_solution 4 4 0%Z) 2 sample_world
    = Some ((put a_solution 4 4 0%Z, 1%Z), w').
Proof.
  apply (countSolutions_one_cleared 82 a_solution 4 4 2 sample_world);
    try lia; [apply a_solution_wf|apply a_solution_solved].
Defined.

Lemma carve_loop_first fuel cells toRemove sol idx rest w :
  81 < fuel -> (forall i, nth i cells 0 < 81) ->
  wf sol -> solved sol -> (1 <= toRemove)%Z ->
  returns (carve_loop fuel cells toRemove (idx :: rest) sol 0%Z) w
    (fun res _ =>
       (1 <= snd res)%Z /\
       (81 = Z.of_nat (count_filled (fst res)) + snd res)%Z).
Proof.
  intros Hfuel Hcells Hwf Hs Hrem.
  pose proof (carve_loop_clears fuel cells toRemove Hfuel Hcells
                (idx :: rest) sol 0%Z w Hwf) as Hall.
  destruct Hall as ([g' rem'] & w' & E & (_ & _ & _ & Hcnt)).
  cbn [fst snd] in Hcnt.
  rewrite (count_filled_full sol (solved_full _ Hs)) in Hcnt.
  exists (g', rem'), w'. split; [exact E|]. cbn [fst snd]. split; [|lia].
  revert E. cbn [carve_loop].
  destruct (Z.ltb_spec 0 toRemove) as [_|Hge]; [|lia].
  cbv zeta. set (pos := nth idx cells 0).
  assert (Hpos : pos < 81) by apply Hcells.
  assert (Hr : pos / 9 < 9) by (apply Nat.Div0.div_lt_upper_bound; lia).
  assert (Hc : pos mod 9 < 9) by (apply Nat.mod_upper_bound; lia).
  unfold UNASSIGNED.
  destruct (Z.eqb_spec (get sol (pos / 9) (pos mod 9)) 0) as [Hz|_].
  { exfalso. now apply (solved_full sol Hs _ _ Hr Hc). }
  destruct (count_one_cleared fuel sol (pos / 9) (pos mod 9) 2 w
              Hwf Hs Hr Hc ltac:(lia) Hfuel) as (res & w1 & E1 & ->).
  unfold bind at 1. rewrite E1. cbv beta iota.
  change (Z.eqb 1 1) with true. cbv iota.
  intros E.
  pose proof (returns_inv _ _ _ _ _
                (carve_loop_clears fuel cells toRemove Hfuel Hcells rest
                   (put sol (pos / 9) (pos mod 9) 0%Z) (0 + 1)%Z w1
                   (wf_put _ _ _ _ Hwf)) E) as (_ & _ & Hb & _).
  cbn [snd] in Hb. lia.
Qed.

(** X25. The puzzle [generatePuzzle] returns is never the full
    solution: the first cell the carving tries is always cleared, so at
    most 80 of the 81 cells are filled. *)
Theorem generatePuzzle_not_full (fuel : nat) (out : grid) (difficulty : string)
        (w : world) :
  wf out -> 81 < fuel ->
  exists puzzle w',
    generatePuzzle (S fuel) out difficulty w = Some (puzzle, w') /\
    count_filled puzzle <= 80 /\
    exists r c, r < 9 /\ c < 9 /\ get puzzle r c = 0%Z.
Proof.
  intros Hwf Hfuel.
  destruct (generatePuzzle_run fuel out difficulty w Hwf Hfuel)
    as (sol & w1 & clues & w2 & puzzle & w3 &
        E1 & Hws & Hs & E2 & E3 & E4 & Hc & _).
  exists puzzle, w3. split; [assumption|].
  assert (Hcl : (clues <= 50)%Z).
  { rewrite pick_clues_run in E2. inversion E2 as [[X Y]].
    pose proof (N.mod_upper_bound (randoms w1 (drawn w1)) 6 ltac:(lia)).
    destruct (clue_range_width difficulty) as [_ Hlo].
    revert H. generalize (N.modulo (randoms w1 (drawn w1)) 6). intros k Hk.
    lia. }
  assert (Hcount : count_filled puzzle <= 80).
  { revert E3. unfold carveUnique.
    destruct (shuffled_cells_spec w2) as (cells & w4 & E5 & _ & Hcells & _).
    unfold bind at 1. rewrite E5.
    change (seq 0 81) with (0 :: seq 1 80).
    destruct (carve_loop_first fuel cells (81 - clues)%Z sol 0 (seq 1 80) w4
                Hfuel Hcells Hws Hs ltac:(lia))
      as ([g' rem'] & w5 & E6 & Hone & Hsum).
    unfold bind. rewrite E6. unfold ret. intros X. inversion X; subst.
    cbn [fst snd] in *. lia. }
  split; [assumption|].
  destruct (findUnassigned puzzle) as [[r c]|] eqn:Ef.
  - destruct (findUnassigned_some _ _ _ Ef) as (Hr & Hcc & Hz).
    exists r, c. auto.
  - exfalso. pose proof (findUnassigned_none _ Ef) as Hfull.
    rewrite (count_filled_full puzzle Hfull) in Hcount. lia.
Qed.

Lemma generatePuzzle_not_full_witness :
  exists puzzle w',
    generatePuzzle 83 a_puzzle "easy" sample_world = Some (puzzle, w') /\
    count_filled puzzle <= 80 /\
    exists r c, r < 9 /\ c < 9 /\ get puzzle r c = 0%Z.
Proof.
  apply (generatePuzzle_not_full 82 a_puzzle "easy" sample_world);
    [apply wfb_correct; reflexivity|lia].
Defined.
